(** * CA2UN: the unfolding reconstruction engine of [sci/architectures/CA2UN.py]

    A shallow embedding of the sensing operators, the dispersion shift, the
    windowed attention, the transformer block and the unfolding controller,
    together with the properties proved about them.

    Conventions of the embedding.
    - A torch tensor is a shape and an indexing function into the real
      numbers: floating-point entries are idealised as reals, so that
      [exp], division and the ring laws are the mathematical ones.  A
      tensor carries no dtype.  Where a result is nothing but moved data,
      as in [shift_3d], which copies its argument into a float32 buffer,
      the copy rounds with [to_float32].  Infinities and NaN are not
      values of the model.
    - A Python exception is a [Raise] of the error monad [res]; the
      controller runs in a state-and-error monad over a store of tensors,
      because the source mutates some tensors in place and aliases others.
    - Learned layers whose inner arithmetic plays no role (the convolution
      stacks of DADN and LNLT, the feed-forward block) are parameters of the
      sections that use them; their shape contract is written out. *)

From Stdlib Require Import List ZArith Reals Lia Lra Bool Arith PeanoNat.
Import ListNotations.

(** ** Errors and results *)

Inductive error := ValueError | IndexError | RuntimeError | ZeroDivisionError.

Inductive res (A : Type) : Type :=
| Ok (a : A)
| Raise (e : error).
Arguments Ok {A} a.
Arguments Raise {A} e.

Definition bind {A B : Type} (r : res A) (k : A -> res B) : res B :=
  match r with
  | Ok a => k a
  | Raise e => Raise e
  end.

Notation "x <- r ;; k" := (bind r (fun x => k))
  (at level 61, r at next level, right associativity).
Notation "' p <- r ;; k" := (bind r (fun x => match x with p => k end))
  (at level 61, p pattern, r at next level, right associativity).

(** [for i in range(n)] threading a value through the body. *)
Fixpoint for_range {S : Type} (n : nat) (s : S) (body : nat -> S -> res S) : res S :=
  match n with
  | 0 => Ok s
  | S k => s' <- for_range k s body ;; body k s'
  end.

(** ** Tensors *)

Record tensor : Type := mkT { shape : list nat; val : list nat -> R }.

(** [idx] is a valid index of a tensor of shape [s]. *)
Fixpoint inb (s idx : list nat) : Prop :=
  match s, idx with
  | [], [] => True
  | d :: s', i :: idx' => i < d /\ inb s' idx'
  | _, _ => False
  end.

(** Two tensors with the same shape and the same entries. *)
Definition teq (a b : tensor) : Prop :=
  shape a = shape b /\ forall idx, inb (shape a) idx -> val a idx = val b idx.

Definition shape4 (t : tensor) : res (nat * nat * nat * nat) :=
  match shape t with
  | [b; c; h; w] => Ok (b, c, h, w)
  | _ => Raise ValueError
  end.

Definition shape3 (t : tensor) : res (nat * nat * nat) :=
  match shape t with
  | [b; n; c] => Ok (b, n, c)
  | _ => Raise ValueError
  end.

(** [t.shape[k]]. *)
Definition dim_size (t : tensor) (k : nat) : res nat :=
  match nth_error (shape t) k with
  | Some n => Ok n
  | None => Raise IndexError
  end.

Definition full (s : list nat) (v : R) : tensor := mkT s (fun _ => v).

(** [torch.zeros(dims)]: a negative dimension is refused. *)
Definition zeros (dims : list Z) : res tensor :=
  if forallb (fun d => (0 <=? d)%Z) dims
  then Ok (full (map Z.to_nat dims) 0%R)
  else Raise RuntimeError.

(** *** Broadcasting *)

Fixpoint bshape_rev (r1 r2 : list nat) : option (list nat) :=
  match r1, r2 with
  | [], r => Some r
  | r, [] => Some r
  | a :: r1', b :: r2' =>
      match bshape_rev r1' r2' with
      | None => None
      | Some r =>
          if a =? b then Some (a :: r)
          else if a =? 1 then Some (b :: r)
          else if b =? 1 then Some (a :: r)
          else None
      end
  end.

Definition broadcast_shapes (s1 s2 : list nat) : option (list nat) :=
  option_map (@rev nat) (bshape_rev (rev s1) (rev s2)).

Fixpoint zip_with {A B C : Type} (f : A -> B -> C) (l1 : list A) (l2 : list B) : list C :=
  match l1, l2 with
  | a :: l1', b :: l2' => f a b :: zip_with f l1' l2'
  | _, _ => []
  end.

(** The index an operand of shape [s] is read at when the result is read
    at [idx]: trailing axes are aligned and an axis of size 1 is repeated. *)
Definition bidx (s idx : list nat) : list nat :=
  zip_with (fun d i => if d =? 1 then 0 else i) s (skipn (length idx - length s) idx).

Definition binop (f : R -> R -> R) (a b : tensor) : res tensor :=
  match broadcast_shapes (shape a) (shape b) with
  | Some s => Ok (mkT s (fun idx => f (val a (bidx (shape a) idx)) (val b (bidx (shape b) idx))))
  | None => Raise RuntimeError
  end.

Definition tadd := binop Rplus.
Definition tsub := binop Rminus.
Definition tmul := binop Rmult.
Definition tdiv := binop Rdiv.

Definition tmap (f : R -> R) (t : tensor) : tensor :=
  mkT (shape t) (fun idx => f (val t idx)).

(** *** Reductions *)

Fixpoint sum_n (n : nat) (f : nat -> R) : R :=
  match n with
  | 0 => 0%R
  | S k => (sum_n k f + f k)%R
  end.

(** [torch.sum(t, d)]. *)
Definition sum_dim (d : nat) (t : tensor) : res tensor :=
  if d <? length (shape t) then
    Ok (mkT (firstn d (shape t) ++ skipn (S d) (shape t))
            (fun idx => sum_n (nth d (shape t) 0)
                          (fun c => val t (firstn d idx ++ c :: skipn d idx))))
  else Raise IndexError.

(** [torch.sum(t)]: the sum of all entries. *)
Fixpoint sum_over (s : list nat) (f : list nat -> R) : R :=
  match s with
  | [] => f []
  | d :: s' => sum_n d (fun i => sum_over s' (fun idx => f (i :: idx)))
  end.

Definition sum_all (t : tensor) : R := sum_over (shape t) (val t).

(** *** Basic indexing: [t[i]], [t[lo:hi]], [t[:]] *)

(** A bound of a Python slice over an axis of size [n]: a negative bound
    counts from the end, and every bound is clamped to [0..n]. *)
Definition norm_bound (dflt : nat) (b : option Z) (n : nat) : nat :=
  match b with
  | None => dflt
  | Some z =>
      if (z <? 0)%Z then Z.to_nat (Z.max (z + Z.of_nat n) 0)
      else Nat.min (Z.to_nat z) n
  end.

Definition slice_start (lo : option Z) (n : nat) : nat := norm_bound 0 lo n.
Definition slice_stop (hi : option Z) (n : nat) : nat := norm_bound n hi n.
Definition slice_len (lo hi : option Z) (n : nat) : nat :=
  slice_stop hi n - slice_start lo n.

Inductive ix : Type :=
| IAt (i : nat)
| ISlice (lo hi : option Z).

Definition IAll : ix := ISlice None None.
Definition upto (n : nat) : ix := ISlice None (Some (Z.of_nat n)).

(** Shape of [t[specs]]; axes not named by [specs] are kept whole. *)
Fixpoint sel_shape (specs : list ix) (s : list nat) : res (list nat) :=
  match specs, s with
  | [], _ => Ok s
  | _ :: _, [] => Raise IndexError
  | IAt i :: sp, d :: s' => if i <? d then sel_shape sp s' else Raise IndexError
  | ISlice lo hi :: sp, d :: s' =>
      r <- sel_shape sp s' ;; Ok (slice_len lo hi d :: r)
  end.

(** Where entry [ridx] of [t[specs]] lies in [t]. *)
Fixpoint src_index (specs : list ix) (s : list nat) (ridx : list nat) : list nat :=
  match specs, s with
  | IAt i :: sp, _ :: s' => i :: src_index sp s' ridx
  | ISlice lo _ :: sp, d :: s' =>
      match ridx with
      | r :: ridx' => (slice_start lo d + r) :: src_index sp s' ridx'
      | [] => []
      end
  | _, _ => ridx
  end.

Definition getitem (specs : list ix) (t : tensor) : res tensor :=
  s <- sel_shape specs (shape t) ;;
  Ok (mkT s (fun ridx => val t (src_index specs (shape t) ridx))).

(** The position inside [t[specs]] of entry [idx] of [t], if it is selected. *)
Fixpoint region_index (specs : list ix) (s : list nat) (idx : list nat) : option (list nat) :=
  match specs, s, idx with
  | [], _, _ => Some idx
  | IAt i :: sp, _ :: s', j :: idx' =>
      if j =? i then region_index sp s' idx' else None
  | ISlice lo hi :: sp, d :: s', j :: idx' =>
      if (slice_start lo d <=? j) && (j <? slice_stop hi d)
      then option_map (cons (j - slice_start lo d)) (region_index sp s' idx')
      else None
  | _, _, _ => None
  end.

(** The value of an assignment must broadcast to the assigned region. *)
Definition expandable (vs rs : list nat) : bool :=
  match broadcast_shapes vs rs with
  | Some s => if list_eq_dec Nat.eq_dec s rs then true else false
  | None => false
  end.

(** [t[specs] = v], as the tensor [t] holds afterwards. *)
Definition setitem (specs : list ix) (t v : tensor) : res tensor :=
  rs <- sel_shape specs (shape t) ;;
  if expandable (shape v) rs then
    Ok (mkT (shape t)
            (fun idx =>
               match region_index specs (shape t) idx with
               | Some r => val v (bidx (shape v) r)
               | None => val t idx
               end))
  else Raise RuntimeError.

(** *** Shape manipulation *)

(** [torch.cat([a, b], dim=d)]. *)
Definition cat (d : nat) (a b : tensor) : res tensor :=
  let sa := shape a in
  let sb := shape b in
  if (d <? length sa)
     && (if list_eq_dec Nat.eq_dec (firstn d sa) (firstn d sb) then true else false)
     && (if list_eq_dec Nat.eq_dec (skipn (S d) sa) (skipn (S d) sb) then true else false)
     && (length sa =? length sb)
  then
    let na := nth d sa 0 in
    Ok (mkT (firstn d sa ++ (na + nth d sb 0) :: skipn (S d) sa)
            (fun idx =>
               let j := nth d idx 0 in
               if j <? na then val a idx
               else val b (firstn d idx ++ (j - na) :: skipn (S d) idx)))
  else Raise RuntimeError.

(** [torch.unsqueeze(t, d)]. *)
Definition unsqueeze (d : nat) (t : tensor) : res tensor :=
  if d <=? length (shape t) then
    Ok (mkT (firstn d (shape t) ++ 1 :: skipn d (shape t))
            (fun idx => val t (firstn d idx ++ skipn (S d) idx)))
  else Raise IndexError.

(** [t.repeat(r0, r1, ...)]: the tensor tiled [reps] times along each axis. *)
Definition repeat_ (reps : list nat) (t : tensor) : res tensor :=
  let s := shape t in
  if length s <=? length reps then
    let s1 := List.repeat 1 (length reps - length s) ++ s in
    Ok (mkT (zip_with Nat.mul reps s1)
            (fun idx =>
               val t (zip_with (fun i d => i mod d) (skipn (length reps - length s) idx) s)))
  else Raise RuntimeError.

Fixpoint upd_nth {A : Type} (n : nat) (x : A) (l : list A) : list A :=
  match l, n with
  | [], _ => []
  | _ :: l', 0 => x :: l'
  | a :: l', S n' => a :: upd_nth n' x l'
  end.

(** [torch.roll(t, shifts, dims=d)]: entry [j] of the result is entry
    [(j - shifts) mod n] of [t] along axis [d]. *)
Definition roll (shifts : Z) (d : nat) (t : tensor) : res tensor :=
  if d <? length (shape t) then
    let n := Z.of_nat (nth d (shape t) 0) in
    Ok (mkT (shape t)
            (fun idx =>
               val t (upd_nth d (Z.to_nat ((Z.of_nat (nth d idx 0) - shifts) mod n)) idx)))
  else Raise IndexError.

(** *** Views, permutations, padding *)

Definition numel (s : list nat) : nat := fold_right Nat.mul 1 s.

(** Row-major offset of an index, and the index at an offset. *)
Fixpoint ravel (s idx : list nat) : nat :=
  match s, idx with
  | _ :: s', i :: idx' => i * numel s' + ravel s' idx'
  | _, _ => 0
  end.

Fixpoint unravel (s : list nat) (n : nat) : list nat :=
  match s with
  | [] => []
  | _ :: s' => (n / numel s') :: unravel s' (n mod numel s')
  end.

(** [t.view(s')] and [t.reshape(s')]: the same entries in row-major order. *)
Definition view (s' : list nat) (t : tensor) : res tensor :=
  if numel s' =? numel (shape t)
  then Ok (mkT s' (fun idx => val t (unravel (shape t) (ravel s' idx))))
  else Raise RuntimeError.

(** A shape with one dimension left to be inferred ([-1], here [None]). *)
Definition infer_shape (dims : list (option nat)) (n : nat) : list nat :=
  let known :=
    fold_right (fun d acc => match d with Some k => k * acc | None => acc end) 1 dims in
  map (fun d => match d with Some k => k | None => n / known end) dims.

Definition view_infer (dims : list (option nat)) (t : tensor) : res tensor :=
  view (infer_shape dims (numel (shape t))) t.

Fixpoint index_of (a : nat) (p : list nat) : nat :=
  match p with
  | [] => 0
  | b :: p' => if a =? b then 0 else S (index_of a p')
  end.

(** [t.permute(p)]: axis [k] of the result is axis [p[k]] of [t]. *)
Definition permute (p : list nat) (t : tensor) : res tensor :=
  if (length p =? length (shape t))
     && forallb (fun a => existsb (Nat.eqb a) p) (seq 0 (length p))
  then Ok (mkT (map (fun k => nth k (shape t) 0) p)
               (fun idx => val t (map (fun a => nth (index_of a p) idx 0)
                                      (seq 0 (length p)))))
  else Raise RuntimeError.

(** [F.pad(t, (0, 0, 0, pad_r, 0, pad_b))] on a tensor [b, h, w, c]: zero
    rows below and zero columns to the right. *)
Definition pad_right_bottom (pad_r pad_b : nat) (t : tensor) : res tensor :=
  match shape t with
  | [b; h; w; c] =>
      Ok (mkT [b; h + pad_b; w + pad_r; c]
              (fun idx =>
                 match idx with
                 | [_; i; j; _] => if (i <? h) && (j <? w) then val t idx else 0%R
                 | _ => 0%R
                 end))
  | _ => Raise RuntimeError
  end.

(** *** Linear algebra *)

(** [a @ b] on 4-D tensors with the same two leading axes. *)
Definition matmul (a b : tensor) : res tensor :=
  match shape a, shape b with
  | [x; y; n; k], [x'; y'; k'; m] =>
      if (x =? x') && (y =? y') && (k =? k')
      then Ok (mkT [x; y; n; m]
                   (fun idx =>
                      match idx with
                      | [i; j; r; c] =>
                          sum_n k (fun l => val a [i; j; r; l] * val b [i; j; l; c])%R
                      | _ => 0%R
                      end))
      else Raise RuntimeError
  | _, _ => Raise RuntimeError
  end.

(** [t.softmax(dim=-1)]. *)
Definition softmax (t : tensor) : tensor :=
  mkT (shape t)
      (fun idx =>
         let n := last (shape t) 0 in
         (exp (val t idx) / sum_n n (fun l => exp (val t (removelast idx ++ [l]))))%R).

(** [nn.Linear(cin, cout)] applied along the last axis; [wt] is [out][in]. *)
Definition linear (cin cout : nat) (wt : nat -> nat -> R) (bias : option (nat -> R))
    (t : tensor) : res tensor :=
  match shape t with
  | [] => Raise RuntimeError
  | _ :: _ =>
      if last (shape t) 0 =? cin
      then Ok (mkT (removelast (shape t) ++ [cout])
                   (fun idx =>
                      let o := last idx 0 in
                      (sum_n cin (fun c => val t (removelast idx ++ [c]) * wt o c)
                       + match bias with Some b => b o | None => 0 end)%R))
      else Raise RuntimeError
  end.

(** ** Sensing operators (lines 393-402) *)

Definition A (x Phi : tensor) : res tensor :=
  '(_, _, _, _) <- shape4 x ;;
  temp <- tmul x Phi ;;
  sum_dim 1 temp.

Definition At (y Phi : tensor) : res tensor :=
  y1 <- unsqueeze 1 y ;;
  nC <- dim_size Phi 1 ;;
  temp <- repeat_ [1; nC; 1; 1] y1 ;;
  tmul temp Phi.

(** ** The float32 format *)

(** The finite binary32 numbers: [m * 2^e] with a significand of at most 24
    bits and the exponent of its last bit between -149 and 104. *)
Definition float32 (v : R) : Prop :=
  exists m e : Z,
    (Z.abs m < 2 ^ 24)%Z /\ (-149 <= e <= 104)%Z /\ v = (IZR m * powerRZ 2 e)%R.

(** Every entry of the tensor is a float32 number: the values a tensor of
    dtype float32 (or float16, or an integer tensor within 24 bits) holds. *)
Definition float32_tensor (t : tensor) : Prop :=
  forall idx, inb (shape t) idx -> float32 (val t idx).

(** The exponent of the last bit binary32 keeps of [v <> 0]:
    [floor(log2 |v|) - 23], and -149 in the subnormal range. *)
Definition float32_exponent (v : R) : Z :=
  Z.max (-149) (Int_part (ln (Rabs v) / ln 2) - 23).

(** Rounding to the nearest integer, a tie going to the even one. *)
Definition round_half_even (r : R) : Z :=
  let f := Int_part r in
  if Rlt_dec (r - IZR f) (1 / 2) then f
  else if Rlt_dec (1 / 2) (r - IZR f) then (f + 1)%Z
  else if Z.even f then f else (f + 1)%Z.

(** Conversion to float32, as an assignment into a float32 tensor performs
    it: round to nearest, ties to even.  (Beyond the largest float32 the
    source yields an infinity, which the model has no value for.) *)
Definition to_float32 (v : R) : R :=
  if Req_dec_T v 0 then 0%R
  else
    let e := float32_exponent v in
    (IZR (round_half_even (v * powerRZ 2 (- e))) * powerRZ 2 e)%R.

(** ** Dispersion shift and its inverse (lines 405-417) *)

(** The statement [t[:,i,:,:] = torch.roll(t[:,i,:,:], shifts=shifts, dims=2)]. *)
Definition roll_band (shifts : Z) (i : nat) (t : tensor) : res tensor :=
  band <- getitem [IAll; IAt i; IAll; IAll] t ;;
  rolled <- roll shifts 2 band ;;
  setitem [IAll; IAt i; IAll; IAll] t rolled.

Definition shift_3d (inputs : tensor) (step : Z) : res tensor :=
  '(B, C, H, W) <- shape4 inputs ;;
  temp <- zeros [Z.of_nat B; Z.of_nat C; Z.of_nat H;
                 (Z.of_nat W + (Z.of_nat C - 1) * step)%Z] ;;
  (* temp[:, :, :, :W] = inputs : [torch.zeros] is float32, the copy converts *)
  temp <- setitem [IAll; IAll; IAll; upto W] temp (tmap to_float32 inputs) ;;
  for_range C temp (fun i temp => roll_band (step * Z.of_nat i) i temp).

Definition shift_back_3d (inputs : tensor) (step : Z) : res tensor :=
  '(_, nC, _, _) <- shape4 inputs ;;
  for_range nC inputs (fun i inputs => roll_band (-1 * step * Z.of_nat i) i inputs).

(** ** Windowed local-global attention (lines 476-639) *)

Record attention_params : Type := mkAttention {
  dim : nat;
  num_heads : nat;
  num_tokens : nat;
  window_size : nat;
  qkv_weight : nat -> nat -> R;               (* self.qkv.weight *)
  qkv_bias : option (nat -> R);               (* self.qkv.bias, None without qkv_bias *)
  kv_global_weight : nat -> nat -> R;         (* self.kv_global.weight *)
  kv_global_bias : option (nat -> R);
  proj_weight : nat -> nat -> R;              (* self.proj.weight *)
  proj_bias : nat -> R;
  relative_position_bias_table : nat -> nat -> R   (* [(2*ws-1)**2, num_heads] *)
}.

Definition head_dim (a : attention_params) : nat := dim a / num_heads a.
Definition attn_area (a : attention_params) : nat := window_size a * window_size a.
(** [self.scale = head_dim ** -0.5]. *)
Definition scale (a : attention_params) : R := (/ sqrt (INR (head_dim a)))%R.

(** [get_relative_position_index(win_h, win_w)[i, j]], tokens numbered row
    by row: the offset of token [i] from token [j], rows first. *)
Definition get_relative_position_index (win_h win_w i j : nat) : Z :=
  ((Z.of_nat (i / win_w) - Z.of_nat (j / win_w) + (Z.of_nat win_h - 1))
   * (2 * Z.of_nat win_w - 1)
   + (Z.of_nat (i mod win_w) - Z.of_nat (j mod win_w) + (Z.of_nat win_w - 1)))%Z.

(** The buffer [relative_position_index]: the index table flattened. *)
Definition relative_position_index (a : attention_params) (n : nat) : nat :=
  let T := attn_area a in
  Z.to_nat (get_relative_position_index (window_size a) (window_size a) (n / T) (n mod T)).

Definition get_relative_positional_bias (a : attention_params) : res tensor :=
  let T := attn_area a in
  (* self.relative_position_bias_table[self.relative_position_index] *)
  let gathered :=
    mkT [T * T; num_heads a]
        (fun idx =>
           match idx with
           | [n; h] => relative_position_bias_table a (relative_position_index a n) h
           | _ => 0%R
           end) in
  b <- view_infer [Some T; Some T; None] gathered ;;
  b <- permute [2; 0; 1] b ;;
  unsqueeze 0 b.

(** [softmax((q @ k.transpose(-2, -1)) * scale [+ bias]) @ v] with the heads
    merged by [.transpose(1, 2).reshape(B, N, -1)]: the body shared by the
    three attention passes. *)
Definition attend (a : attention_params) (bias : option tensor) (q k v : tensor)
    (B N : nat) : res tensor :=
  kt <- permute [0; 1; 3; 2] k ;;
  attn <- matmul q kt ;;
  let attn := tmap (fun e => e * scale a)%R attn in
  attn <- match bias with
          | Some b => tadd attn b
          | None => Ok attn
          end ;;
  let attn := softmax attn in
  x <- matmul attn v ;;
  x <- permute [0; 2; 1; 3] x ;;
  view_infer [Some B; Some N; None] x.

Definition forward_global_aggregation (a : attention_params) (q k v : tensor) : res tensor :=
  '(B, _, N, _) <- shape4 q ;;
  attend a None q k v B N.

Definition forward_global_broadcast (a : attention_params) (q k v : tensor) : res tensor :=
  '(B, _, N, _) <- shape4 q ;;
  attend a None q k v B N.

(** [t.view(B, num_heads, h_group, ws, w_group, ws, -1)
      .permute(0, 2, 4, 1, 3, 5, 6).contiguous().view(-1, num_heads, ws*ws, C)]. *)
Definition window_partition (B heads h_group w_group ws C : nat) (t : tensor) : res tensor :=
  t <- view_infer [Some B; Some heads; Some h_group; Some ws; Some w_group; Some ws; None] t ;;
  t <- permute [0; 2; 4; 1; 3; 5; 6] t ;;
  view_infer [None; Some heads; Some (ws * ws); Some C] t.

Definition window_reverse (windows : tensor) (H W ws0 ws1 : nat) : res tensor :=
  (* B = int(windows.shape[0] / (H * W / window_size[0] / window_size[1])) *)
  n <- dim_size windows 0 ;;
  B <- (if (H * W =? 0) || (ws0 =? 0) || (ws1 =? 0) then Raise ZeroDivisionError
        else Ok (n * ws0 * ws1 / (H * W))) ;;
  output <- view_infer [Some B; Some (H / ws0); Some (W / ws1); Some ws0; Some ws1; None]
              windows ;;
  output <- permute [0; 1; 3; 2; 4; 5] output ;;
  view_infer [Some B; Some (H * W); None] output.

Definition forward_local (a : attention_params) (q k v : tensor) (H W : nat) : res tensor :=
  '(B, heads, N, C) <- shape4 q ;;
  let ws := window_size a in
  h_group <- (if ws =? 0 then Raise ZeroDivisionError else Ok (H / ws)) ;;
  let w_group := W / ws in
  q <- window_partition B heads h_group w_group ws C q ;;
  k <- window_partition B heads h_group w_group ws C k ;;
  Cv <- dim_size v 3 ;;
  v <- window_partition B heads h_group w_group ws Cv v ;;
  pos_bias <- get_relative_positional_bias a ;;
  n <- dim_size v 0 ;;
  x <- attend a (Some pos_bias) q k v n (ws * ws) ;;
  window_reverse x H W ws ws.

(** [t.view(...)[:, ..., :H, :W].reshape(B, ..., H*W, -1)]: the crop of the
    padded grid back to the original positions, [lead] being the axes
    before the grid ([B], or [B] and the heads). *)
Definition crop_grid (lead : list nat) (Hp Wp H W : nat) (t : tensor) : res tensor :=
  t <- view_infer (map Some lead ++ [Some Hp; Some Wp; None]) t ;;
  t <- getitem (map (fun _ => IAll) lead ++ [upto H; upto W]) t ;;
  view_infer (map Some lead ++ [Some (H * W); None]) t.

(** [qkv.view(B, -1, n, num_heads, C // num_heads).permute(2, 0, 3, 1, 4)],
    ready for [.unbind(0)]. *)
Definition split_heads (a : attention_params) (B n C : nat) (t : tensor) : res tensor :=
  t <- view_infer [Some B; None; Some n; Some (num_heads a); Some (C / num_heads a)] t ;;
  permute [2; 0; 3; 1; 4] t.

(** Lines 570-590 of [Attention.forward]: pad the grid, project, split the
    heads, and separate image tokens from global tokens.  The result is
    [(q_img, k_img, v_img, q_cls)] on the padded grid with [(B, C, Hp, Wp)]. *)
Definition padded_qkv (a : attention_params) (x : tensor) (H W : nat)
  : res (tensor * tensor * tensor * tensor * (nat * nat * nat * nat)) :=
  '(B, N, C) <- shape3 x ;;
  let NC := num_tokens a in
  (* pad *)
  x_img <- getitem [IAll; ISlice (Some (Z.of_nat NC)) None] x ;;
  x_global <- getitem [IAll; upto NC] x ;;
  x_img <- view [B; H; W; C] x_img ;;
  let ws := window_size a in
  pad_r <- (if ws =? 0 then Raise ZeroDivisionError else Ok ((ws - W mod ws) mod ws)) ;;
  let pad_b := (ws - H mod ws) mod ws in
  x_img <- pad_right_bottom pad_r pad_b x_img ;;
  Hp <- dim_size x_img 1 ;;
  Wp <- dim_size x_img 2 ;;
  x_img <- view_infer [Some B; None; Some C] x_img ;;
  x <- cat 1 x_global x_img ;;
  (* qkv *)
  qkv <- linear (dim a) (dim a * 3) (qkv_weight a) (qkv_bias a) x ;;
  qkv <- split_heads a B 3 C qkv ;;
  q <- getitem [IAt 0] qkv ;;
  k <- getitem [IAt 1] qkv ;;
  v <- getitem [IAt 2] qkv ;;
  (* split img tokens & global tokens *)
  q_img <- getitem [IAll; IAll; ISlice (Some (Z.of_nat NC)) None] q ;;
  k_img <- getitem [IAll; IAll; ISlice (Some (Z.of_nat NC)) None] k ;;
  v_img <- getitem [IAll; IAll; ISlice (Some (Z.of_nat NC)) None] v ;;
  q_cls <- getitem [IAll; IAll; upto NC] q ;;
  Ok (q_img, k_img, v_img, q_cls, (B, C, Hp, Wp)).

(** Lines 592-609, with the local window pass [local] as a parameter. *)
Definition Attention_forward_with
    (local : attention_params -> tensor -> tensor -> tensor -> nat -> nat -> res tensor)
    (a : attention_params) (x : tensor) (H W : nat) : res tensor :=
  '(q_img, k_img, v_img, q_cls, (B, C, Hp, Wp)) <- padded_qkv a x H W ;;
  (* local window attention, restored to the original size *)
  x_img <- local a q_img k_img v_img Hp Wp ;;
  x_img <- crop_grid [B] Hp Wp H W x_img ;;
  q_img <- crop_grid [B; num_heads a] Hp Wp H W q_img ;;
  k_img <- crop_grid [B; num_heads a] Hp Wp H W k_img ;;
  v_img <- crop_grid [B; num_heads a] Hp Wp H W v_img ;;
  (* global aggregation *)
  x_cls <- forward_global_aggregation a q_cls k_img v_img ;;
  kv <- linear (dim a) (dim a * 2) (kv_global_weight a) (kv_global_bias a) x_cls ;;
  kv <- split_heads a B 2 C kv ;;
  k_cls <- getitem [IAt 0] kv ;;
  v_cls <- getitem [IAt 1] kv ;;
  (* global broadcast *)
  bc <- forward_global_broadcast a q_img k_cls v_cls ;;
  x_img <- tadd x_img bc ;;
  x <- cat 1 x_cls x_img ;;
  linear (dim a) (dim a) (proj_weight a) (Some (proj_bias a)) x.

(** [Attention.forward]. *)
Definition Attention_forward (a : attention_params) (x : tensor) (H W : nat) : res tensor :=
  Attention_forward_with forward_local a x H W.

(** [SGLB.forward] (lines 464-473); [global_token] is the learned
    parameter of shape [1, num_tokens, dim]. *)
Definition SGLB_forward (a : attention_params) (global_token : tensor) (x : tensor)
  : res tensor :=
  '(B, C, H, W) <- shape4 x ;;
  (* x = x.flatten(2).transpose(1, 2) *)
  x <- view [B; C; H * W] x ;;
  x <- permute [0; 2; 1] x ;;
  (* global_token = self.global_token.expand(x.shape[0], -1, -1) *)
  '(g0, _, _) <- shape3 global_token ;;
  global_token <- (if g0 =? 1 then repeat_ [B; 1; 1] global_token else Raise RuntimeError) ;;
  x <- cat 1 global_token x ;;
  x <- Attention_forward a x H W ;;
  (* x = x[:, -H*W:] *)
  x <- getitem [IAll; ISlice (Some (- Z.of_nat (H * W))%Z) None] x ;;
  (* out = x.view(-1, H, W, self.dim).permute(0, 3, 1, 2).contiguous() *)
  x <- view_infer [None; Some H; Some W; Some (dim a)] x ;;
  permute [0; 3; 1; 2] x.

(** *** The attention the spec asks for when the grid is padded *)

(** Modelled on the spec's sentence "padded positions must never leak into
    the cropped output": a softmax in which the tokens with [mask = 0] take
    no part, neither in the normalisation nor in the weights. *)
Definition softmax_masked (mask t : tensor) : tensor :=
  mkT (shape t)
      (fun idx =>
         match idx with
         | [w; h; i; j] =>
             let n := last (shape t) 0 in
             (val mask [w; h; j; 0%nat] * exp (val t idx)
              / sum_n n (fun l => val mask [w; h; l; 0%nat] * exp (val t [w; h; i; l])))%R
         | _ => 0%R
         end).

Definition attend_masked (a : attention_params) (bias mask q k v : tensor) (B N : nat)
  : res tensor :=
  kt <- permute [0; 1; 3; 2] k ;;
  attn <- matmul q kt ;;
  let attn := tmap (fun e => e * scale a)%R attn in
  attn <- tadd attn bias ;;
  let attn := softmax_masked mask attn in
  x <- matmul attn v ;;
  x <- permute [0; 2; 1; 3] x ;;
  view_infer [Some B; Some N; None] x.

(** The indicator of the original [H x W] positions on the padded grid,
    laid out like the image tokens: [B, heads, Hp*Wp, 1]. *)
Definition pad_mask (B heads Hp Wp H W : nat) : tensor :=
  mkT [B; heads; Hp * Wp; 1]
      (fun idx =>
         match idx with
         | [_; _; n; _] => if (n / Wp <? H) && (n mod Wp <? W) then 1%R else 0%R
         | _ => 0%R
         end).

(** [forward_local] with the padded tokens left out of the attention. *)
Definition forward_local_unpadded (H0 W0 : nat) (a : attention_params) (q k v : tensor)
    (H W : nat) : res tensor :=
  '(B, heads, N, C) <- shape4 q ;;
  let ws := window_size a in
  h_group <- (if ws =? 0 then Raise ZeroDivisionError else Ok (H / ws)) ;;
  let w_group := W / ws in
  mask <- window_partition B heads h_group w_group ws 1 (pad_mask B heads H W H0 W0) ;;
  q <- window_partition B heads h_group w_group ws C q ;;
  k <- window_partition B heads h_group w_group ws C k ;;
  Cv <- dim_size v 3 ;;
  v <- window_partition B heads h_group w_group ws Cv v ;;
  pos_bias <- get_relative_positional_bias a ;;
  n <- dim_size v 0 ;;
  x <- attend_masked a pos_bias mask q k v n (ws * ws) ;;
  window_reverse x H W ws ws.

(** [Attention.forward] with the padded tokens left out of the local pass. *)
Definition Attention_forward_unpadded (a : attention_params) (x : tensor) (H W : nat)
  : res tensor :=
  Attention_forward_with (forward_local_unpadded H W) a x H W.

(** C7's reference: scaled dot-product attention over all tokens at once,
    with the relative-position bias of the window. *)
Definition full_attention (a : attention_params) (q k v : tensor) : res tensor :=
  '(B, _, N, _) <- shape4 q ;;
  pos_bias <- get_relative_positional_bias a ;;
  attend a (Some pos_bias) q k v B N.

(** ** Configuration (the fields of [cfg] read by the model) *)

Record config : Type := mkConfig {
  STAGE : nat;                (* cfg.MODEL.DENOISER.CAUN.STAGE *)
  SHARE_PARAMS : bool;        (* cfg.MODEL.DENOISER.CAUN.SHARE_PARAMS *)
  WITH_DL : bool;             (* cfg.MODEL.DENOISER.CAUN.WITH_DL *)
  WITH_MU : bool;             (* cfg.MODEL.DENOISER.CAUN.WITH_MU *)
  WITH_NOISE_LEVEL : bool;    (* cfg.MODEL.DENOISER.CAUN.WITH_NOISE_LEVEL *)
  NON_LOCAL : bool;           (* cfg.MODEL.DENOISER.CAUN.NON_LOCAL *)
  IN_DIM : nat;               (* cfg.MODEL.DENOISER.CAUN.IN_DIM *)
  OUT_DIM : nat;              (* cfg.MODEL.DENOISER.CAUN.OUT_DIM *)
  WAVE_LENS : nat;            (* cfg.DATASETS.WAVE_LENS *)
  STEP : Z                    (* cfg.DATASETS.STEP *)
}.

(** ** The store of tensor objects *)

(** A Python variable holds a reference to a tensor object.  The store maps
    references to the current contents of the objects; an in-place operation
    overwrites a cell, an ordinary operation allocates a new one. *)
Definition ref : Type := nat.

(** What a run records of its stages: the arguments of each DADN call, the
    operands and result of each data-consistency step, and each momentum
    update.  No operation reads the trace. *)
Inductive event : Type :=
| EvDADN (i : nat) (z phi : tensor)
| EvGrad (i : nat) (z z_hat Phi mu Phi_s y x : tensor)
| EvMomentum (i : nat) (z_new z_old z_hat : tensor).

Record store : Type := mkStore { heap : list tensor; trace : list event }.

Inductive outcome (A : Type) : Type :=
| Done (a : A) (s : store)
| Fail (e : error) (s : store).
Arguments Done {A} a s.
Arguments Fail {A} e s.

Definition M (A : Type) : Type := store -> outcome A.

Definition final_store {A : Type} (o : outcome A) : store :=
  match o with
  | Done _ s => s
  | Fail _ s => s
  end.

Definition ret {A : Type} (a : A) : M A := fun s => Done a s.

Definition mbind {A B : Type} (m : M A) (k : A -> M B) : M B :=
  fun s => match m s with
           | Done a s' => k a s'
           | Fail e s' => Fail e s'
           end.

Notation "x <~ m ;; k" := (mbind m (fun x => k))
  (at level 61, m at next level, right associativity).
Notation "' p <~ m ;; k" := (mbind m (fun x => match x with p => k end))
  (at level 61, p pattern, m at next level, right associativity).

Definition lift {A : Type} (r : res A) : M A :=
  fun s => match r with
           | Ok a => Done a s
           | Raise e => Fail e s
           end.

Definition alloc (v : tensor) : M ref :=
  fun s => Done (length (heap s)) (mkStore (heap s ++ [v]) (trace s)).

(** Dereferencing; a reference outside the store has no Python counterpart
    and is reported as a [RuntimeError]. *)
Definition read (l : ref) : M tensor :=
  fun s => match nth_error (heap s) l with
           | Some v => Done v s
           | None => Fail RuntimeError s
           end.

Definition write (l : ref) (v : tensor) : M unit :=
  fun s => if l <? length (heap s)
           then Done tt (mkStore (upd_nth l v (heap s)) (trace s))
           else Fail RuntimeError s.

Definition emit (e : event) : M unit :=
  fun s => Done tt (mkStore (heap s) (trace s ++ [e])).

(** The result of an operation that returns a new tensor. *)
Definition fresh (r : res tensor) : M ref := v <~ lift r ;; alloc v.

(** An operation that overwrites the tensor it is given. *)
Definition inplace (l : ref) (f : tensor -> res tensor) : M ref :=
  v <~ read l ;; v' <~ lift (f v) ;; _ <~ write l v' ;; ret l.

(** [for i in range(n)] in the store monad. *)
Fixpoint mfor {S : Type} (n : nat) (s : S) (body : nat -> S -> M S) : M S :=
  match n with
  | 0 => ret s
  | S k => s' <~ mfor k s body ;; body k s'
  end.

(** [l[-k]] for a Python list [l], [k >= 1]. *)
Definition neg_index {A : Type} (l : list A) (k : nat) : res A :=
  match nth_error (rev l) (k - 1) with
  | Some a => Ok a
  | None => Raise IndexError
  end.

(** ** Normalisation and the Local-NonLocal block (lines 121-230) *)

(** ['BiasFree'], ['WithBias'], or anything else ([nn.LayerNorm]). *)
Inductive layernorm_type : Type := BiasFree | WithBias | TorchLayerNorm.

Record norm_params : Type := mkNorm {
  norm_type : layernorm_type;
  norm_dim : nat;
  norm_weight : nat -> R;
  norm_bias : nat -> R
}.

(** Mean and (biased) variance over the channel axis at one pixel. *)
Definition channel_mean (t : tensor) (C b h w : nat) : R :=
  (sum_n C (fun c => val t [b; c; h; w]) / INR C)%R.

Definition channel_var (t : tensor) (C b h w : nat) : R :=
  (sum_n C (fun c => (val t [b; c; h; w] - channel_mean t C b h w) ^ 2) / INR C)%R.

(** [to_4d(self.body(to_3d(x)), h, w)]: normalisation over the channels of
    each pixel, with [eps = 1e-5]. *)
Definition LayerNorm_forward (n : norm_params) (x : tensor) : res tensor :=
  '(B, C, H, W) <- shape4 x ;;
  if C =? norm_dim n then
    Ok (mkT [B; C; H; W]
            (fun idx =>
               match idx with
               | [b; c; h; w] =>
                   let mu := channel_mean x C b h w in
                   let sigma := channel_var x C b h w in
                   match norm_type n with
                   | BiasFree =>
                       (val x idx / sqrt (sigma + 1 / 100000) * norm_weight n c)%R
                   | _ =>
                       ((val x idx - mu) / sqrt (sigma + 1 / 100000) * norm_weight n c
                        + norm_bias n c)%R
                   end
               | _ => 0%R
               end))
  else Raise RuntimeError.

(** [PreNorm.forward]. *)
Definition PreNorm_forward (n : norm_params) (fn : tensor -> res tensor) (x : tensor)
  : res tensor :=
  x <- LayerNorm_forward n x ;;
  fn x.

(** [nn.Identity()]. *)
Definition Identity (x : tensor) : res tensor := Ok x.

(** One entry of [self.blocks]: the parameters of the attention module and
    the feed-forward module ([FFN_FN(...)], kept as a function). *)
Record sub_block : Type := mkSub {
  attn_norm : norm_params;
  attn_params : attention_params;
  global_token : tensor;
  ffn_norm : norm_params;
  ffn_fn : tensor -> res tensor
}.

(** The first module of a pair, as [__init__] builds it:
    [PreNorm(dim, SGLB(...))] if [NON_LOCAL] else [nn.Identity()]. *)
Definition attention_module (non_local : bool) (blk : sub_block) : tensor -> res tensor :=
  if non_local
  then PreNorm_forward (attn_norm blk) (SGLB_forward (attn_params blk) (global_token blk))
  else Identity.

Definition ffn_module (blk : sub_block) : tensor -> res tensor :=
  PreNorm_forward (ffn_norm blk) (ffn_fn blk).

(** The statement [x = x + Attention(x)]. *)
Definition attention_step (non_local : bool) (blk : sub_block) (x : tensor) : res tensor :=
  a <- attention_module non_local blk x ;;
  tadd x a.

(** [LocalNonLocalBlock.forward]. *)
Fixpoint LocalNonLocalBlock_forward (non_local : bool) (blocks : list sub_block)
    (x : tensor) : res tensor :=
  match blocks with
  | [] => Ok x
  | blk :: rest =>
      x <- attention_step non_local blk x ;;
      f <- ffn_module blk x ;;
      x <- tadd x f ;;
      LocalNonLocalBlock_forward non_local rest x
  end.

(** ** Learned layers *)

(** A convolution stack that maps [b, cin, h, w] to [b, cout, h, w] (every
    kernel is 1x1, or 3x3 with stride 1 and padding 1); [f] gives the entries
    of the output.  A wrong channel count or an empty plane is refused. *)
Definition conv_stack (cin cout : nat) (f : tensor -> list nat -> R) (t : tensor) : res tensor :=
  match shape t with
  | [b; c; h; w] =>
      if (c =? cin) && (1 <=? h) && (1 <=? w)
      then Ok (mkT [b; cout; h; w] (f t))
      else Raise RuntimeError
  | _ => Raise RuntimeError
  end.

(** [nn.Conv2d(cin, cout, 1, padding=0, bias=True)]. *)
Definition conv1x1 (cin cout : nat) (wt : nat -> nat -> R) (bias : nat -> R) : tensor -> res tensor :=
  conv_stack cin cout
    (fun t idx =>
       match idx with
       | [n; o; i; j] => (sum_n cin (fun k => wt o k * val t [n; k; i; j]) + bias o)%R
       | _ => 0%R
       end).

(** [nn.ReLU]. *)
Definition relu (v : R) : R := Rmax 0 v.

(** [nn.Softplus()] with its defaults [beta=1], [threshold=20]. *)
Definition softplus (v : R) : R :=
  if Rlt_dec 20 v then v else ln (1 + exp v).

Definition eps : R := (1 / 1000000)%R.   (* 1e-6 *)

Section Controller.

Variable cfg : config.

(** [CAUN.fusion]: weight [out][in] and bias of the 1x1 convolution. *)
Variable fusion_weight : nat -> nat -> R.
Variable fusion_bias : nat -> R.
(** [DADN.DL] of instance [k]: the two [PWDWPWConv] blocks. *)
Variable DL : nat -> tensor -> list nat -> R.
(** [DADN.down_sample], [avg_pool] and [mlp] up to its final Softplus, of
    instance [k]. *)
Variable head : nat -> tensor -> list nat -> R.
(** [LNLT] of instance [k]. *)
Variable LNLT_net : nat -> tensor -> list nat -> R.

(** [self.DP[i]] when the parameters are per stage, [self.DP] otherwise. *)
Definition instance (i : nat) : nat := if SHARE_PARAMS cfg then 0 else i.

(** *** DADN.forward (lines 441-454) *)

Definition DADN_head (k : nat) (t : tensor) : res tensor :=
  match shape t with
  | [b; c; h; w] =>
      if (c =? WAVE_LENS cfg) && (1 <=? h) && (1 <=? w)
      then Ok (mkT [b; 2; 1; 1] (head k t))
      else Raise RuntimeError
  | _ => Raise RuntimeError
  end.

Definition DADN_forward (k : nat) (y phi : ref) : M (ref * ref * ref) :=
  (* inp = torch.cat([phi, y], dim=1); phi_r = self.DL(inp) *)
  phi_r <~ (pv <~ read phi ;; yv <~ read y ;;
            fresh (inp <- cat 1 pv yv ;;
                   conv_stack (WAVE_LENS cfg * 2) (WAVE_LENS cfg) (DL k) inp)) ;;
  (* phi = phi + phi_r : the local name is bound to a new tensor *)
  phi' <~ (pv <~ read phi ;; rv <~ read phi_r ;; fresh (tadd pv rv)) ;;
  (* x = self.down_sample(self.relu(phi_r)), the ReLU being in place *)
  _ <~ inplace phi_r (fun v => Ok (tmap relu v)) ;;
  (* x = self.avg_pool(x); x = self.mlp(x) + 1e-6 *)
  x <~ (rv <~ read phi_r ;;
        fresh (h <- DADN_head k rv ;; Ok (tmap (fun v => (softplus v + eps)%R) h))) ;;
  mu <~ (xv <~ read x ;; fresh (getitem [IAll; IAt 0; IAll; IAll] xv)) ;;
  noise_level <~ (xv <~ read x ;;
                  fresh (n <- getitem [IAll; IAt 1; IAll; IAll] xv ;; unsqueeze 1 n)) ;;
  ret (phi', mu, noise_level).

(** *** LNLT.forward (lines 348-381), as far as shapes go

    The layers of the U-shaped network are the parameter [LNLT_net]; what is
    written out is the reflect padding of lines 350-353, the channel count
    the embedding convolution wants, and the residual sum of lines 375-378.
    The contract is that of a network built from a well-formed configuration
    and run on a batch that is not empty. *)

Definition LNLT_forward (k : nat) (t : tensor) : res tensor :=
  match shape t with
  | [b; c; h; w] =>
      let pad_h := (16 - h mod 16) mod 16 in
      let pad_w := (16 - w mod 16) mod 16 in
      (* reflect padding wants a pad smaller than the axis; the embedding
         convolution wants IN_DIM channels *)
      if (pad_h <? h) && (pad_w <? w) && (c =? IN_DIM cfg) then
        (* out = self.mapping(dec_res1) + x   (or + x[:, 1:, :, :]) *)
        match broadcast_shapes [OUT_DIM cfg; 1; 1]
                [if WITH_NOISE_LEVEL cfg then c - 1 else c; 1; 1] with
        | Some [co; _; _] => Ok (mkT [b; co; h; w] (LNLT_net k t))
        | _ => Raise RuntimeError
        end
      else Raise RuntimeError
  | _ => Raise RuntimeError
  end.

(** *** CAUN.initial (lines 671-680) *)

Definition initial (y Phi : ref) : M ref :=
  Pv <~ read Phi ;;
  '(bs, nC, row, col) <~ lift (shape4 Pv) ;;
  y_shift <~ fresh (zeros [Z.of_nat bs; Z.of_nat nC; Z.of_nat row; Z.of_nat col]) ;;
  _ <~ mfor nC y_shift (fun i y_shift =>
         let lo := (STEP cfg * Z.of_nat i)%Z in
         let hi := (STEP cfg * Z.of_nat i + Z.of_nat col
                    - (Z.of_nat nC - 1) * STEP cfg)%Z in
         yv <~ read y ;;
         inplace y_shift (fun ys =>
           v <- getitem [IAll; IAll; ISlice (Some lo) (Some hi)] yv ;;
           setitem [IAll; IAt i; IAll; ISlice (Some lo) (Some hi)] ys v)) ;;
  ysv <~ read y_shift ;;
  Pv <~ read Phi ;;
  fresh (c <- cat 1 ysv Pv ;;
         conv1x1 (WAVE_LENS cfg * 2) (WAVE_LENS cfg) fusion_weight fusion_bias c).

(** *** CAUN.forward_test (lines 738-781) *)

(** The dictionary [data]: references to the measurement, the mask and the
    cube that gives the output width. *)
Record data : Type := mkData { data_Y : ref; data_mask : ref; data_H : ref }.

(** The variables that live across iterations of the loop. *)
Record loop_state : Type := mkLoop { z : ref; z_hat : ref; z_list : list ref }.

(** In-place [shift_back_3d]: the argument is overwritten and returned. *)
Definition shift_back_3d_ref (l : ref) (step : Z) : M ref :=
  inplace l (fun v => shift_back_3d v step).

(** [shift_3d] returns the buffer [temp] it allocates. *)
Definition shift_3d_ref (l : ref) (step : Z) : M ref :=
  v <~ read l ;; fresh (shift_3d v step).

(** Lines 755-760: the degradation-aware parameters of stage [i]. *)
Definition stage_params (phi : ref) (i : nat) (st : loop_state) : M (ref * ref * ref) :=
  (* Phi, mu, noise_level = self.DP[i](z, phi) *)
  _ <~ (zv <~ read (z st) ;; pv <~ read phi ;; emit (EvDADN i zv pv)) ;;
  '(Phi, mu, noise_level) <~ DADN_forward (instance i) (z st) phi ;;
  (* if not WITH_DL: Phi = phi *)
  let Phi := if WITH_DL cfg then Phi else phi in
  (* if not WITH_MU: mu = torch.FloatTensor([1e-6]) *)
  mu <~ (if WITH_MU cfg then ret mu else alloc (full [1] eps)) ;;
  ret (Phi, mu, noise_level).

(** Lines 762-765: the data-consistency step. *)
Definition stage_gradient (y Phi mu : ref) (i : nat) (st : loop_state) : M ref :=
  (* Phi_s = torch.sum(Phi**2, 1) *)
  Phi_s <~ (Pv <~ read Phi ;; fresh (sum_dim 1 (tmap (fun v => v ^ 2)%R Pv))) ;;
  (* Phi_s[Phi_s==0] = 1 *)
  _ <~ inplace Phi_s (fun v => Ok (tmap (fun e => if Req_dec_T e 0 then 1%R else e) v)) ;;
  (* Phi_z = A(z_hat, Phi) *)
  Phi_z <~ (zh <~ read (z_hat st) ;; Pv <~ read Phi ;; fresh (A zh Pv)) ;;
  (* x = z + At(torch.div(y-Phi_z, mu+Phi_s), Phi) *)
  zv <~ read (z st) ;; yv <~ read y ;; Pzv <~ read Phi_z ;;
  mv <~ read mu ;; Psv <~ read Phi_s ;; Pv <~ read Phi ;;
  xv <~ lift (num <- tsub yv Pzv ;;
              den <- tadd mv Psv ;;
              q <- tdiv num den ;;
              a <- At q Pv ;;
              tadd zv a) ;;
  zh <~ read (z_hat st) ;;
  _ <~ emit (EvGrad i zv zh Pv mv Psv yv xv) ;;
  alloc xv.

(** Lines 766-772: unshift, crop, denoise, shift. *)
Definition stage_prior (x noise_level : ref) (W_ : nat) (i : nat) : M ref :=
  (* x = shift_back_3d(x)[:, :, :, :W_] *)
  x <~ shift_back_3d_ref x 2 ;;
  xv <~ (v <~ read x ;; lift (getitem [IAll; IAll; IAll; upto W_] v)) ;;
  (* noise_level_repeat = noise_level.repeat(1,1,x.shape[2], x.shape[3]) *)
  nlr <~ (nv <~ read noise_level ;;
          h <~ lift (dim_size xv 2) ;; w <~ lift (dim_size xv 3) ;;
          lift (repeat_ [1; 1; h; w] nv)) ;;
  (* z = self.PP[i](x)  or  self.PP[i](torch.cat([noise_level_repeat, x], dim=1)) *)
  z1 <~ (if negb (WITH_NOISE_LEVEL cfg)
         then fresh (LNLT_forward (instance i) xv)
         else fresh (c <- cat 1 nlr xv ;; LNLT_forward (instance i) c)) ;;
  (* z = shift_3d(z) *)
  shift_3d_ref z1 2.

(** Lines 773-774: [z_list.append(z)] and the momentum point. *)
Definition stage_momentum (beta z2 : ref) (i : nat) (st : loop_state) : M loop_state :=
  let zl := z_list st ++ [z2] in
  (* z_hat = z + beta[i]*(z_list[-1]-z_list[-2]) *)
  zv <~ read z2 ;;
  bv <~ read beta ;; bi <~ lift (getitem [IAt i] bv) ;;
  l1 <~ lift (neg_index zl 1) ;; a <~ read l1 ;;
  l2 <~ lift (neg_index zl 2) ;; b <~ read l2 ;;
  r <~ lift (d <- tsub a b ;; m <- tmul bi d ;; tadd zv m) ;;
  _ <~ emit (EvMomentum i a b r) ;;
  zh <~ alloc r ;;
  ret (mkLoop z2 zh zl).

(** One iteration of the loop, lines 755-774. *)
Definition stage (y phi beta : ref) (W_ : nat) (i : nat) (st : loop_state) : M loop_state :=
  '(Phi, mu, noise_level) <~ stage_params phi i st ;;
  x <~ stage_gradient y Phi mu i st ;;
  z2 <~ stage_prior x noise_level W_ i ;;
  stage_momentum beta z2 i st.

Definition forward_test (d : data) : M tensor :=
  let y := data_Y d in
  let phi := data_mask d in
  let x0 := data_H d in
  z0 <~ initial y phi ;;
  '(_, _, _, W) <~ (pv <~ read phi ;; lift (shape4 pv)) ;;
  '(_, _, _, W_) <~ (xv <~ read x0 ;; lift (shape4 xv)) ;;
  (* z_hat = z; z_list = [z]; beta = 0.5 * torch.ones((W, 1)) *)
  beta <~ alloc (full [W; 1] (1 / 2)%R) ;;
  st <~ mfor (STAGE cfg) (mkLoop z0 z0 [z0]) (stage y phi beta W_) ;;
  (* z = shift_back_3d(z)[:, :, :, :W_]; out = z[:, :, :, :W_] *)
  zr <~ shift_back_3d_ref (z st) 2 ;;
  zv <~ read zr ;;
  zc <~ lift (getitem [IAll; IAll; IAll; upto W_] zv) ;;
  lift (getitem [IAll; IAll; IAll; upto W_] zc).

(** *** What the trace of a run is checked against *)

(** The mask a stage works with, as DADN.forward computes it from the
    estimate [zv] and the mask [pv]: [phi + self.DL(torch.cat([phi, y], 1))]. *)
Definition dadn_refine (k : nat) (zv pv : tensor) : res tensor :=
  inp <- cat 1 pv zv ;;
  phi_r <- conv_stack (WAVE_LENS cfg * 2) (WAVE_LENS cfg) (DL k) inp ;;
  tadd pv phi_r.

(** The mask stage [i] computes with: refined from the input mask, or the
    input mask itself when refinement is switched off. *)
Definition stage_mask (i : nat) (zv phi0 : tensor) : res tensor :=
  if WITH_DL cfg then dadn_refine (instance i) zv phi0 else Ok phi0.

(** [Phi_s]: the band sum of the squared mask, exact zeros replaced by 1. *)
Definition band_energy (Pv : tensor) : res tensor :=
  e <- sum_dim 1 (tmap (fun v => v ^ 2)%R Pv) ;;
  Ok (tmap (fun e => if Req_dec_T e 0 then 1%R else e) e).

(** [z + At((y - A(z_hat, Phi)) / (mu + Phi_s), Phi)]. *)
Definition data_consistency (zv zh Pv mv Psv yv : tensor) : res tensor :=
  Pz <- A zh Pv ;;
  num <- tsub yv Pz ;;
  den <- tadd mv Psv ;;
  q <- tdiv num den ;;
  a <- At q Pv ;;
  tadd zv a.

(** [z_new + 0.5 * (z_new - z_old)]. *)
Definition momentum (z_new z_old : tensor) : res tensor :=
  d <- tsub z_new z_old ;;
  m <- tmul (full [1] (1 / 2)%R) d ;;
  tadd z_new m.

(** What holds of every event of a run whose mask object holds [phi0] and
    whose measurement object holds [y0] at the start. *)
Definition event_ok (phi0 y0 : tensor) (ev : event) : Prop :=
  match ev with
  | EvDADN i zv pv => pv = phi0
  | EvGrad i zv zh Pv mv Psv yv xv =>
      (i = 0 -> zh = zv) /\
      yv = y0 /\
      stage_mask i zv phi0 = Ok Pv /\
      (forall idx, (0 < val mv idx)%R) /\
      band_energy Pv = Ok Psv /\
      data_consistency zv zh Pv mv Psv yv = Ok xv
  | EvMomentum i z_new z_old zh => momentum z_new z_old = Ok zh
  end.

End Controller.

(** ** Stores: cells and frames *)

Definition cell (s : store) (l : ref) (v : tensor) : Prop :=
  nth_error (heap s) l = Some v.

(** From [s] to [s'] the store only grew, and no object below [n] changed. *)
Definition unchanged_below (n : nat) (s s' : store) : Prop :=
  length (heap s) <= length (heap s') /\
  forall l, l < n -> nth_error (heap s') l = nth_error (heap s) l.

(** Running the reconstruction from a store that holds the given objects. *)
Definition run_forward_test cfg fw fb DL head net (h : list tensor) (d : data)
  : outcome tensor :=
  forward_test cfg fw fb DL head net d (mkStore h []).


(** [wp m s Q]: the outcome of running [m] from [s] satisfies [Q]. *)
Definition wp {A : Type} (m : M A) (s : store) (Q : outcome A -> Prop) : Prop :=
  Q (m s).

(** Every object of [s] other than [l] is the same in [s']. *)
Definition only_changed (l : ref) (s s' : store) : Prop :=
  length (heap s') = length (heap s) /\
  forall l', l' <> l -> nth_error (heap s') l' = nth_error (heap s) l'.

(** Where a run started in [s0] stands in [s]: no object below [n] has
    changed, and the events recorded since all satisfy [good]. *)
Definition reach (n : nat) (good : event -> Prop) (s0 s : store) : Prop :=
  n <= length (heap s0) /\
  unchanged_below n s0 s /\
  exists evs, trace s = trace s0 ++ evs /\ Forall good evs.

(** The contract of a block of the controller run from [s0]: [reach] holds
    of the store it ends in, and [P] of its result when it returns. *)
Definition block_post {A : Type} (n : nat) (good : event -> Prop) (s0 : store)
    (P : A -> store -> Prop) (o : outcome A) : Prop :=
  reach n good s0 (final_store o) /\
  match o with
  | Done a s' => P a s'
  | Fail _ _ => True
  end.

(** What holds of the loop variables before iteration [i]: [z] and [z_hat]
    refer to objects allocated by the run (at or above [n0]), [z_list] ends
    in [z], [beta] holds [0.5 * ones((W, 1))], and [z_hat] is [z] itself
    before the first iteration. *)
Definition loop_inv (n0 : nat) (beta : ref) (W : nat) (i : nat)
    (st : loop_state) (s : store) : Prop :=
  (exists zv, cell s (z st) zv) /\
  (exists zh, cell s (z_hat st) zh) /\
  cell s beta (full [W; 1] (1 / 2)%R) /\
  neg_index (z_list st) 1 = Ok (z st) /\
  n0 <= z st /\
  (i = 0 -> z_hat st = z st).

(** ** Statements about the events of a run *)

(** C8: the DADN call of a stage receives the input mask, and the mask the
    stage computes with is obtained from the input mask and the current
    estimate alone. *)
Definition mask_is_local (cfg : config) (DL : nat -> tensor -> list nat -> R)
    (phi0 : tensor) (ev : event) : Prop :=
  match ev with
  | EvDADN _ _ pv => pv = phi0
  | EvGrad i zv _ Pv _ _ _ _ => stage_mask cfg DL i zv phi0 = Ok Pv
  | EvMomentum _ _ _ _ => True
  end.

(** Entry [b, h, w] of [Phi_s] as the spec words it. *)
Definition band_energy_entry (Pv : tensor) (C b h w : nat) : R :=
  let e := sum_n C (fun c => (val Pv [b; c; h; w] ^ 2)%R) in
  if Req_dec_T e 0 then 1%R else e.

(** The step size of batch element [b]: [mu] is [B, 1, 1] when it comes
    from DADN, and the one-element [FloatTensor([1e-6])] when WITH_MU is
    off. *)
Definition step_size (mv : tensor) (b : nat) : R :=
  match shape mv with
  | [_] => val mv [0]
  | _ => val mv [b; 0; 0]
  end.

(** Entry [b, c, h, w] of [z + At((y - A(z_hat, Phi)) / (mu + Phi_s), Phi)]
    as the spec words it, [mu_b] being the step size of batch element [b]. *)
Definition data_consistency_entry (zv zh Pv yv : tensor) (mu_b : R) (C b c h w : nat) : R :=
  (val zv [b; c; h; w]
   + (val yv [b; h; w]
      - sum_n C (fun k => val zh [b; k; h; w] * val Pv [b; k; h; w]))
     / (mu_b + band_energy_entry Pv C b h w)
     * val Pv [b; c; h; w])%R.

(** C2: the operands of a data-consistency step of a run are the input
    measurement, the mask of the stage and a positive step size, and
    [z_hat] is [z] in the first stage. *)
Definition gradient_operands_ok (cfg : config) (DL : nat -> tensor -> list nat -> R)
    (phi0 y0 : tensor) (ev : event) : Prop :=
  match ev with
  | EvGrad i zv zh Pv mv _ yv _ =>
      yv = y0 /\
      stage_mask cfg DL i zv phi0 = Ok Pv /\
      (forall idx, (0 < val mv idx)%R) /\
      (i = 0 -> zh = zv)
  | _ => True
  end.

(** ** Concrete layers and inputs *)

(** Layers whose last, bias-free convolution has zero weights. *)
Definition zero_weight : nat -> nat -> R := fun _ _ => 0%R.
Definition zero_bias : nat -> R := fun _ => 0%R.
Definition zero_layers : nat -> tensor -> list nat -> R := fun _ _ _ => 0%R.
(** LNLT with a zero [mapping]: the residual connection returns the input. *)
Definition LNLT_residual : nat -> tensor -> list nat -> R := fun _ t idx => val t idx.

(** Two bands, step 2, a 16x16 scene: mask and shifted estimate are 16x18. *)
Definition demo_cfg (stages : nat) : config :=
  mkConfig stages false true true false true 2 2 2 2.

Definition demo_heap (mask_value : R) : list tensor :=
  [ full [1; 16; 18] 1%R;          (* data['Y'] *)
    full [1; 2; 16; 18] mask_value; (* data['mask'] *)
    full [1; 2; 16; 16] 0%R ].      (* data['H'] *)

Definition demo_data : data := mkData 0 1 2.

Definition demo_run (stages : nat) (mask_value : R) : outcome tensor :=
  run_forward_test (demo_cfg stages) zero_weight zero_bias zero_layers zero_layers
    LNLT_residual (demo_heap mask_value) demo_data.

(** Stores for one step of a stage: two bands of one row of three pixels. *)
Definition demo_stage_store : store :=
  mkStore [ full [1; 2; 1; 3] 1%R;   (* z, and z_hat *)
            full [1; 1; 3] 1%R;      (* y *)
            full [1; 2; 1; 3] 1%R;   (* Phi *)
            full [1] eps ]           (* mu *)
          [].

Definition demo_zero_mask_store : store :=
  mkStore [ full [1; 2; 1; 3] 1%R;   (* z, and z_hat *)
            full [1; 1; 3] 1%R;      (* y *)
            full [1; 2; 1; 3] 0%R;   (* Phi *)
            full [1; 1; 1] 1%R ]     (* mu *)
          [].

Definition demo_momentum_store : store :=
  mkStore [ full [1; 2; 1; 3] 3%R;      (* the new estimate *)
            full [1; 2; 1; 3] 1%R;      (* the previous one *)
            full [3; 1] (1 / 2)%R ]     (* beta *)
          [].

Definition outcome_error {A : Type} (o : outcome A) : option error :=
  match o with
  | Done _ _ => None
  | Fail e _ => Some e
  end.

(** The kind and the stage of an event. *)
Inductive tag : Type := TDADN | TGrad | TMomentum.

Definition event_tag (ev : event) : tag * nat :=
  match ev with
  | EvDADN i _ _ => (TDADN, i)
  | EvGrad i _ _ _ _ _ _ _ => (TGrad, i)
  | EvMomentum i _ _ _ => (TMomentum, i)
  end.

(** The demo run with a measurement of another spatial extent than the mask. *)
Definition demo_run_measurement (stages : nat) (y_shape : list nat) : outcome tensor :=
  run_forward_test (demo_cfg stages) zero_weight zero_bias zero_layers zero_layers
    LNLT_residual
    [ full y_shape 1%R; full [1; 2; 16; 18] 1%R; full [1; 2; 16; 16] 0%R ]
    demo_data.

(** The demo run with a mask of another band count than [WAVE_LENS = 2]. *)
Definition demo_run_mask (stages : nat) (mask_shape : list nat) : outcome tensor :=
  run_forward_test (demo_cfg stages) zero_weight zero_bias zero_layers zero_layers
    LNLT_residual
    [ full [1; 16; 18] 1%R; full mask_shape 1%R; full [1; 2; 16; 16] 0%R ]
    demo_data.

(** A sub-block with unit normalisation weights, a one-channel attention and
    a feed-forward module that returns zero. *)
Definition demo_norm : norm_params := mkNorm WithBias 1 (fun _ => 1%R) (fun _ => 0%R).

Definition demo_attention : attention_params :=
  mkAttention 1 1 1 2
    (fun o _ => if o =? 2 then 1%R else 0%R) None   (* q = k = 0, v = x *)
    (fun _ _ => 0%R) None
    (fun _ _ => 1%R) (fun _ => 0%R)
    (fun _ _ => 0%R).

Definition demo_block : sub_block :=
  mkSub demo_norm demo_attention (full [1; 1; 1] 0%R) demo_norm
        (fun x => Ok (tmap (fun _ => 0%R) x)).

(** One global token with value 0 followed by one image token with value 1. *)
Definition demo_tokens : tensor :=
  mkT [1; 2; 1] (fun idx => match idx with [_; 1; _] => 1%R | _ => 0%R end).

(** Entry [idx] of a result, when there is one. *)
Definition entry (r : res tensor) (idx : list nat) : option R :=
  match r with
  | Ok t => Some (val t idx)
  | Raise _ => None
  end.

(** Entry [d] of head [h] of the query ([j = 0]), key ([j = 1]) or value
    ([j = 2]) that [self.qkv] computes from a token with channels [tok]:
    row [(j * num_heads + h) * hd + d] of the projection, [hd] being the
    size of a head. *)
Definition qkv_entry (a : attention_params) (hd : nat) (tok : nat -> R) (j h d : nat) : R :=
  let o := (j * num_heads a + h) * hd + d in
  (sum_n (dim a) (fun c => tok c * qkv_weight a o c)
   + match qkv_bias a with Some f => f o | None => 0 end)%R.

(** The padded size of an axis of size [n] for windows of size [ws]
    (lines 577-580). *)
Definition padded_size (ws n : nat) : nat := n + (ws - n mod ws) mod ws.

(** What [LocalNonLocalBlock.__init__] guarantees of every entry of
    [self.blocks] for feature maps [B, C, H, W]: both normalisations and the
    attention are built for [C] channels split into heads of size [hd], with
    at least one global token, and the feed-forward module maps a feature
    map to a feature map of the same shape. *)
Definition block_ok (B C H W hd : nat) (blk : sub_block) : Prop :=
  norm_dim (attn_norm blk) = C /\
  norm_dim (ffn_norm blk) = C /\
  dim (attn_params blk) = C /\
  shape (global_token blk) = [1; num_tokens (attn_params blk); C] /\
  0 < num_tokens (attn_params blk) /\
  0 < window_size (attn_params blk) /\
  0 < num_heads (attn_params blk) /\
  C = num_heads (attn_params blk) * hd /\
  forall t, shape t = [B; C; H; W] ->
    exists r, ffn_fn blk t = Ok r /\ shape r = [B; C; H; W].

(** The computation returns, and [P] holds of its result and final store. *)
Definition returns {A : Type} (P : A -> store -> Prop) (o : outcome A) : Prop :=
  match o with
  | Done a s => P a s
  | Fail _ _ => False
  end.

(** What the configuration must say for a cube of [nC] bands: the number of
    bands, and the channels the denoiser takes and returns. *)
Definition cfg_fits (cfg : config) (nC : nat) : Prop :=
  WAVE_LENS cfg = nC /\ OUT_DIM cfg = nC /\
  IN_DIM cfg = (if WITH_NOISE_LEVEL cfg then S nC else nC).

(** [F.pad(..., mode='reflect')] to the next multiple of 16 (lines 350-353)
    wants a pad smaller than the axis. *)
Definition reflect_pad_ok (n : nat) : Prop := (16 - n mod 16) mod 16 < n.

(** * Properties *)

(** ** Index and shape arithmetic *)

Lemma slice_start_none n : slice_start None n = 0.
Proof. reflexivity. Qed.

Lemma slice_stop_none n : slice_stop None n = n.
Proof. reflexivity. Qed.

Lemma slice_len_all n : slice_len None None n = n.
Proof. unfold slice_len. cbn. lia. Qed.

Lemma slice_stop_nat k n : slice_stop (Some (Z.of_nat k)) n = Nat.min k n.
Proof.
  unfold slice_stop, norm_bound.
  destruct (Z.ltb_spec (Z.of_nat k) 0); [lia|].
  now rewrite Nat2Z.id.
Qed.

Lemma slice_len_upto k n : slice_len None (Some (Z.of_nat k)) n = Nat.min k n.
Proof. unfold slice_len. rewrite slice_stop_nat. cbn. lia. Qed.

Lemma bshape_rev_refl r : bshape_rev r r = Some r.
Proof.
  induction r as [|a r IH]; [reflexivity|].
  cbn. rewrite IH, Nat.eqb_refl. reflexivity.
Qed.

Lemma broadcast_shapes_refl s : broadcast_shapes s s = Some s.
Proof.
  unfold broadcast_shapes. rewrite bshape_rev_refl. cbn.
  now rewrite rev_involutive.
Qed.

Lemma expandable_refl s : expandable s s = true.
Proof.
  unfold expandable. rewrite broadcast_shapes_refl.
  now destruct (list_eq_dec Nat.eq_dec s s).
Qed.

Lemma zip_with_inb s idx :
  inb s idx -> zip_with (fun d i => if d =? 1 then 0 else i) s idx = idx.
Proof.
  revert idx; induction s as [|d s IH]; intros [|i idx]; cbn; try tauto.
  intros [Hi Hr]. rewrite IH by assumption.
  destruct (Nat.eqb_spec d 1); [f_equal; lia | reflexivity].
Qed.

Lemma inb_length s idx : inb s idx -> length idx = length s.
Proof.
  revert idx; induction s as [|d s IH]; intros [|i idx]; cbn; try tauto.
  intros [_ Hr]. f_equal. auto.
Qed.

(** Reading an operand at an index of its own shape is not affected by
    broadcasting. *)
Lemma bidx_inb s idx : inb s idx -> bidx s idx = idx.
Proof.
  intros H. unfold bidx. rewrite (inb_length _ _ H), Nat.sub_diag. cbn.
  now apply zip_with_inb.
Qed.

Lemma binop_same_shape f a b :
  shape a = shape b ->
  exists r, binop f a b = Ok r /\ shape r = shape a /\
            forall idx, inb (shape a) idx -> val r idx = f (val a idx) (val b idx).
Proof.
  intros E. unfold binop. rewrite <- E, broadcast_shapes_refl.
  eexists; split; [reflexivity|]. split; [reflexivity|].
  intros idx Hin. cbn. now rewrite (bidx_inb _ _ Hin).
Qed.

(** ** The band loop of [shift_3d] and [shift_back_3d] *)

Lemma roll_band_spec s i t B C H W :
  shape t = [B; C; H; W] -> i < C ->
  exists r, roll_band s i t = Ok r /\ shape r = [B; C; H; W] /\
    forall b c h w, b < B -> c < C -> h < H -> w < W ->
      val r [b; c; h; w] =
        if c =? i
        then val t [b; c; h; Z.to_nat ((Z.of_nat w - s) mod Z.of_nat W)]
        else val t [b; c; h; w].
Proof.
  intros Hs Hi. unfold roll_band, getitem, setitem, roll.
  rewrite Hs. cbn [sel_shape IAll bind].
  apply Nat.ltb_lt in Hi as Hi'. rewrite Hi'. cbn [bind shape length].
  rewrite !slice_len_all. cbn [Nat.ltb Nat.leb bind shape].
  rewrite expandable_refl.
  eexists; split; [reflexivity|]. split; [reflexivity|].
  intros b c h w Hb Hc Hh Hw. cbn [val region_index IAll].
  rewrite !slice_start_none, !slice_stop_none. cbn [Nat.leb andb].
  apply Nat.ltb_lt in Hb as Hb'. rewrite Hb'. cbn [andb].
  destruct (Nat.eqb_spec c i) as [->|Hne]; [|reflexivity].
  apply Nat.ltb_lt in Hh as Hh'. apply Nat.ltb_lt in Hw as Hw'.
  rewrite Hh', Hw'. cbn [option_map andb].
  rewrite !Nat.sub_0_r.
  rewrite bidx_inb by (cbn; tauto).
  cbn. reflexivity.
Qed.

Lemma band_loop_spec (f : nat -> Z) n t B C H W :
  shape t = [B; C; H; W] -> n <= C ->
  exists r, for_range n t (fun i t => roll_band (f i) i t) = Ok r /\
    shape r = [B; C; H; W] /\
    forall b c h w, b < B -> c < C -> h < H -> w < W ->
      val r [b; c; h; w] =
        if c <? n
        then val t [b; c; h; Z.to_nat ((Z.of_nat w - f c) mod Z.of_nat W)]
        else val t [b; c; h; w].
Proof.
  intros Hs. induction n as [|k IH]; intros Hn.
  - exists t. repeat split; auto.
  - destruct IH as (rk & Hk & Hsk & Hvk); [lia|].
    destruct (roll_band_spec (f k) k rk B C H W Hsk) as (r & Hr & Hsr & Hvr); [lia|].
    exists r. cbn [for_range]. rewrite Hk. cbn [bind]. repeat split; auto.
    intros b c h w Hb Hc Hh Hw. rewrite Hvr by assumption.
    destruct (Nat.eqb_spec c k) as [->|Hne].
    + rewrite Hvk; try assumption.
      * rewrite Nat.ltb_irrefl.
        replace (k <? S k) with true by (symmetry; apply Nat.ltb_lt; lia).
        reflexivity.
      * pose proof (Z.mod_pos_bound (Z.of_nat w - f k) (Z.of_nat W)). lia.
    + rewrite Hvk by assumption.
      destruct (Nat.ltb_spec c k), (Nat.ltb_spec c (S k)); try lia; reflexivity.
Qed.

(** ** Conversion to float32 *)

Lemma Int_part_IZR n : Int_part (IZR n) = n.
Proof. symmetry. apply Int_part_spec. lra. Qed.

Lemma round_half_even_IZR n : round_half_even (IZR n) = n.
Proof.
  unfold round_half_even. rewrite Int_part_IZR.
  destruct (Rlt_dec (IZR n - IZR n) (1 / 2)) as [_|H]; [reflexivity | lra].
Qed.

Lemma powerRZ_2_pos e : (0 < powerRZ 2 e)%R.
Proof. apply powerRZ_lt. lra. Qed.

Lemma IZR_pow2 k : (0 <= k)%Z -> IZR (2 ^ k) = powerRZ 2 k.
Proof.
  intros Hk. rewrite <- (Z2Nat.id k Hk), <- pow_IZR, <- pow_powerRZ. reflexivity.
Qed.

Lemma ln_powerRZ_2 k : ln (powerRZ 2 k) = (IZR k * ln 2)%R.
Proof.
  rewrite powerRZ_Rpower by lra. unfold Rpower. apply ln_exp.
Qed.

(** A number below [2^k] in magnitude has its leading bit below position [k]. *)
Lemma Int_part_log2_lt v k :
  v <> 0%R -> (Rabs v < powerRZ 2 k)%R -> (Int_part (ln (Rabs v) / ln 2) < k)%Z.
Proof.
  intros Hv Hlt.
  assert (H2 : (0 < ln 2)%R) by (pose proof ln_lt_2; lra).
  assert (Ha : (0 < Rabs v)%R) by now apply Rabs_pos_lt.
  apply (ln_increasing _ _ Ha) in Hlt. rewrite ln_powerRZ_2 in Hlt.
  destruct (base_Int_part (ln (Rabs v) / ln 2)) as [Hle _].
  apply lt_IZR. eapply Rle_lt_trans; [exact Hle|].
  apply (Rmult_lt_reg_r (ln 2)); [exact H2|].
  unfold Rdiv. rewrite Rmult_assoc, Rinv_l by lra. lra.
Qed.

Lemma float32_exponent_le m e :
  (Z.abs m < 2 ^ 24)%Z -> (-149 <= e)%Z -> (IZR m * powerRZ 2 e <> 0)%R ->
  (float32_exponent (IZR m * powerRZ 2 e) <= e)%Z.
Proof.
  intros Hm He Hv. unfold float32_exponent. apply Z.max_lub; [exact He|].
  assert (Int_part (ln (Rabs (IZR m * powerRZ 2 e)) / ln 2) < 24 + e)%Z; [|lia].
  apply Int_part_log2_lt; [exact Hv|].
  rewrite Rabs_mult, (Rabs_pos_eq (powerRZ 2 e)) by (left; apply powerRZ_2_pos).
  rewrite powerRZ_add by lra. apply Rmult_lt_compat_r; [apply powerRZ_2_pos|].
  rewrite <- abs_IZR, <- IZR_pow2 by lia. now apply IZR_lt.
Qed.

(** Conversion to float32 leaves a float32 number as it is. *)
Lemma to_float32_float32 v : float32 v -> to_float32 v = v.
Proof.
  intros (m & e & Hm & He & ->). unfold to_float32.
  destruct (Req_dec_T (IZR m * powerRZ 2 e) 0) as [E|Hv]; [now rewrite E|].
  cbv zeta. set (e' := float32_exponent (IZR m * powerRZ 2 e)).
  assert (Hle : (e' <= e)%Z) by (apply float32_exponent_le; [exact Hm | lia | exact Hv]).
  replace (IZR m * powerRZ 2 e * powerRZ 2 (- e'))%R with (IZR (m * 2 ^ (e - e'))).
  - rewrite round_half_even_IZR, mult_IZR, IZR_pow2 by lia.
    rewrite Rmult_assoc, <- powerRZ_add by lra.
    now replace (e - e' + e')%Z with e by lia.
  - rewrite mult_IZR, IZR_pow2 by lia.
    rewrite Rmult_assoc, <- powerRZ_add by lra. reflexivity.
Qed.

Lemma float32_IZR n : (Z.abs n < 2 ^ 24)%Z -> float32 (IZR n).
Proof. intros Hn. exists n, 0%Z. cbn [powerRZ]. repeat split; [exact Hn | lia | lia | lra]. Qed.

Lemma Int_part_log2_ge v k :
  (powerRZ 2 k <= Rabs v)%R -> (k <= Int_part (ln (Rabs v) / ln 2))%Z.
Proof.
  intros Hle.
  assert (H2 : (0 < ln 2)%R) by (pose proof ln_lt_2; lra).
  assert (HL : (IZR k <= ln (Rabs v) / ln 2)%R).
  { apply (Rmult_le_reg_r (ln 2)); [exact H2|].
    unfold Rdiv. rewrite Rmult_assoc, Rinv_l, Rmult_1_r by lra.
    rewrite <- ln_powerRZ_2.
    destruct Hle as [Hlt|<-]; [|lra].
    left. apply ln_increasing; [apply powerRZ_2_pos | exact Hlt]. }
  destruct (base_Int_part (ln (Rabs v) / ln 2)) as [_ Hgt].
  assert (IZR k - 1 < IZR (Int_part (ln (Rabs v) / ln 2)))%R by lra.
  rewrite <- minus_IZR in H. apply lt_IZR in H. lia.
Qed.

(** The conversion does round: 2^24 + 1 has 25 significant bits and goes to
    the even neighbour 2^24, as [torch.tensor(16777217).float()] does. *)
Lemma to_float32_rounds : to_float32 16777217 = 16777216%R.
Proof.
  unfold to_float32.
  destruct (Req_dec_T 16777217 0) as [E|_]; [lra|]. cbv zeta.
  assert (He : float32_exponent 16777217 = 1%Z).
  { unfold float32_exponent.
    assert (Ha : Rabs 16777217 = 16777217%R) by (apply Rabs_pos_eq; lra).
    pose proof (Int_part_log2_lt 16777217 25) as Hlt.
    pose proof (Int_part_log2_ge 16777217 24) as Hge.
    rewrite Ha in *.
    rewrite <- (IZR_pow2 25) in Hlt by lia. rewrite <- (IZR_pow2 24) in Hge by lia.
    change (2 ^ 25)%Z with 33554432%Z in Hlt. change (2 ^ 24)%Z with 16777216%Z in Hge.
    assert (Int_part (ln 16777217 / ln 2) < 25)%Z by (apply Hlt; lra).
    assert (24 <= Int_part (ln 16777217 / ln 2))%Z by (apply Hge; lra).
    lia. }
  rewrite He.
  assert (Hr : round_half_even (16777217 * powerRZ 2 (- (1))) = 8388608%Z).
  { unfold round_half_even.
    assert (Hi : Int_part (16777217 * powerRZ 2 (- (1))) = 8388608%Z).
    { symmetry. apply Int_part_spec. change (powerRZ 2 (- (1))) with (/ (2 * 1))%R. lra. }
    rewrite Hi. change (powerRZ 2 (- (1))) with (/ (2 * 1))%R.
    destruct (Rlt_dec _ _) as [H|_]; [lra|].
    destruct (Rlt_dec _ _) as [H|_]; [lra|]. reflexivity. }
  rewrite Hr. change (powerRZ 2 1) with (2 * 1)%R. lra.
Qed.

(** ** C4: the dispersion shift and its inverse *)

Lemma shift_3d_spec x step B C H W :
  shape x = [B; C; H; W] ->
  (0 <= (Z.of_nat C - 1) * step)%Z ->
  let W' := Z.to_nat (Z.of_nat W + (Z.of_nat C - 1) * step) in
  exists t, shift_3d x step = Ok t /\ shape t = [B; C; H; W'] /\
    forall b c h w, b < B -> c < C -> h < H -> w < W' ->
      val t [b; c; h; w] =
        let j := Z.to_nat ((Z.of_nat w - step * Z.of_nat c) mod Z.of_nat W') in
        if j <? W then to_float32 (val x [b; c; h; j]) else 0%R.
Proof.
  intros Hs Hpad W'. unfold shift_3d, shape4. rewrite Hs. cbn [bind].
  unfold zeros. cbn [forallb].
  replace (0 <=? Z.of_nat B)%Z with true by (symmetry; apply Z.leb_le; lia).
  replace (0 <=? Z.of_nat C)%Z with true by (symmetry; apply Z.leb_le; lia).
  replace (0 <=? Z.of_nat H)%Z with true by (symmetry; apply Z.leb_le; lia).
  replace (0 <=? Z.of_nat W + (Z.of_nat C - 1) * step)%Z with true
    by (symmetry; apply Z.leb_le; lia).
  cbn [andb bind map]. rewrite !Nat2Z.id. fold W'.
  assert (HW : W <= W') by (unfold W'; lia).
  unfold setitem at 1. cbn [shape full tmap sel_shape IAll upto bind].
  rewrite !slice_len_all, slice_len_upto, Nat.min_l by assumption.
  rewrite Hs, expandable_refl.
  cbn [bind]. match goal with |- context [for_range C ?t0 _] => set (temp := t0) end.
  destruct (band_loop_spec (fun i => (step * Z.of_nat i)%Z) C temp B C H W')
    as (t & Ht & Hst & Hvt); [reflexivity | lia |].
  exists t. split; [exact Ht|]. split; [exact Hst|].
  intros b c h w Hb Hc Hh Hw. rewrite Hvt by assumption.
  replace (c <? C) with true by (symmetry; apply Nat.ltb_lt; lia).
  cbv zeta.
  set (j := Z.to_nat ((Z.of_nat w - step * Z.of_nat c) mod Z.of_nat W')).
  assert (Hj : j < W').
  { unfold j. pose proof (Z.mod_pos_bound (Z.of_nat w - step * Z.of_nat c) (Z.of_nat W')). lia. }
  unfold temp. cbn [val region_index IAll upto].
  rewrite !slice_start_none, !slice_stop_none, slice_stop_nat, Nat.min_l by assumption.
  cbn [Nat.leb andb].
  apply Nat.ltb_lt in Hb as Hb'. apply Nat.ltb_lt in Hc as Hc'. apply Nat.ltb_lt in Hh as Hh'.
  rewrite Hb', Hc', Hh'. cbn [andb].
  destruct (Nat.ltb_spec j W) as [HjW|HjW]; cbn [option_map].
  - rewrite !Nat.sub_0_r. rewrite bidx_inb by (cbn; tauto). reflexivity.
  - reflexivity.
Qed.

Lemma shift_back_3d_spec t step B C H W :
  shape t = [B; C; H; W] ->
  exists t', shift_back_3d t step = Ok t' /\ shape t' = [B; C; H; W] /\
    forall b c h w, b < B -> c < C -> h < H -> w < W ->
      val t' [b; c; h; w] =
        val t [b; c; h; Z.to_nat ((Z.of_nat w + step * Z.of_nat c) mod Z.of_nat W)].
Proof.
  intros Hs. unfold shift_back_3d, shape4. rewrite Hs. cbn [bind].
  destruct (band_loop_spec (fun i => (-1 * step * Z.of_nat i)%Z) C t B C H W Hs)
    as (t' & Ht' & Hst' & Hvt'); [lia|].
  exists t'. repeat split; auto.
  intros b c h w Hb Hc Hh Hw. rewrite Hvt' by assumption.
  replace (c <? C) with true by (symmetry; apply Nat.ltb_lt; lia).
  replace (Z.of_nat w - -1 * step * Z.of_nat c)%Z
    with (Z.of_nat w + step * Z.of_nat c)%Z by ring.
  reflexivity.
Qed.

(** The round trip on any tensor: the first [W] columns hold the input as
    the float32 buffer of [shift_3d] stores it. *)
Lemma shift_round_trip_ex x step B C H W :
  shape x = [B; C; H; W] ->
  (0 <= (Z.of_nat C - 1) * step)%Z ->
  exists t t' r,
    shift_3d x step = Ok t /\
    shift_back_3d t step = Ok t' /\
    getitem [IAll; IAll; IAll; upto W] t' = Ok r /\
    shape r = [B; C; H; W] /\
    forall b c h w, b < B -> c < C -> h < H -> w < W ->
      val r [b; c; h; w] = to_float32 (val x [b; c; h; w]).
Proof.
  intros Hs Hpad.
  destruct (shift_3d_spec x step B C H W Hs Hpad) as (t & Ht & Hst & Hvt).
  cbv zeta in Hst, Hvt.
  set (W' := Z.to_nat (Z.of_nat W + (Z.of_nat C - 1) * step)) in *.
  assert (HW : W <= W') by (unfold W'; lia).
  destruct (shift_back_3d_spec t step B C H W' Hst) as (t' & Ht' & Hst' & Hvt').
  exists t, t'. unfold getitem. rewrite Hst'. cbn [sel_shape IAll upto bind].
  rewrite !slice_len_all, slice_len_upto, Nat.min_l by assumption.
  eexists. repeat split; try eassumption; cbn [shape val].
  intros b c h w Hb Hc Hh Hw.
  cbn [src_index IAll upto]. rewrite !slice_start_none. cbn [Nat.add].
  rewrite Hvt' by lia.
  set (j1 := Z.to_nat ((Z.of_nat w + step * Z.of_nat c) mod Z.of_nat W')).
  assert (Hj1 : j1 < W').
  { unfold j1.
    pose proof (Z.mod_pos_bound (Z.of_nat w + step * Z.of_nat c) (Z.of_nat W')). lia. }
  rewrite Hvt by lia.
  replace (Z.to_nat ((Z.of_nat j1 - step * Z.of_nat c) mod Z.of_nat W')) with w.
  + replace (w <? W) with true by (symmetry; apply Nat.ltb_lt; lia). reflexivity.
  + unfold j1. rewrite Z2Nat.id
      by (pose proof (Z.mod_pos_bound (Z.of_nat w + step * Z.of_nat c) (Z.of_nat W')); lia).
    rewrite Zminus_mod_idemp_l.
    replace (Z.of_nat w + step * Z.of_nat c - step * Z.of_nat c)%Z with (Z.of_nat w) by lia.
    rewrite Z.mod_small by lia. now rewrite Nat2Z.id.
Qed.

(** An entry with more than 24 significant bits does not survive the round
    trip: the float32 buffer holds 2^24 where the input holds 2^24 + 1. *)
Lemma shift_round_trip_rounds :
  exists t t' r,
    shift_3d (full [1; 1; 1; 1] 16777217%R) 2 = Ok t /\
    shift_back_3d t 2 = Ok t' /\
    getitem [IAll; IAll; IAll; upto 1] t' = Ok r /\
    val r [0; 0; 0; 0] = 16777216%R.
Proof.
  destruct (shift_round_trip_ex (full [1; 1; 1; 1] 16777217%R) 2 1 1 1 1 eq_refl)
    as (t & t' & r & Ht & Ht' & Hr & _ & Hv); [lia|].
  exists t, t', r. repeat (split; [assumption|]).
  rewrite Hv by lia. apply to_float32_rounds.
Qed.




(** ** Finite sums *)

Lemma sum_n_ext n f g :
  (forall i, i < n -> f i = g i) -> sum_n n f = sum_n n g.
Proof.
  induction n as [|n IH]; intros E; [reflexivity|].
  cbn. rewrite IH by (intros; apply E; lia). rewrite E by lia. reflexivity.
Qed.

Lemma sum_n_zero n : sum_n n (fun _ => 0%R) = 0%R.
Proof. induction n as [|n IH]; cbn; [reflexivity | rewrite IH; lra]. Qed.

Lemma sum_n_plus n f g :
  sum_n n (fun i => (f i + g i)%R) = (sum_n n f + sum_n n g)%R.
Proof. induction n as [|n IH]; cbn; [lra | rewrite IH; lra]. Qed.

Lemma sum_n_scal_r n f a :
  (sum_n n f * a)%R = sum_n n (fun i => (f i * a)%R).
Proof. induction n as [|n IH]; cbn; [lra | rewrite <- IH; lra]. Qed.

Lemma sum_n_exchange n m (f : nat -> nat -> R) :
  sum_n n (fun i => sum_n m (fun j => f i j)) =
  sum_n m (fun j => sum_n n (fun i => f i j)).
Proof.
  induction n as [|n IH]; cbn.
  - now rewrite sum_n_zero.
  - rewrite IH, <- sum_n_plus. reflexivity.
Qed.

Lemma sum_n_nonneg n f :
  (forall i, i < n -> (0 <= f i)%R) -> (0 <= sum_n n f)%R.
Proof.
  induction n as [|n IH]; intros Hf; cbn; [lra|].
  assert (0 <= sum_n n f)%R by (apply IH; intros; apply Hf; lia).
  assert (0 <= f n)%R by (apply Hf; lia). lra.
Qed.

Lemma sum_over_ext s f g :
  (forall idx, inb s idx -> f idx = g idx) -> sum_over s f = sum_over s g.
Proof.
  revert f g; induction s as [|d s IH]; intros f g E; cbn.
  - apply E. exact I.
  - apply sum_n_ext. intros i Hi. apply IH. intros idx Hin. apply E. cbn. tauto.
Qed.

(** ** C10: the sensing operators *)

Lemma A_spec x Phi B N H W :
  shape x = [B; N; H; W] -> shape Phi = [B; N; H; W] ->
  exists r, A x Phi = Ok r /\ shape r = [B; H; W] /\
    forall b h w, b < B -> h < H -> w < W ->
      val r [b; h; w] =
        sum_n N (fun c => (val x [b; c; h; w] * val Phi [b; c; h; w])%R).
Proof.
  intros Hx HP. unfold A, shape4. rewrite Hx. cbn [bind].
  destruct (binop_same_shape Rmult x Phi) as (t & Ht & Hst & Hvt); [congruence|].
  unfold tmul. rewrite Ht. cbn [bind]. unfold sum_dim. rewrite Hst, Hx.
  cbn [length Nat.ltb Nat.leb firstn skipn app nth].
  eexists; split; [reflexivity|]. split; [reflexivity|].
  intros b h w Hb Hh Hw. cbn [val firstn skipn app].
  apply sum_n_ext. intros c Hc. apply Hvt. rewrite Hx. cbn. tauto.
Qed.

Lemma At_spec y Phi B N H W :
  shape y = [B; H; W] -> shape Phi = [B; N; H; W] ->
  exists r, At y Phi = Ok r /\ shape r = [B; N; H; W] /\
    forall b c h w, b < B -> c < N -> h < H -> w < W ->
      val r [b; c; h; w] = (val y [b; h; w] * val Phi [b; c; h; w])%R.
Proof.
  intros Hy HP. unfold At, unsqueeze, dim_size, repeat_. rewrite Hy, HP.
  cbn [length Nat.leb bind nth_error shape Nat.sub List.repeat app firstn skipn zip_with].
  rewrite !Nat.mul_1_l, !Nat.mul_1_r.
  unfold tmul, binop. cbn [shape]. rewrite HP, broadcast_shapes_refl.
  eexists; split; [reflexivity|]. split; [reflexivity|].
  intros b c h w Hb Hc Hh Hw. cbn [val].
  rewrite !bidx_inb by (cbn; tauto).
  cbn [skipn zip_with firstn app].
  rewrite !Nat.mod_small by assumption. reflexivity.
Qed.

(** C10. [A] and [At] are adjoint: for [x] and [Phi] of shape [B,N,H,W]
    and [y] of shape [B,H,W], [A(x,Phi)] has shape [B,H,W], [At(y,Phi)] has
    shape [B,N,H,W], and the entries of [A(x,Phi) * y] and of
    [x * At(y,Phi)] have the same sum. *)
Theorem A_At_adjoint x y Phi B N H W :
  shape x = [B; N; H; W] -> shape y = [B; H; W] -> shape Phi = [B; N; H; W] ->
  exists Ax Aty p q,
    A x Phi = Ok Ax /\ shape Ax = [B; H; W] /\
    At y Phi = Ok Aty /\ shape Aty = [B; N; H; W] /\
    tmul Ax y = Ok p /\ tmul x Aty = Ok q /\
    sum_all p = sum_all q.
Proof.
  intros Hx Hy HP.
  destruct (A_spec x Phi B N H W Hx HP) as (Ax & HA & HsA & HvA).
  destruct (At_spec y Phi B N H W Hy HP) as (Aty & HAt & HsAt & HvAt).
  destruct (binop_same_shape Rmult Ax y) as (p & Hp & Hsp & Hvp); [congruence|].
  destruct (binop_same_shape Rmult x Aty) as (q & Hq & Hsq & Hvq); [congruence|].
  exists Ax, Aty, p, q. repeat split; try assumption.
  unfold sum_all. rewrite Hsp, Hsq, HsA, Hx.
  rewrite (sum_over_ext [B; H; W] (val p)
             (fun idx => (val Ax idx * val y idx)%R))
    by (intros idx Hin; apply Hvp; now rewrite HsA).
  rewrite (sum_over_ext [B; N; H; W] (val q)
             (fun idx => (val x idx * val Aty idx)%R))
    by (intros idx Hin; apply Hvq; now rewrite Hx).
  cbn [sum_over].
  apply sum_n_ext. intros b Hb.
  transitivity
    (sum_n H (fun h => sum_n N (fun c => sum_n W (fun w =>
       (val x [b; c; h; w] * val Aty [b; c; h; w])%R)))).
  - apply sum_n_ext. intros h Hh.
    rewrite sum_n_exchange.
    apply sum_n_ext. intros w Hw.
    rewrite HvA by assumption. rewrite sum_n_scal_r.
    apply sum_n_ext. intros c Hc. rewrite HvAt by assumption. ring.
  - now rewrite sum_n_exchange.
Qed.

(** A concrete instance: one batch element, two bands, a 1x2 sensor. *)
Lemma A_At_adjoint_witness :
  exists Ax Aty p q,
    A (full [1; 2; 1; 2] 3%R) (full [1; 2; 1; 2] 5%R) = Ok Ax /\ shape Ax = [1; 1; 2] /\
    At (full [1; 1; 2] 7%R) (full [1; 2; 1; 2] 5%R) = Ok Aty /\ shape Aty = [1; 2; 1; 2] /\
    tmul Ax (full [1; 1; 2] 7%R) = Ok p /\ tmul (full [1; 2; 1; 2] 3%R) Aty = Ok q /\
    sum_all p = sum_all q.
Proof.
  apply (A_At_adjoint (full [1; 2; 1; 2] 3%R) (full [1; 1; 2] 7%R) (full [1; 2; 1; 2] 5%R)
           1 2 1 2); reflexivity.
Defined.

(** ** The store *)

Lemma length_upd_nth {A} n (x : A) l : length (upd_nth n x l) = length l.
Proof.
  revert n; induction l as [|a l IH]; intros [|n]; cbn; auto.
Qed.

Lemma nth_error_upd_same {A} n (x : A) l :
  n < length l -> nth_error (upd_nth n x l) n = Some x.
Proof.
  revert n; induction l as [|a l IH]; intros [|n]; cbn; intros Hn; try lia; auto.
  apply IH. lia.
Qed.

Lemma nth_error_upd_other {A} n m (x : A) l :
  n <> m -> nth_error (upd_nth n x l) m = nth_error l m.
Proof.
  revert n m; induction l as [|a l IH]; intros [|n] [|m]; cbn; intros Hn;
    try congruence; auto.
Qed.

Lemma cell_lt s l v : cell s l v -> l < length (heap s).
Proof. intros H. apply nth_error_Some. unfold cell in H. congruence. Qed.

Lemma unchanged_below_refl n s : unchanged_below n s s.
Proof. split; auto. Qed.

Lemma unchanged_below_trans n s1 s2 s3 :
  unchanged_below n s1 s2 -> unchanged_below n s2 s3 -> unchanged_below n s1 s3.
Proof.
  intros [L1 H1] [L2 H2]. split; [lia|].
  intros l Hl. rewrite H2, H1 by assumption. reflexivity.
Qed.

Lemma unchanged_below_le n m s s' :
  m <= n -> unchanged_below n s s' -> unchanged_below m s s'.
Proof. intros Hm [L H]. split; [assumption|]. intros l Hl. apply H. lia. Qed.

Lemma unchanged_below_cell n s s' l v :
  unchanged_below n s s' -> l < n -> cell s l v -> cell s' l v.
Proof. intros [_ H] Hl Hc. unfold cell. rewrite H by assumption. exact Hc. Qed.

Lemma unchanged_alloc h tr v n :
  n <= length h -> unchanged_below n (mkStore h tr) (mkStore (h ++ [v]) tr).
Proof.
  intros Hn. split; cbn.
  - rewrite length_app. lia.
  - intros l Hl. apply nth_error_app1. lia.
Qed.

Lemma unchanged_write h tr tr' l v n :
  n <= l -> unchanged_below n (mkStore h tr) (mkStore (upd_nth l v h) tr').
Proof.
  intros Hn. split; cbn.
  - rewrite length_upd_nth. lia.
  - intros l' Hl. apply nth_error_upd_other. lia.
Qed.

Lemma unchanged_emit h tr tr' n : unchanged_below n (mkStore h tr) (mkStore h tr').
Proof. split; auto. Qed.

(** The primitive operations, as equations on outcomes. *)

Lemma read_cell s l v : cell s l v -> read l s = Done v s.
Proof. unfold cell, read. now intros ->. Qed.

Lemma mbind_done {A B} (m : M A) (k : A -> M B) s a s' :
  m s = Done a s' -> mbind m k s = k a s'.
Proof. unfold mbind. now intros ->. Qed.

Lemma mbind_fail {A B} (m : M A) (k : A -> M B) s e s' :
  m s = Fail e s' -> mbind m k s = Fail e s'.
Proof. unfold mbind. now intros ->. Qed.

Lemma fresh_ok r v s :
  r = Ok v ->
  fresh r s = Done (length (heap s)) (mkStore (heap s ++ [v]) (trace s)).
Proof. intros ->. reflexivity. Qed.

Lemma fresh_raise r e s : r = Raise e -> fresh r s = Fail e s.
Proof. intros ->. reflexivity. Qed.

Lemma inplace_ok l f v v' s :
  cell s l v -> f v = Ok v' ->
  inplace l f s = Done l (mkStore (upd_nth l v' (heap s)) (trace s)).
Proof.
  intros Hc Hf. unfold inplace. rewrite (mbind_done _ _ _ _ _ (read_cell _ _ _ Hc)).
  unfold mbind, lift, write, ret. rewrite Hf.
  apply cell_lt in Hc. apply Nat.ltb_lt in Hc. now rewrite Hc.
Qed.

Lemma inplace_raise l f v e s :
  cell s l v -> f v = Raise e -> inplace l f s = Fail e s.
Proof.
  intros Hc Hf. unfold inplace. rewrite (mbind_done _ _ _ _ _ (read_cell _ _ _ Hc)).
  unfold mbind, lift. now rewrite Hf.
Qed.

Lemma cell_app_old h tr e l v :
  cell (mkStore h tr) l v -> forall tr', cell (mkStore (h ++ e) tr') l v.
Proof.
  unfold cell; cbn. intros H tr'. rewrite nth_error_app1; [assumption|].
  apply nth_error_Some. congruence.
Qed.

Lemma cell_app_new h tr v e : cell (mkStore (h ++ v :: e) tr) (length h) v.
Proof.
  unfold cell; cbn. rewrite nth_error_app2 by lia. now rewrite Nat.sub_diag.
Qed.

Lemma cell_upd_same h tr tr' l v v' :
  cell (mkStore h tr) l v -> cell (mkStore (upd_nth l v' h) tr') l v'.
Proof. intros H. apply cell_lt in H. unfold cell; cbn. now apply nth_error_upd_same. Qed.

Lemma cell_upd_other h tr tr' l l' v v' :
  cell (mkStore h tr) l v -> l' <> l -> cell (mkStore (upd_nth l' v' h) tr') l v.
Proof. unfold cell; cbn. intros H Hne. now rewrite nth_error_upd_other. Qed.

Lemma cell_trace h tr tr' l v : cell (mkStore h tr) l v -> cell (mkStore h tr') l v.
Proof. exact (fun H => H). Qed.

(** ** Positivity of the step size *)

Lemma softplus_pos v : (0 < softplus v)%R.
Proof.
  unfold softplus. destruct (Rlt_dec 20 v) as [Hv|Hv]; [lra|].
  rewrite <- ln_1. apply ln_increasing; [lra|].
  pose proof (exp_pos v). lra.
Qed.

Lemma eps_pos : (0 < eps)%R.
Proof. unfold eps. lra. Qed.

(** ** Stepping through a computation in the store monad *)

Lemma wp_ret {A} (a : A) s Q : Q (Done a s) -> wp (ret a) s Q.
Proof. exact (fun H => H). Qed.

Lemma wp_assoc {A B C} (m : M A) (k : A -> M B) (k' : B -> M C) s Q :
  wp (mbind m (fun a => mbind (k a) k')) s Q -> wp (mbind (mbind m k) k') s Q.
Proof. unfold wp, mbind. now destruct (m s). Qed.

Lemma wp_bind {A B} (m : M A) (k : A -> M B) s (Q1 : outcome A -> Prop) Q :
  wp m s Q1 ->
  (forall a s', Q1 (Done a s') -> wp (k a) s' Q) ->
  (forall e s', Q1 (Fail e s') -> Q (Fail e s')) ->
  wp (mbind m k) s Q.
Proof.
  unfold wp, mbind. intros H HD HF. destruct (m s); [now apply HD | now apply HF].
Qed.

Lemma wp_read {A} l (k : tensor -> M A) s v Q :
  cell s l v -> wp (k v) s Q -> wp (mbind (read l) k) s Q.
Proof. intros Hc H. unfold wp. now rewrite (mbind_done _ _ _ _ _ (read_cell _ _ _ Hc)). Qed.

Lemma wp_lift {A B} (r : res A) (k : A -> M B) s Q :
  (forall a, r = Ok a -> wp (k a) s Q) ->
  (forall e, r = Raise e -> Q (Fail e s)) ->
  wp (mbind (lift r) k) s Q.
Proof.
  intros HO HR. unfold wp, mbind, lift. destruct r; [now apply HO | now apply HR].
Qed.

Lemma wp_alloc {A} v (k : ref -> M A) s Q :
  (forall s',
      cell s' (length (heap s)) v ->
      length (heap s') = S (length (heap s)) ->
      trace s' = trace s ->
      unchanged_below (length (heap s)) s s' ->
      wp (k (length (heap s))) s' Q) ->
  wp (mbind (alloc v) k) s Q.
Proof.
  intros H. destruct s as [h tr]. unfold wp, mbind, alloc. cbn [heap trace].
  apply H; cbn [heap trace].
  - apply cell_app_new.
  - rewrite length_app. cbn. lia.
  - reflexivity.
  - now apply unchanged_alloc.
Qed.

Lemma wp_fresh {A} r (k : ref -> M A) s Q :
  (forall v s',
      r = Ok v ->
      cell s' (length (heap s)) v ->
      length (heap s') = S (length (heap s)) ->
      trace s' = trace s ->
      unchanged_below (length (heap s)) s s' ->
      wp (k (length (heap s))) s' Q) ->
  (forall e, r = Raise e -> Q (Fail e s)) ->
  wp (mbind (fresh r) k) s Q.
Proof.
  intros HO HR. unfold fresh. apply wp_assoc. apply wp_lift; [|assumption].
  intros v Hv. apply wp_alloc. intros s'. now apply HO.
Qed.

Lemma wp_inplace {A} l f (k : ref -> M A) s v Q :
  cell s l v ->
  (forall v' s',
      f v = Ok v' ->
      cell s' l v' ->
      only_changed l s s' ->
      trace s' = trace s ->
      unchanged_below l s s' ->
      wp (k l) s' Q) ->
  (forall e, f v = Raise e -> Q (Fail e s)) ->
  wp (mbind (inplace l f) k) s Q.
Proof.
  intros Hc HO HR. unfold wp. destruct (f v) as [v'|e] eqn:E.
  - rewrite (mbind_done _ _ _ _ _ (inplace_ok _ _ _ _ _ Hc E)).
    destruct s as [h tr]. apply (HO v'); cbn [heap trace]; auto.
    + eapply cell_upd_same, Hc.
    + split; cbn; [apply length_upd_nth|]. intros l' Hl. now apply nth_error_upd_other.
    + now apply unchanged_write.
  - rewrite (mbind_fail _ _ _ _ _ (inplace_raise _ _ _ _ _ Hc E)). now apply HR.
Qed.

Lemma wp_emit {A} e (k : unit -> M A) s Q :
  (forall s', heap s' = heap s -> trace s' = trace s ++ [e] -> wp (k tt) s' Q) ->
  wp (mbind (emit e) k) s Q.
Proof. intros H. unfold wp, mbind, emit. now apply H. Qed.

Lemma cell_heap_eq s s' l v : heap s' = heap s -> cell s l v -> cell s' l v.
Proof. unfold cell. now intros ->. Qed.

Lemma only_changed_cell l s s' l' v :
  only_changed l s s' -> l' <> l -> cell s l' v -> cell s' l' v.
Proof. intros [_ H] Hne Hc. unfold cell. now rewrite H. Qed.

Lemma unchanged_heap_eq n s s' : heap s' = heap s -> unchanged_below n s s'.
Proof. intros E. split; rewrite E; auto. Qed.

(** ** Blocks of the controller *)

Lemma reach_refl n good s : n <= length (heap s) -> reach n good s s.
Proof.
  intros Hn. split; [assumption|]. split; [apply unchanged_below_refl|].
  exists []. now rewrite app_nil_r.
Qed.

Lemma reach_len n good s0 s : reach n good s0 s -> n <= length (heap s).
Proof. intros (Hn & [HL _] & _). lia. Qed.

Lemma reach_step n good s0 s s' :
  reach n good s0 s -> unchanged_below n s s' -> trace s' = trace s ->
  reach n good s0 s'.
Proof.
  intros (Hn & HU & evs & HT & HG) HU' HT'. split; [assumption|]. split.
  - eapply unchanged_below_trans; eassumption.
  - exists evs. now rewrite HT'.
Qed.

Lemma reach_emit n good s0 s s' e :
  reach n good s0 s -> good e -> heap s' = heap s -> trace s' = trace s ++ [e] ->
  reach n good s0 s'.
Proof.
  intros (Hn & HU & evs & HT & HG) He HH HT'. split; [assumption|]. split.
  - eapply unchanged_below_trans; [eassumption|]. now apply unchanged_heap_eq.
  - exists (evs ++ [e]). rewrite HT', HT, app_assoc. split; [reflexivity|].
    apply Forall_app. split; [assumption|]. now constructor.
Qed.

Lemma reach_trans n good s0 s1 s2 :
  reach n good s0 s1 -> reach n good s1 s2 -> reach n good s0 s2.
Proof.
  intros (Hn & HU & evs & HT & HG) (Hn' & HU' & evs' & HT' & HG').
  split; [assumption|]. split.
  - eapply unchanged_below_trans; eassumption.
  - exists (evs ++ evs'). rewrite HT', HT, app_assoc. split; [reflexivity|].
    apply Forall_app. now split.
Qed.

Lemma reach_weaken n m good s0 s :
  m <= n -> reach n good s0 s -> reach m good s0 s.
Proof.
  intros Hm (Hn & HU & HE). split; [lia|]. split; [|assumption].
  eapply unchanged_below_le; eassumption.
Qed.

Lemma reach_cell n good s0 s l v :
  reach n good s0 s -> l < n -> cell s0 l v -> cell s l v.
Proof. intros (_ & HU & _) Hl Hc. eapply unchanged_below_cell; eassumption. Qed.

Lemma block_fail {A} n good s0 (P : A -> store -> Prop) e s :
  reach n good s0 s -> block_post n good s0 P (Fail e s).
Proof. intros H. split; [exact H | exact I]. Qed.

Lemma block_done {A} n good s0 (P : A -> store -> Prop) a s :
  reach n good s0 s -> P a s -> block_post n good s0 P (Done a s).
Proof. intros H HP. split; assumption. Qed.

Lemma wp_ret_bind {A B} (a : A) (k : A -> M B) s Q :
  wp (k a) s Q -> wp (mbind (ret a) k) s Q.
Proof. exact (fun H => H). Qed.

Lemma wp_last {A} (m : M A) s Q : wp (mbind m ret) s Q -> wp m s Q.
Proof. unfold wp, mbind, ret. now destruct (m s). Qed.

Ltac mflat :=
  repeat lazymatch goal with
         | |- wp (mbind (mbind _ _) _) _ _ => apply wp_assoc; cbv beta
         end.

(** Resolve a leading [read] with a [cell] hypothesis about the current store. *)
Ltac mread :=
  mflat;
  lazymatch goal with
  | |- wp (mbind (read ?l) _) ?s _ =>
      match goal with
      | H : cell s l _ |- _ => apply (wp_read _ _ _ _ _ H); cbv beta
      end
  end.

(** Bounds on references that [lia] can use. *)
Ltac cell_bounds :=
  repeat match goal with
         | H : cell ?s ?l ?v |- _ =>
             lazymatch goal with
             | _ : l < length (heap s) |- _ => fail
             | _ => pose proof (cell_lt _ _ _ H)
             end
         end.

(** Carry the [cell] facts from store [s] over to the store a step led to. *)
Ltac carry_unchanged s HU :=
  cell_bounds;
  repeat match goal with
         | H : cell s ?l ?v |- _ =>
             apply (unchanged_below_cell _ _ _ _ _ HU) in H; [|lia]
         end.

Ltac carry_heap_eq s HE :=
  repeat match goal with
         | H : cell s ?l ?v |- _ => apply (cell_heap_eq _ _ _ _ HE) in H
         end.

Ltac carry_only_changed s HC :=
  cell_bounds;
  repeat match goal with
         | H : cell s ?l ?v |- _ =>
             apply (only_changed_cell _ _ _ _ _ HC) in H; [|lia]
         end.

Lemma reach_next n m good s0 s s' :
  reach n good s0 s -> unchanged_below m s s' -> n <= m -> trace s' = trace s ->
  reach n good s0 s'.
Proof.
  intros R U Hm T. eapply reach_step; [exact R | | exact T].
  eapply unchanged_below_le; eassumption.
Qed.

(** The steps below keep one hypothesis [reach n good s0 s] about the
    current store [s] and move the [cell] facts along. *)

Ltac new_reach s s' U T side :=
  match goal with
  | R : reach ?n ?good ?s0 s |- _ =>
      let R' := fresh "R" in
      assert (R' : reach n good s0 s')
        by (eapply reach_next;
            [exact R | exact U | (pose proof (reach_len _ _ _ _ R); side) | exact T]);
      clear R
  end.

Ltac fail_branch :=
  let e := fresh "e" in
  let He := fresh "He" in
  intros e He; apply block_fail; assumption.

Tactic Notation "mfresh" ident(v) ident(s') ident(E) :=
  mflat;
  lazymatch goal with
  | |- wp (mbind (fresh _) _) ?s _ =>
      apply wp_fresh; [|fail_branch];
      let C := fresh "C" in
      let L := fresh "L" in
      let T := fresh "T" in
      let U := fresh "U" in
      intros v s' E C L T U;
      new_reach s s' U T ltac:(lia);
      carry_unchanged s U
  end.

Tactic Notation "malloc" ident(s') :=
  mflat;
  lazymatch goal with
  | |- wp (mbind (alloc _) _) ?s _ =>
      apply wp_alloc;
      let C := fresh "C" in
      let L := fresh "L" in
      let T := fresh "T" in
      let U := fresh "U" in
      intros s' C L T U;
      new_reach s s' U T ltac:(lia);
      carry_unchanged s U
  end.

Tactic Notation "mlift" ident(v) ident(E) :=
  mflat;
  lazymatch goal with
  | |- wp (mbind (lift _) _) _ _ =>
      apply wp_lift; [intros v E | fail_branch]
  end.

Tactic Notation "minplace" ident(v') ident(s') ident(E) :=
  mflat;
  lazymatch goal with
  | |- wp (mbind (inplace ?l _) _) ?s _ =>
      match goal with
      | H : cell s l _ |- _ =>
          apply (wp_inplace _ _ _ _ _ _ H); [|fail_branch];
          let C := fresh "C" in
          let O := fresh "O" in
          let T := fresh "T" in
          let U := fresh "U" in
          intros v' s' E C O T U;
          pose proof (proj1 O);
          new_reach s s' U T ltac:(cell_bounds; lia);
          carry_only_changed s O
      end
  end.

(** [memit s'] leaves the obligation that the event is good. *)
Tactic Notation "memit" ident(s') :=
  mflat;
  lazymatch goal with
  | |- wp (mbind (emit ?e) _) ?s _ =>
      apply wp_emit;
      let HE := fresh "HE" in
      let T := fresh "T" in
      intros s' HE T;
      match goal with
      | R : reach ?n ?good ?s0 s |- _ =>
          let R' := fresh "R" in
          assert (R' : reach n good s0 s');
          [ apply (reach_emit _ _ _ _ _ e R); [ | exact HE | exact T] | clear R ]
      end;
      [ | pose proof (f_equal (@length tensor) HE); carry_heap_eq s HE ]
  end.

Lemma bind_ok {A B} (r : res A) (k : A -> res B) b :
  bind r k = Ok b -> exists a, r = Ok a /\ k a = Ok b.
Proof. destruct r as [a|e]; cbn; [eauto | discriminate]. Qed.

Lemma getitem_val specs t r :
  getitem specs t = Ok r ->
  forall idx, val r idx = val t (src_index specs (shape t) idx).
Proof.
  unfold getitem. intros H. apply bind_ok in H as (s & _ & H).
  injection H as <-. reflexivity.
Qed.

(** *** DADN.forward *)

Lemma DADN_forward_spec cfg DL head good k y phi s yv pv :
  cell s y yv -> cell s phi pv ->
  wp (DADN_forward cfg DL head k y phi) s
     (block_post (length (heap s)) good s
        (fun '(Phi, mu, nl) s' =>
           (length (heap s) <= Phi /\ length (heap s) <= mu /\ length (heap s) <= nl) /\
           (exists Pv, cell s' Phi Pv /\ dadn_refine cfg DL k yv pv = Ok Pv) /\
           (exists mv, cell s' mu mv /\ forall idx, (0 < val mv idx)%R) /\
           (exists nv, cell s' nl nv))).
Proof.
  intros Hy Hp.
  assert (R0 : reach (length (heap s)) good s s) by (apply reach_refl; lia).
  unfold DADN_forward.
  mread. mread. mfresh phi_r s1 E1.
  mread. mread. mfresh Pv s2 E2.
  minplace rv s3 E3.
  mread. mfresh xv s4 E4.
  mread. mfresh mv s5 E5.
  mread. mfresh nv s6 E6.
  apply wp_ret. apply block_done; [assumption|].
  split; [lia|]. split; [|split].
  - exists Pv. split; [assumption|]. unfold dadn_refine.
    apply bind_ok in E1 as (inp & -> & E1). cbn [bind]. rewrite E1. exact E2.
  - exists mv. split; [assumption|]. intros idx.
    rewrite (getitem_val _ _ _ E5).
    apply bind_ok in E4 as (h0 & _ & E4). injection E4 as <-. cbn [val tmap].
    match goal with |- (0 < softplus ?a + eps)%R => pose proof (softplus_pos a) end.
    pose proof eps_pos. lra.
  - exists nv. assumption.
Qed.

Lemma wp_read_any {A} l (k : tensor -> M A) s Q :
  (forall v, cell s l v -> wp (k v) s Q) ->
  Q (Fail RuntimeError s) ->
  wp (mbind (read l) k) s Q.
Proof.
  intros HO HF. unfold wp, mbind, read.
  destruct (nth_error (heap s) l) as [v|] eqn:E; [now apply HO | exact HF].
Qed.

(** Running a block whose contract is stated from its own start. *)
Lemma wp_block {A B} (m : M A) (k : A -> M B) n m_n good s0 s
      (P : A -> store -> Prop) (Q : B -> store -> Prop) :
  wp m s (block_post m_n good s P) ->
  reach n good s0 s -> n <= m_n ->
  (forall a s', reach n good s0 s' -> unchanged_below m_n s s' -> P a s' ->
                wp (k a) s' (block_post n good s0 Q)) ->
  wp (mbind m k) s (block_post n good s0 Q).
Proof.
  intros Hm R Hn Hk. eapply wp_bind; [exact Hm | |].
  - intros a s' [R' HP]. cbn [final_store] in R'. apply Hk; [|apply R'|exact HP].
    eapply reach_trans; [exact R|]. eapply reach_weaken; [|exact R'].
    assumption.
  - intros e s' [R' _]. cbn [final_store] in R'. apply block_fail.
    eapply reach_trans; [exact R|]. eapply reach_weaken; [|exact R']. assumption.
Qed.

Lemma wp_rebase {A} (m : M A) n m_n good s0 s (P P' : A -> store -> Prop) :
  wp m s (block_post m_n good s P) ->
  reach n good s0 s -> n <= m_n ->
  (forall a s', P a s' -> unchanged_below m_n s s' -> P' a s') ->
  wp m s (block_post n good s0 P').
Proof.
  unfold wp. intros Hm R Hn HP. destruct (m s) as [a s'|e s']; destruct Hm as [R' H];
    cbn [final_store] in R'.
  - apply block_done.
    + eapply reach_trans; [exact R|]. eapply reach_weaken; [|exact R']. assumption.
    + apply HP; [exact H | apply R'].
  - apply block_fail.
    eapply reach_trans; [exact R|]. eapply reach_weaken; [|exact R']. assumption.
Qed.

Lemma mfor_spec {S} n0 good s0 (Inv : nat -> S -> store -> Prop) body N :
  (forall i st s, i < N -> reach n0 good s0 s -> Inv i st s ->
                  wp (body i st) s (block_post n0 good s0 (Inv (Datatypes.S i)))) ->
  forall st s,
  reach n0 good s0 s -> Inv 0 st s ->
  wp (mfor N st body) s (block_post n0 good s0 (Inv N)).
Proof.
  induction N as [|k IH]; intros Hbody st s R HI.
  - apply wp_ret. now apply block_done.
  - cbn [mfor]. eapply wp_bind.
    + apply IH; [|exact R|exact HI]. intros i st' s' Hi. apply Hbody. lia.
    + intros st' s' [R' HI']. apply Hbody; [lia|exact R'|exact HI'].
    + intros e s' [R' _]. now apply block_fail.
Qed.

(** ** The stages of [forward_test] *)

Section Stages.

Variable cfg : config.
Variables (fusion_weight : nat -> nat -> R) (fusion_bias : nat -> R).
Variables DL head LNLT_net : nat -> tensor -> list nat -> R.
Variables phi0 y0 : tensor.

Let good := event_ok cfg DL phi0 y0.

Lemma stage_params_spec phi i st s zv :
  cell s (z st) zv -> cell s phi phi0 ->
  wp (stage_params cfg DL head phi i st) s
     (block_post (length (heap s)) good s
        (fun '(Phi, mu, nl) s' =>
           (exists Pv, cell s' Phi Pv /\ stage_mask cfg DL i zv phi0 = Ok Pv) /\
           (exists mv, cell s' mu mv /\ forall idx, (0 < val mv idx)%R) /\
           (exists nv, cell s' nl nv))).
Proof.
  intros Hz Hp.
  assert (R0 : reach (length (heap s)) good s s) by (apply reach_refl; lia).
  unfold stage_params.
  mread. mread. memit s1; [reflexivity|].
  eapply wp_block;
    [ apply (DADN_forward_spec cfg DL head good (instance cfg i) (z st) phi s1 zv phi0);
      assumption
    | eassumption | lia | ].
  intros [[Phi mu] nl] s2 Rb Ub (HB & (Pv & CP & EP) & (mv & Cm & Hm) & (nv & Cn)).
  carry_unchanged s1 Ub.
  destruct (WITH_MU cfg) eqn:EMU.
  - apply wp_ret_bind. apply wp_ret. apply block_done; [assumption|].
    split; [|split].
    + unfold stage_mask. destruct (WITH_DL cfg); eauto.
    + eauto.
    + eauto.
  - malloc s3. apply wp_ret. apply block_done; [assumption|].
    split; [|split].
    + unfold stage_mask. destruct (WITH_DL cfg); eauto.
    + eexists. split; [eassumption|]. intros idx. cbn. apply eps_pos.
    + eauto.
Qed.

Lemma stage_gradient_spec y Phi mu i st s zv zh Pv mv :
  cell s (z st) zv -> cell s (z_hat st) zh -> cell s y y0 ->
  cell s Phi Pv -> cell s mu mv ->
  (i = 0 -> zh = zv) ->
  stage_mask cfg DL i zv phi0 = Ok Pv ->
  (forall idx, (0 < val mv idx)%R) ->
  wp (stage_gradient y Phi mu i st) s
     (block_post (length (heap s)) good s
        (fun x s' => length (heap s) <= x /\ exists xv, cell s' x xv)).
Proof.
  intros Hz Hzh Hy HP Hm H0 HM Hpos.
  assert (R0 : reach (length (heap s)) good s s) by (apply reach_refl; lia).
  unfold stage_gradient.
  mread. mfresh e0 s1 E1.
  minplace Psv s2 E2.
  mread. mread. mfresh Pz s3 E3.
  mread. mread. mread. mread. mread. mread.
  mlift xv E4. mread.
  memit s4.
  { cbn. repeat split; try assumption.
    - unfold band_energy. rewrite E1. cbn [bind]. exact E2.
    - unfold data_consistency. rewrite E3. cbn [bind]. exact E4. }
  apply wp_last. malloc s5. apply wp_ret. apply block_done; [assumption|].
  split; [lia|]. eauto.
Qed.

Lemma stage_prior_spec x nl W_ i s xv nv :
  cell s x xv -> cell s nl nv -> nl < x ->
  wp (stage_prior cfg LNLT_net x nl W_ i) s
     (block_post x good s
        (fun z2 s' => length (heap s) <= z2 /\ exists v, cell s' z2 v)).
Proof.
  intros Hx Hn Hlt.
  assert (R0 : reach x good s s) by (apply reach_refl; apply cell_lt in Hx; lia).
  unfold stage_prior, shift_back_3d_ref, shift_3d_ref.
  minplace xv' s1 E1.
  mread. mlift xc E2.
  mread. mlift h E3. mlift w E4. mlift nlr E5.
  destruct (negb (WITH_NOISE_LEVEL cfg)).
  - mfresh z1 s2 E6. mread. apply wp_last. mfresh z2 s3 E7.
    apply wp_ret. apply block_done; [assumption|]. split; [lia|]. eauto.
  - mfresh z1 s2 E6. mread. apply wp_last. mfresh z2 s3 E7.
    apply wp_ret. apply block_done; [assumption|]. split; [lia|]. eauto.
Qed.

Lemma neg_index_last {A} (l : list A) a : neg_index (l ++ [a]) 1 = Ok a.
Proof. unfold neg_index. now rewrite rev_app_distr. Qed.

Lemma neg_index_before_last {A} (l : list A) a :
  neg_index (l ++ [a]) 2 = neg_index l 1.
Proof. unfold neg_index. now rewrite rev_app_distr. Qed.

Lemma getitem_beta i W bi :
  getitem [IAt i] (full [W; 1] (1 / 2)%R) = Ok bi -> bi = full [1] (1 / 2)%R.
Proof.
  unfold getitem. cbn [shape full sel_shape].
  destruct (i <? W); cbn [bind]; [|discriminate].
  now intros [= <-].
Qed.

Lemma stage_momentum_spec beta z2 i st s zv2 zold W :
  cell s z2 zv2 -> cell s beta (full [W; 1] (1 / 2)%R) -> cell s (z st) zold ->
  neg_index (z_list st) 1 = Ok (z st) ->
  wp (stage_momentum beta z2 i st) s
     (block_post (length (heap s)) good s
        (fun st' s' =>
           z st' = z2 /\ z_list st' = z_list st ++ [z2] /\
           length (heap s) <= z_hat st' /\ exists zh, cell s' (z_hat st') zh)).
Proof.
  intros Hz2 Hb Hz Hl.
  assert (R0 : reach (length (heap s)) good s s) by (apply reach_refl; lia).
  unfold stage_momentum.
  mread. mread. mlift bi E1. apply getitem_beta in E1. subst bi.
  mlift l1 E2. rewrite neg_index_last in E2. injection E2 as <-. mread.
  mlift l2 E3. rewrite neg_index_before_last, Hl in E3. injection E3 as <-. mread.
  mlift r E4.
  memit s1; [exact E4|].
  malloc s2. apply wp_ret. apply block_done; [assumption|].
  cbn [z z_hat z_list]. repeat split; [lia|]. eauto.
Qed.

Lemma cell_fun s l v v' : cell s l v -> cell s l v' -> v = v'.
Proof. unfold cell. congruence. Qed.

Lemma stage_spec n0 y phi beta W W_ i st s :
  loop_inv n0 beta W i st s -> cell s y y0 -> cell s phi phi0 ->
  n0 <= length (heap s) ->
  wp (stage cfg DL head LNLT_net y phi beta W_ i st) s
     (block_post (length (heap s)) good s (loop_inv n0 beta W (S i))).
Proof.
  intros ((zv & Hz) & (zh & Hzh) & Hb & Hl & Hn0 & H0) Hy Hp Hn.
  assert (R0 : reach (length (heap s)) good s s) by (apply reach_refl; lia).
  unfold stage.
  eapply wp_block;
    [ apply (stage_params_spec phi i st s zv); assumption | exact R0 | lia | ].
  intros [[Phi mu] nl] s1 R1 U1 ((Pv & CP & EP) & (mv & Cm & Hm) & (nv & Cn)).
  carry_unchanged s U1.
  eapply wp_block;
    [ apply (stage_gradient_spec y Phi mu i st s1 zv zh Pv mv); try assumption
    | exact R1 | destruct U1; lia | ].
  { intros Hi. specialize (H0 Hi). rewrite H0 in Hzh. eapply cell_fun; eassumption. }
  intros x s2 R2 U2 (Hx & xv & Cx).
  carry_unchanged s1 U2.
  eapply wp_block;
    [ apply (stage_prior_spec x nl W_ i s2 xv nv); try assumption; cell_bounds; lia
    | exact R2 | destruct U1; lia | ].
  intros z2 s3 R3 U3 (Hz2 & zv2 & Cz2).
  cell_bounds.
  repeat match goal with
         | H : cell s2 ?l ?v |- _ =>
             apply (unchanged_below_cell _ _ _ _ _ U3) in H; [|lia]
         end.
  eapply wp_rebase;
    [ apply (stage_momentum_spec beta z2 i st s3 zv2 zv W); assumption
    | exact R3 | destruct U1, U2, U3; lia | ].
  intros st' s4 (Ez & El & Hzh' & zh' & Czh') U4.
  carry_unchanged s3 U4.
  unfold loop_inv. rewrite Ez, El. repeat split.
  - eauto.
  - eauto.
  - assumption.
  - apply neg_index_last.
  - destruct U1, U2; lia.
  - discriminate.
Qed.

Lemma initial_spec y phi s :
  cell s y y0 -> cell s phi phi0 ->
  wp (initial cfg fusion_weight fusion_bias y phi) s
     (block_post (length (heap s)) good s
        (fun z0 s' => length (heap s) <= z0 /\ exists v, cell s' z0 v)).
Proof.
  intros Hy Hp.
  assert (R0 : reach (length (heap s)) good s s) by (apply reach_refl; lia).
  unfold initial.
  mread. mlift sh E1. destruct sh as [[[bs nC] row] col]. cbv beta iota.
  mfresh ys0 s1 E2.
  eapply wp_bind.
  - apply (mfor_spec (length (heap s)) good s
             (fun _ l s' => l = length (heap s) /\ (exists v, cell s' l v) /\
                            cell s' y y0 /\ cell s' phi phi0)).
    + intros i l s' Hi R' (-> & (v & Cv) & Cy & Cp). cbv zeta.
      mread. apply wp_last. minplace v' s2 E3.
      apply wp_ret. apply block_done; [assumption|]. eauto 6.
    + eassumption.
    + eauto 6.
  - intros l s2 (Rb & -> & (v & Cv) & Cy & Cp). cbn [final_store] in Rb.
    pose proof (reach_len _ _ _ _ Rb).
    mread. mread. apply wp_last. mfresh z0 s3 E4.
    apply wp_ret. apply block_done; [assumption|].
    split; [lia|eauto].
  - intros e s2 (Rb & _). now apply block_fail.
Qed.

(** Every run of [forward_test] from a store whose mask and measurement
    objects hold [phi0] and [y0]: whether it returns or raises, no object of
    the initial store has changed, and every recorded event is as
    [event_ok] says. *)
Lemma forward_test_spec d s :
  cell s (data_Y d) y0 -> cell s (data_mask d) phi0 ->
  wp (forward_test cfg fusion_weight fusion_bias DL head LNLT_net d) s
     (block_post (length (heap s)) good s (fun _ _ => True)).
Proof.
  intros Hy Hp.
  assert (Hy0 : nth_error (heap s) (data_Y d) = Some y0) by exact Hy.
  assert (Hp0 : nth_error (heap s) (data_mask d) = Some phi0) by exact Hp.
  assert (R0 : reach (length (heap s)) good s s) by (apply reach_refl; lia).
  unfold forward_test. cbv zeta.
  eapply wp_block; [apply initial_spec; assumption | exact R0 | lia |].
  intros z0 s1 R1 U1 (Hz0 & v0 & Cz0).
  carry_unchanged s U1.
  mread. mlift sh E1. destruct sh as [[[? ?] ?] W]. cbv beta iota.
  mflat. apply wp_read_any; [|now apply block_fail]. intros xv Cx.
  mlift sh' E2. destruct sh' as [[[? ?] ?] W_]. cbv beta iota.
  malloc s2.
  eapply wp_bind.
  - apply (mfor_spec (length (heap s)) good s
             (loop_inv (length (heap s)) (length (heap s1)) W)).
    + intros i st s' Hi R' HI.
      eapply wp_rebase.
      * apply (stage_spec (length (heap s)) (data_Y d) (data_mask d)
                 (length (heap s1)) W W_ i st s' HI).
        -- eapply reach_cell; [exact R' | | exact Hy0]. eapply cell_lt; exact Hy0.
        -- eapply reach_cell; [exact R' | | exact Hp0]. eapply cell_lt; exact Hp0.
        -- eapply reach_len; exact R'.
      * exact R'.
      * eapply reach_len; exact R'.
      * intros st' s'' HI' _. exact HI'.
    + eassumption.
    + unfold loop_inv. cbn [z z_hat z_list]. repeat split; eauto.
  - intros st s3 (Rb & (zv & Cz) & _ & _ & _ & Hn & _). cbn [final_store] in Rb.
    unfold shift_back_3d_ref.
    minplace zv' s4 E3. mread. mlift zc E4. apply wp_last. mlift out E5.
    apply wp_ret. now apply block_done.
  - intros e s3 (Rb & _). now apply block_fail.
Qed.

End Stages.

(** The same, for a run from the objects [h] with an empty trace. *)
Lemma run_forward_test_spec cfg fw fb DL head net h d phi0 y0 :
  nth_error h (data_Y d) = Some y0 ->
  nth_error h (data_mask d) = Some phi0 ->
  let s' := final_store (run_forward_test cfg fw fb DL head net h d) in
  (forall l, l < length h -> nth_error (heap s') l = nth_error h l) /\
  Forall (event_ok cfg DL phi0 y0) (trace s').
Proof.
  intros Hy Hp s'.
  pose proof (forward_test_spec cfg fw fb DL head net phi0 y0 d (mkStore h []) Hy Hp) as H.
  unfold wp in H. destruct H as [(_ & (_ & HU) & evs & HT & HG) _].
  split; [exact HU|].
  unfold s', run_forward_test. cbn [trace app] in HT. now rewrite HT.
Qed.

(** ** The data-consistency step, entry by entry *)

Lemma binop_inv f a b c :
  binop f a b = Ok c ->
  broadcast_shapes (shape a) (shape b) = Some (shape c) /\
  forall idx, val c idx = f (val a (bidx (shape a) idx)) (val b (bidx (shape b) idx)).
Proof.
  unfold binop. destruct (broadcast_shapes (shape a) (shape b)) as [s|]; [|discriminate].
  intros [= <-]. split; reflexivity.
Qed.

Lemma sum_dim_inv d t r :
  sum_dim d t = Ok r ->
  shape r = firstn d (shape t) ++ skipn (S d) (shape t) /\
  forall idx, val r idx =
    sum_n (nth d (shape t) 0) (fun c => val t (firstn d idx ++ c :: skipn d idx)).
Proof.
  unfold sum_dim. destruct (d <? length (shape t)); [|discriminate].
  intros [= <-]. split; reflexivity.
Qed.

Lemma band_energy_inv Pv Psv :
  band_energy Pv = Ok Psv ->
  exists e, sum_dim 1 (tmap (fun v => v ^ 2)%R Pv) = Ok e /\
            shape Psv = shape e /\
            forall idx, val Psv idx =
              if Req_dec_T (val e idx) 0 then 1%R else val e idx.
Proof.
  unfold band_energy. intros H. apply bind_ok in H as (e & He & H).
  injection H as <-. exists e. repeat split; auto.
Qed.

Lemma band_energy_entries Pv Psv B C H W :
  band_energy Pv = Ok Psv -> shape Pv = [B; C; H; W] ->
  shape Psv = [B; H; W] /\
  forall b h w, val Psv [b; h; w] = band_energy_entry Pv C b h w.
Proof.
  intros HE HP. apply band_energy_inv in HE as (e & He & Hs & Hv).
  apply sum_dim_inv in He as (Hse & Hev). cbn [shape tmap] in Hse, Hev.
  rewrite HP in Hse, Hev. cbn in Hse. split; [congruence|].
  intros b h w. rewrite Hv, Hev. reflexivity.
Qed.

Lemma broadcast_shapes_column B H W :
  broadcast_shapes [B; 1; 1] [B; H; W] = Some [B; H; W].
Proof.
  unfold broadcast_shapes. cbn. rewrite Nat.eqb_refl.
  destruct H as [|[|H]]; destruct W as [|[|W]]; reflexivity.
Qed.

Lemma tadd_column mv Psv B H W :
  shape mv = [B; 1; 1] -> shape Psv = [B; H; W] ->
  exists den, tadd mv Psv = Ok den /\ shape den = [B; H; W] /\
    forall b h w, b < B -> h < H -> w < W ->
      val den [b; h; w] = (val mv [b; 0%nat; 0%nat] + val Psv [b; h; w])%R.
Proof.
  intros Hm HP. unfold tadd, binop. rewrite Hm, HP, broadcast_shapes_column.
  eexists; split; [reflexivity|]. split; [reflexivity|].
  intros b h w Hb Hh Hw. cbn [val].
  rewrite (bidx_inb [B; H; W]) by (cbn; tauto).
  unfold bidx. cbn.
  destruct (Nat.eqb_spec B 1) as [->|_]; [|reflexivity].
  replace b with 0 by lia. reflexivity.
Qed.

(** ** C8: what every stage of a run does with the mask *)

Lemma event_ok_mask cfg DL phi0 y0 ev :
  event_ok cfg DL phi0 y0 ev -> mask_is_local cfg DL phi0 ev.
Proof.
  destruct ev as [| i zv zh Pv mv Psv yv xv |]; cbn; auto. tauto.
Qed.

(** C8. In every run, whether it returns or raises: the mask object (like
    every object of the initial store) is never overwritten, the DADN call
    of every stage receives the input mask, and the mask a stage computes
    with is obtained from the input mask and that stage's estimate only. *)
Theorem forward_test_mask_local cfg fw fb DL head net h d phi0 y0 :
  nth_error h (data_Y d) = Some y0 ->
  nth_error h (data_mask d) = Some phi0 ->
  let s' := final_store (run_forward_test cfg fw fb DL head net h d) in
  nth_error (heap s') (data_mask d) = Some phi0 /\
  (forall l, l < length h -> nth_error (heap s') l = nth_error h l) /\
  Forall (mask_is_local cfg DL phi0) (trace s').
Proof.
  intros Hy Hp s'.
  destruct (run_forward_test_spec cfg fw fb DL head net h d phi0 y0 Hy Hp) as [HU H].
  fold s' in HU, H. split; [|split].
  - rewrite HU; [exact Hp|]. apply nth_error_Some. congruence.
  - exact HU.
  - eapply Forall_impl; [|exact H]. intros ev. apply event_ok_mask.
Qed.

Lemma forward_test_mask_local_witness :
  let s' := final_store (demo_run 2 1%R) in
  nth_error (heap s') 1 = Some (full [1; 2; 16; 18] 1%R) /\
  (forall l, l < 3 -> nth_error (heap s') l = nth_error (demo_heap 1%R) l) /\
  Forall (mask_is_local (demo_cfg 2) zero_layers (full [1; 2; 16; 18] 1%R)) (trace s').
Proof.
  apply (forward_test_mask_local (demo_cfg 2) zero_weight zero_bias zero_layers
           zero_layers LNLT_residual (demo_heap 1%R) demo_data
           (full [1; 2; 16; 18] 1%R) (full [1; 16; 18] 1%R)); reflexivity.
Defined.

(** C3 fails on the code when there are more stages than mask columns:
    [beta] has one row per column of the mask and is indexed by the stage.
    With a mask of width 18 and 19 stages, stages 0..17 complete and the
    momentum update of stage 18 raises [IndexError] at [beta[18]]. *)
Lemma forward_test_beta_index_error :
  outcome_error (demo_run 19 1%R) = Some IndexError /\
  length (trace (final_store (demo_run 19 1%R))) = 56 /\
  map event_tag (skipn 51 (trace (final_store (demo_run 19 1%R)))) =
    [(TDADN, 17); (TGrad, 17); (TMomentum, 17); (TDADN, 18); (TGrad, 18)].
Proof. vm_compute. repeat split. Qed.

(** ** C9: what [forward_test] rejects, and where *)

Lemma shape4_inv t b c h w : shape4 t = Ok (b, c, h, w) -> shape t = [b; c; h; w].
Proof.
  unfold shape4. destruct (shape t) as [|? [|? [|? [|? [|? ?]]]]]; try discriminate.
  now intros [= -> -> -> ->].
Qed.

Lemma setitem_shape specs t v r : setitem specs t v = Ok r -> shape r = shape t.
Proof.
  unfold setitem. intros H. apply bind_ok in H as (rs & _ & H).
  destruct (expandable (shape v) rs); [|discriminate]. now injection H as <-.
Qed.

Lemma cat_fusion_rejects cin cout wt bias a b bs nC row col r :
  shape a = [bs; nC; row; col] -> shape b = [bs; nC; row; col] ->
  (c <- cat 1 a b ;; conv1x1 cin cout wt bias c) = Ok r ->
  nC + nC = cin.
Proof.
  intros Ha Hb H. apply bind_ok in H as (c & Hc & H).
  unfold cat in Hc. rewrite Ha, Hb in Hc. cbn in Hc.
  destruct (_ && _) in Hc; [|discriminate]. injection Hc as <-.
  unfold conv1x1, conv_stack in H. cbn [shape] in H.
  destruct (Nat.eqb_spec (nC + nC) cin) as [E|_]; [exact E | discriminate].
Qed.

Lemma initial_rejects cfg fw fb y phi s phi0 :
  cell s phi phi0 ->
  (forall B H W, shape phi0 <> [B; WAVE_LENS cfg; H; W]) ->
  wp (initial cfg fw fb y phi) s
     (block_post (length (heap s)) (fun _ => False) s (fun _ _ => False)).
Proof.
  intros Hp Hne.
  assert (R0 : reach (length (heap s)) (fun _ => False) s s) by (apply reach_refl; lia).
  unfold initial.
  mread. mlift sh E1. destruct sh as [[[bs nC] row] col]. cbv beta iota.
  apply shape4_inv in E1.
  mfresh ys0 s1 E2.
  assert (Hs0 : shape ys0 = [bs; nC; row; col]).
  { unfold zeros in E2. destruct (forallb _ _); [|discriminate].
    injection E2 as <-. cbn. now rewrite !Nat2Z.id. }
  eapply wp_bind.
  - apply (mfor_spec (length (heap s)) (fun _ => False) s
             (fun _ l s' => l = length (heap s) /\
                            (exists v, cell s' l v /\ shape v = [bs; nC; row; col]) /\
                            cell s' phi phi0)).
    + intros i l s' Hi R' (-> & (v & Cv & Hv) & Cp). cbv zeta.
      mflat. apply wp_read_any; [|now apply block_fail]. intros yv Cy.
      apply wp_last. minplace v' s2 E3.
      apply wp_ret. apply block_done; [assumption|].
      split; [reflexivity|]. split; [|assumption].
      exists v'. split; [assumption|].
      apply bind_ok in E3 as (g & _ & E3). apply setitem_shape in E3. congruence.
    + eassumption.
    + eauto 6.
  - intros l s2 (Rb & -> & (v & Cv & Hv) & Cp). cbn [final_store] in Rb.
    mread. mread. apply wp_last. mflat.
    apply wp_fresh; [|intros e He; now apply block_fail].
    intros z0 s3 E4 _ _ _ _. exfalso.
    apply (cat_fusion_rejects _ _ _ _ _ _ bs nC row col) in E4; [|assumption..].
    apply (Hne bs row col). rewrite E1. do 2 f_equal. lia.
  - intros e s2 (Rb & _). now apply block_fail.
Qed.




(** ** C1: the attention step without non-local attention *)

(** With [NON_LOCAL] off the attention module is [nn.Identity()], so the
    statement [x = x + Attention(x)] adds [x] to itself. *)
Lemma attention_step_identity blk x :
  exists r, attention_step false blk x = Ok r /\ shape r = shape x /\
    forall idx, inb (shape x) idx -> val r idx = (val x idx + val x idx)%R.
Proof.
  unfold attention_step, attention_module, Identity. cbn [bind].
  apply (binop_same_shape Rplus x x). reflexivity.
Qed.

(** C1 fails on the code: with [NON_LOCAL] off, the attention step turns
    the entry 1 into 2, and the whole sub-block (whose feed-forward module
    returns 0 here) returns 2 where the feed-forward residual alone would
    return 1. *)
Lemma attention_step_doubles :
  (exists r, attention_step false demo_block (full [1; 1; 1; 1] 1%R) = Ok r /\
             val r [0; 0; 0; 0] = 2%R) /\
  (exists r, LocalNonLocalBlock_forward false [demo_block] (full [1; 1; 1; 1] 1%R) = Ok r /\
             val r [0; 0; 0; 0] = 2%R).
Proof.
  split.
  - eexists. split; [reflexivity|]. cbn. lra.
  - eexists. split; [reflexivity|]. cbn. lra.
Qed.

(** ** Row-major offsets *)

Lemma numel_cons d s : numel (d :: s) = d * numel s.
Proof. reflexivity. Qed.

Lemma ravel_lt s idx : inb s idx -> ravel s idx < numel s.
Proof.
  revert idx; induction s as [|d s IH]; intros [|i idx]; cbn [inb ravel];
    try tauto; [cbn; lia|].
  intros [Hi Hr]. specialize (IH idx Hr). rewrite numel_cons. nia.
Qed.

Lemma unravel_ravel s idx : inb s idx -> unravel s (ravel s idx) = idx.
Proof.
  revert idx; induction s as [|d s IH]; intros [|i idx]; cbn [inb ravel unravel];
    try tauto.
  intros [Hi Hr]. pose proof (ravel_lt s idx Hr) as Hlt.
  rewrite Nat.div_add_l by lia. rewrite Nat.div_small by assumption.
  rewrite (Nat.add_comm (i * numel s)), Nat.Div0.mod_add, Nat.mod_small by assumption.
  rewrite IH by assumption. f_equal. lia.
Qed.

Lemma inb_unravel s n : n < numel s -> inb s (unravel s n).
Proof.
  revert n; induction s as [|d s IH]; intros n Hn; cbn [inb unravel]; [exact I|].
  rewrite numel_cons in Hn.
  assert (0 < numel s) by nia.
  split.
  - apply Nat.Div0.div_lt_upper_bound. lia.
  - apply IH. apply Nat.mod_upper_bound. lia.
Qed.

Lemma ravel_unravel s n : n < numel s -> ravel s (unravel s n) = n.
Proof.
  revert n; induction s as [|d s IH]; intros n Hn; cbn [ravel unravel].
  - cbn in Hn. lia.
  - rewrite numel_cons in Hn.
    assert (0 < numel s) by nia.
    rewrite IH by (apply Nat.mod_upper_bound; lia).
    pose proof (Nat.div_mod_eq n (numel s)). lia.
Qed.

(** The entry a view reads, when the offsets of two indices agree. *)
Lemma unravel_ravel_eq s s' idx idx' :
  inb s idx -> ravel s' idx' = ravel s idx -> unravel s (ravel s' idx') = idx.
Proof. intros Hin ->. now apply unravel_ravel. Qed.

Lemma view_ok s' t :
  numel s' = numel (shape t) ->
  view s' t = Ok (mkT s' (fun idx => val t (unravel (shape t) (ravel s' idx)))).
Proof. intros E. unfold view. now rewrite E, Nat.eqb_refl. Qed.

Lemma slice_start_nat k n : slice_start (Some (Z.of_nat k)) n = Nat.min k n.
Proof.
  unfold slice_start, norm_bound.
  destruct (Z.ltb_spec (Z.of_nat k) 0); [lia|]. now rewrite Nat2Z.id.
Qed.

(** ** Attention: padding of the token grid (lines 570-590) *)

(** *** One step of the tensor pipeline at a time *)

Lemma getitem_ok specs t s :
  sel_shape specs (shape t) = Ok s ->
  exists r, getitem specs t = Ok r /\ shape r = s /\
            forall idx, val r idx = val t (src_index specs (shape t) idx).
Proof. intros E. unfold getitem. rewrite E. cbn. eauto. Qed.

Lemma view_ex s' t :
  numel s' = numel (shape t) ->
  exists r, view s' t = Ok r /\ shape r = s' /\
            forall idx, val r idx = val t (unravel (shape t) (ravel s' idx)).
Proof. intros E. rewrite view_ok by assumption. eauto. Qed.

Lemma view_infer_ex dims s' t :
  infer_shape dims (numel (shape t)) = s' ->
  numel s' = numel (shape t) ->
  exists r, view_infer dims t = Ok r /\ shape r = s' /\
            forall idx, val r idx = val t (unravel (shape t) (ravel s' idx)).
Proof. intros E1 E2. unfold view_infer. rewrite E1. now apply view_ex. Qed.

Lemma pad_right_bottom_ex pad_r pad_b t b h w c :
  shape t = [b; h; w; c] ->
  exists r, pad_right_bottom pad_r pad_b t = Ok r /\
            shape r = [b; h + pad_b; w + pad_r; c] /\
            forall b' i j c', val r [b'; i; j; c'] =
              if (i <? h) && (j <? w) then val t [b'; i; j; c'] else 0%R.
Proof. intros E. unfold pad_right_bottom. rewrite E. eauto. Qed.

Lemma cat_tokens_ex x y B n1 n2 C :
  shape x = [B; n1; C] -> shape y = [B; n2; C] ->
  exists r, cat 1 x y = Ok r /\ shape r = [B; n1 + n2; C] /\
            forall b m c, val r [b; m; c] =
              if m <? n1 then val x [b; m; c] else val y [b; m - n1; c].
Proof.
  intros Ex Ey. unfold cat. rewrite Ex, Ey.
  cbn [firstn skipn length nth app].
  destruct (list_eq_dec Nat.eq_dec [B] [B]); [|congruence].
  destruct (list_eq_dec Nat.eq_dec [C] [C]); [|congruence].
  cbn [Nat.ltb Nat.leb Nat.eqb andb].
  eexists. split; [reflexivity|]. split; reflexivity.
Qed.

Lemma linear_tokens_ex cin cout wt bias t B N :
  shape t = [B; N; cin] ->
  exists r, linear cin cout wt bias t = Ok r /\ shape r = [B; N; cout] /\
            forall b m o, val r [b; m; o] =
              (sum_n cin (fun c => val t [b; m; c] * wt o c)
               + match bias with Some f => f o | None => 0 end)%R.
Proof.
  intros E. unfold linear. rewrite E. cbn [last]. rewrite Nat.eqb_refl.
  eexists. split; [reflexivity|]. split; reflexivity.
Qed.

Lemma split_permute_ex t d0 d1 d2 d3 d4 :
  shape t = [d0; d1; d2; d3; d4] ->
  exists r, permute [2; 0; 3; 1; 4] t = Ok r /\ shape r = [d2; d0; d3; d1; d4] /\
            forall i0 i1 i2 i3 i4,
              val r [i0; i1; i2; i3; i4] = val t [i1; i3; i0; i2; i4].
Proof.
  intros E. unfold permute. rewrite E. cbn.
  eexists. split; [reflexivity|]. split; reflexivity.
Qed.

Lemma slice_len_from k n : slice_len (Some (Z.of_nat k)) None (k + n) = n.
Proof.
  unfold slice_len. rewrite slice_start_nat. unfold slice_stop, norm_bound. lia.
Qed.

Lemma slice_len_upto_add k n : slice_len None (Some (Z.of_nat k)) (k + n) = k.
Proof. rewrite slice_len_upto. lia. Qed.

Lemma slice_start_from k n : slice_start (Some (Z.of_nat k)) (k + n) = k.
Proof. rewrite slice_start_nat. lia. Qed.

Lemma infer_div n k m : 0 < k -> m = n * k -> m / k = n.
Proof. intros Hk ->. apply Nat.div_mul. lia. Qed.

Tactic Notation "tstep" constr(L) "as" ident(r) ident(Hs) ident(Hv) :=
  destruct L as [r Hv];
  [.. | rewrite (proj1 Hv); cbn [bind]; apply proj2 in Hv; destruct Hv as [Hs Hv]].

(** C5 (as amended). The grid is padded with zeros on the right and at the
    bottom before the projection to queries, keys and values, so on the
    padded grid every padded token has, in each head, the projection bias as
    its query, key and value: zero for the bias-free projection the model
    uses.  Such a token adds nothing to the weighted sum of values of its
    window, but it is still one of the keys the softmax of the window is
    normalised over. *)
Theorem padded_qkv_padding_zero a x H W B hd :
  shape x = [B; num_tokens a + H * W; dim a] ->
  0 < B -> 0 < window_size a -> 0 < num_heads a -> 0 < hd ->
  dim a = num_heads a * hd ->
  exists q_img k_img v_img q_cls Hp Wp,
    padded_qkv a x H W = Ok (q_img, k_img, v_img, q_cls, (B, dim a, Hp, Wp)) /\
    Hp = H + (window_size a - H mod window_size a) mod window_size a /\
    Wp = W + (window_size a - W mod window_size a) mod window_size a /\
    shape q_img = [B; num_heads a; Hp * Wp; hd] /\
    shape k_img = [B; num_heads a; Hp * Wp; hd] /\
    shape v_img = [B; num_heads a; Hp * Wp; hd] /\
    forall b h n d, b < B -> h < num_heads a -> n < Hp * Wp -> d < hd ->
      H <= n / Wp \/ W <= n mod Wp ->
      let bias j := match qkv_bias a with
                    | Some f => f ((j * num_heads a + h) * hd + d)
                    | None => 0%R
                    end in
      val q_img [b; h; n; d] = bias 0 /\
      val k_img [b; h; n; d] = bias 1 /\
      val v_img [b; h; n; d] = bias 2.
Proof.
  intros Hx HB Hws Hh Hhd Hdim.
  set (ws := window_size a). set (NC := num_tokens a). set (C := dim a).
  set (Hp := H + (ws - H mod ws) mod ws). set (Wp := W + (ws - W mod ws) mod ws).
  unfold padded_qkv, shape3. rewrite Hx. cbn [bind].
  fold ws NC C.
  tstep (getitem_ok [IAll; ISlice (Some (Z.of_nat NC)) None] x [B; H * W; C]) as x0 Hs0 Hv0.
  { rewrite Hx. cbn [sel_shape bind IAll]. fold NC. now rewrite slice_len_all, slice_len_from. }
  tstep (getitem_ok [IAll; upto NC] x [B; NC; C]) as xg Hsg Hvg.
  { rewrite Hx. cbn [sel_shape bind IAll upto]. fold NC. now rewrite slice_len_all, slice_len_upto_add. }
  tstep (view_ex [B; H; W; C] x0) as x1 Hs1 Hv1.
  { rewrite Hs0. cbn. ring. }
  destruct (Nat.eqb_spec ws 0) as [E0|_]; [unfold ws in E0; lia|]. cbn [bind].
  tstep (pad_right_bottom_ex ((ws - W mod ws) mod ws) ((ws - H mod ws) mod ws) x1 B H W C Hs1)
    as x2 Hs2 Hv2.
  fold Hp Wp in Hs2.
  unfold dim_size. rewrite Hs2. cbn [nth_error bind].
  assert (HC : 0 < C) by (unfold C; nia).
  tstep (view_infer_ex [Some B; None; Some C] [B; Hp * Wp; C] x2) as x3 Hs3 Hv3.
  { rewrite Hs2. unfold infer_shape. cbn [map fold_right numel].
    f_equal. f_equal. apply infer_div; [nia | ring]. }
  { rewrite Hs2. cbn. ring. }
  tstep (cat_tokens_ex xg x3 B NC (Hp * Wp) C Hsg Hs3) as x4 Hs4 Hv4.
  tstep (linear_tokens_ex C (C * 3) (qkv_weight a) (qkv_bias a) x4 B (NC + Hp * Wp) Hs4)
    as x5 Hs5 Hv5.
  unfold split_heads.
  assert (Ehd : C / num_heads a = hd) by (apply infer_div; [lia | unfold C; lia]).
  rewrite Ehd.
  tstep (view_infer_ex [Some B; None; Some 3; Some (num_heads a); Some hd]
           [B; NC + Hp * Wp; 3; num_heads a; hd] x5) as x6 Hs6 Hv6.
  { rewrite Hs5. unfold infer_shape. cbn [map fold_right numel].
    f_equal. f_equal. apply infer_div; [nia | unfold C; rewrite Hdim; ring]. }
  { rewrite Hs5. cbn [numel fold_right]. unfold C. rewrite Hdim. ring. }
  tstep (split_permute_ex x6 _ _ _ _ _ Hs6) as x7 Hs7 Hv7.
  tstep (getitem_ok [IAt 0] x7 [B; num_heads a; NC + Hp * Wp; hd]) as q Hsq Hvq.
  { rewrite Hs7. reflexivity. }
  tstep (getitem_ok [IAt 1] x7 [B; num_heads a; NC + Hp * Wp; hd]) as k Hsk Hvk.
  { rewrite Hs7. reflexivity. }
  tstep (getitem_ok [IAt 2] x7 [B; num_heads a; NC + Hp * Wp; hd]) as v Hsv Hvv.
  { rewrite Hs7. reflexivity. }
  assert (Hcore : forall j b h n d, j < 3 -> b < B -> h < num_heads a ->
            n < Hp * Wp -> d < hd -> H <= n / Wp \/ W <= n mod Wp ->
            val x7 [j; b; h; NC + n; d] =
            match qkv_bias a with
            | Some f => f ((j * num_heads a + h) * hd + d)
            | None => 0%R
            end).
  { intros j b h n d Hj Hb Hh' Hn Hd Hpad.
    assert (HWp : 0 < Wp) by nia.
    rewrite Hv7, Hv6, Hs5.
    rewrite (unravel_ravel_eq [B; NC + Hp * Wp; C * 3] _
               [b; NC + n; (j * num_heads a + h) * hd + d]).
    2:{ cbn [inb]. repeat split; try lia. unfold C. rewrite Hdim. nia. }
    2:{ cbn [ravel numel fold_right]. unfold C. rewrite Hdim. ring. }
    rewrite Hv5.
    rewrite (sum_n_ext _ _ (fun _ => 0%R)), sum_n_zero; [apply Rplus_0_l|].
    intros c Hc. rewrite Hv4.
    destruct (Nat.ltb_spec (NC + n) NC) as [Hlt|_]; [lia|].
    replace (NC + n - NC) with n by lia.
    rewrite Hv3, Hs2.
    rewrite (unravel_ravel_eq [B; Hp; Wp; C] _ [b; n / Wp; n mod Wp; c]).
    2:{ cbn [inb]. repeat split; try lia.
        - apply Nat.Div0.div_lt_upper_bound. lia.
        - apply Nat.mod_upper_bound. lia. }
    2:{ cbn [ravel numel fold_right].
        pose proof (Nat.div_mod_eq n Wp) as Hdm. rewrite Hdm at 1. ring. }
    rewrite Hv2.
    destruct (Nat.ltb_spec (n / Wp) H), (Nat.ltb_spec (n mod Wp) W);
      cbn [andb]; try (apply Rmult_0_l); lia. }
  assert (Hsel : forall t, shape t = [B; num_heads a; NC + Hp * Wp; hd] ->
            exists r, getitem [IAll; IAll; ISlice (Some (Z.of_nat NC)) None] t = Ok r /\
                      shape r = [B; num_heads a; Hp * Wp; hd] /\
                      forall b h n d, val r [b; h; n; d] = val t [b; h; NC + n; d]).
  { intros t Ht.
    destruct (getitem_ok [IAll; IAll; ISlice (Some (Z.of_nat NC)) None] t
                [B; num_heads a; Hp * Wp; hd]) as (r & E & Hs & Hv).
    { rewrite Ht. cbn [sel_shape bind IAll].
      now rewrite !slice_len_all, slice_len_from. }
    exists r. split; [exact E|]. split; [exact Hs|].
    intros b h n d. rewrite Hv, Ht. cbn [src_index IAll].
    now rewrite slice_start_from. }
  tstep (Hsel q Hsq) as q_img Hsqi Hvqi.
  tstep (Hsel k Hsk) as k_img Hski Hvki.
  tstep (Hsel v Hsv) as v_img Hsvi Hvvi.
  tstep (getitem_ok [IAll; IAll; upto NC] q [B; num_heads a; NC; hd]) as q_cls Hsqc Hvqc.
  { rewrite Hsq. cbn [sel_shape bind IAll upto].
    now rewrite !slice_len_all, slice_len_upto_add. }
  exists q_img, k_img, v_img, q_cls, Hp, Wp.
  split; [reflexivity|]. do 2 (split; [reflexivity|]).
  do 3 (split; [assumption|]).
  intros b h n d Hb Hh' Hn Hd Hpad. cbn zeta.
  rewrite Hvqi, Hvki, Hvvi, Hvq, Hvk, Hvv, Hs7. cbn [src_index].
  repeat split; apply Hcore; auto.
Qed.

(** One image token and one global token, window size 2: three of the four
    tokens of the window are padding. *)
Lemma padded_qkv_padding_zero_witness :
  exists q_img k_img v_img q_cls Hp Wp,
    padded_qkv demo_attention demo_tokens 1 1
      = Ok (q_img, k_img, v_img, q_cls, (1, 1, Hp, Wp)) /\
    Hp = 2 /\ Wp = 2 /\
    shape q_img = [1; 1; Hp * Wp; 1] /\
    shape k_img = [1; 1; Hp * Wp; 1] /\
    shape v_img = [1; 1; Hp * Wp; 1] /\
    forall b h n d, b < 1 -> h < 1 -> n < Hp * Wp -> d < 1 ->
      1 <= n / Wp \/ 1 <= n mod Wp ->
      val q_img [b; h; n; d] = 0%R /\
      val k_img [b; h; n; d] = 0%R /\
      val v_img [b; h; n; d] = 0%R.
Proof.
  apply (padded_qkv_padding_zero demo_attention demo_tokens 1 1 1 1).
  - reflexivity.
  - lia.
  - cbn. lia.
  - cbn. lia.
  - lia.
  - reflexivity.
Defined.

Ltac exp0 :=
  repeat match goal with
         | |- context [exp ?a] =>
             lazymatch a with
             | 0%R => fail
             | _ => replace a with 0%R by ring
             end
         end;
  rewrite ?exp_0.

(** C5 fails on the code.  One image token of value 1 and a window of size 2:
    the grid is padded to 2 x 2, the softmax of the window is normalised over
    all four keys, and the image token of the output is 1/4; with the three
    padded tokens left out of the attention it is 1. *)
Lemma attention_padding_leaks :
  entry (Attention_forward demo_attention demo_tokens 1 1) [0; 1; 0] = Some (1 / 4)%R /\
  entry (Attention_forward_unpadded demo_attention demo_tokens 1 1) [0; 1; 0] = Some 1%R.
Proof.
  split.
  - cbv -[exp sqrt INR IZR Rdiv Rminus Rinv Rplus Rmult Ropp]. f_equal. exp0. field.
  - cbv -[exp sqrt INR IZR Rdiv Rminus Rinv Rplus Rmult Ropp]. f_equal. exp0. field.
Qed.

(** ** Attention: a single window (lines 528-554) *)

Lemma teq_refl a : teq a a.
Proof. split; reflexivity. Qed.

Lemma teq_sym a b : teq a b -> teq b a.
Proof.
  intros [Hs Hv]. split; [now symmetry|].
  intros idx Hin. symmetry. apply Hv. now rewrite Hs.
Qed.

Lemma teq_trans a b c : teq a b -> teq b c -> teq a c.
Proof.
  intros [Hs Hv] [Hs' Hv']. split; [congruence|].
  intros idx Hin. rewrite Hv by assumption. apply Hv'. now rewrite <- Hs.
Qed.

Lemma permute_ex p t :
  length p = length (shape t) ->
  forallb (fun a => existsb (Nat.eqb a) p) (seq 0 (length p)) = true ->
  exists r, permute p t = Ok r /\
            shape r = map (fun k => nth k (shape t) 0) p /\
            forall idx, val r idx =
              val t (map (fun a => nth (index_of a p) idx 0) (seq 0 (length p))).
Proof.
  intros E1 E2. unfold permute. rewrite E1, Nat.eqb_refl, <- E1, E2. cbn [andb].
  eexists. split; [reflexivity|]. split; reflexivity.
Qed.

Lemma matmul_ex a b x y n k m :
  shape a = [x; y; n; k] -> shape b = [x; y; k; m] ->
  exists r, matmul a b = Ok r /\ shape r = [x; y; n; m] /\
            forall i j r' c, val r [i; j; r'; c] =
              sum_n k (fun l => val a [i; j; r'; l] * val b [i; j; l; c])%R.
Proof.
  intros Ea Eb. unfold matmul. rewrite Ea, Eb, !Nat.eqb_refl. cbn [andb].
  eexists. split; [reflexivity|]. split; reflexivity.
Qed.

Lemma broadcast_shapes_lead x y n m :
  broadcast_shapes [x; y; n; m] [1; y; n; m] = Some [x; y; n; m].
Proof.
  unfold broadcast_shapes. cbn [rev app bshape_rev]. rewrite !Nat.eqb_refl.
  destruct x as [|[|x]]; reflexivity.
Qed.

Lemma tadd_bias_ex t bias x y n m :
  shape t = [x; y; n; m] -> shape bias = [1; y; n; m] ->
  exists r, tadd t bias = Ok r /\ shape r = [x; y; n; m] /\
            forall idx, inb [x; y; n; m] idx ->
              val r idx = Rplus (val t idx) (val bias (bidx [1; y; n; m] idx)).
Proof.
  intros Et Eb. unfold tadd, binop. rewrite Et, Eb, broadcast_shapes_lead.
  eexists. split; [reflexivity|]. split; [reflexivity|].
  intros idx Hin. cbn [val]. now rewrite (bidx_inb _ _ Hin).
Qed.

Ltac idx4 idx Hin :=
  destruct idx as [|?i [|?j [|?r [|?c [|? ?]]]]]; cbn [inb] in Hin; try tauto.

Lemma getbias_ex a :
  0 < window_size a -> 0 < num_heads a ->
  exists b, get_relative_positional_bias a = Ok b /\
            shape b = [1; num_heads a; attn_area a; attn_area a].
Proof.
  intros Hws Hh. unfold get_relative_positional_bias.
  set (T := attn_area a). assert (HT : 0 < T) by (unfold T, attn_area; nia).
  set (g := mkT _ _).
  destruct (view_infer_ex [Some T; Some T; None] [T; T; num_heads a] g) as (b1 & E1 & Hs1 & _).
  { unfold infer_shape. cbn [map fold_right numel shape g].
    do 2 f_equal. f_equal. apply infer_div; [nia | ring]. }
  { cbn. ring. }
  rewrite E1. cbn [bind].
  destruct (permute_ex [2; 0; 1] b1) as (b2 & E2 & Hs2 & _);
    [now rewrite Hs1 | reflexivity |].
  rewrite E2. cbn [bind]. rewrite Hs1 in Hs2. cbn in Hs2.
  unfold unsqueeze. rewrite Hs2. cbn.
  eexists. split; reflexivity.
Qed.

Lemma softmax_teq t t' x y n m :
  shape t = [x; y; n; m] -> teq t t' -> teq (softmax t) (softmax t').
Proof.
  intros Es [Hs Hv].
  assert (Es' : shape t' = [x; y; n; m]) by congruence.
  split; [exact Hs|].
  cbn [softmax shape val]. rewrite Es in *. rewrite Es'. intros idx Hin.
  idx4 idx Hin. cbn [last removelast app].
  rewrite (Hv [i; j; r; c]) by (cbn [inb]; tauto).
  f_equal. apply sum_n_ext. intros l Hl.
  rewrite (Hv [i; j; r; l]) by (cbn [inb]; tauto). reflexivity.
Qed.

Lemma view_teq s t t' r r' :
  view s t = Ok r -> view s t' = Ok r' -> teq t t' -> teq r r'.
Proof.
  unfold view. intros E E' [Hs Hv]. rewrite <- Hs in E'.
  destruct (Nat.eqb_spec (numel s) (numel (shape t))) as [En|]; [|discriminate].
  injection E as <-. injection E' as <-. split; [reflexivity|].
  cbn [shape val]. intros idx Hin. apply Hv. apply inb_unravel.
  rewrite <- En. now apply ravel_lt.
Qed.

Lemma view_infer_teq dims t t' r r' :
  view_infer dims t = Ok r -> view_infer dims t' = Ok r' -> teq t t' -> teq r r'.
Proof.
  unfold view_infer. intros E E' Ht. pose proof Ht as [Hs _].
  rewrite <- Hs in E'. eapply view_teq; eassumption.
Qed.

Lemma attend_teq a bias q k v q' k' v' B h N C Cv :
  0 < B -> 0 < N ->
  shape q = [B; h; N; C] -> shape k = [B; h; N; C] -> shape v = [B; h; N; Cv] ->
  shape bias = [1; h; N; N] ->
  teq q q' -> teq k k' -> teq v v' ->
  exists x x',
    attend a (Some bias) q k v B N = Ok x /\
    attend a (Some bias) q' k' v' B N = Ok x' /\
    shape x = [B; N; h * Cv] /\ teq x x'.
Proof.
  intros HB HN Hq Hk Hv Hb Tq Tk Tv.
  assert (Hq' : shape q' = [B; h; N; C]) by (destruct Tq as [<- _]; assumption).
  assert (Hk' : shape k' = [B; h; N; C]) by (destruct Tk as [<- _]; assumption).
  assert (Hv' : shape v' = [B; h; N; Cv]) by (destruct Tv as [<- _]; assumption).
  unfold attend.
  (* k.transpose(-2, -1) *)
  tstep (permute_ex [0; 1; 3; 2] k) as kt Hs1 Hv1; [now rewrite Hk | reflexivity |].
  tstep (permute_ex [0; 1; 3; 2] k') as kt' Hs1' Hv1'; [now rewrite Hk' | reflexivity |].
  rewrite Hk in Hs1. rewrite Hk' in Hs1'. cbn [map nth] in Hs1, Hs1'.
  assert (T1 : teq kt kt').
  { split; [congruence|]. rewrite Hs1. intros idx Hin. idx4 idx Hin.
    rewrite Hv1, Hv1'. cbn. apply Tk. rewrite Hk. cbn [inb]. tauto. }
  (* q @ kt *)
  tstep (matmul_ex q kt B h N C N Hq Hs1) as m1 Hs2 Hv2.
  tstep (matmul_ex q' kt' B h N C N Hq' Hs1') as m1' Hs2' Hv2'.
  assert (T2 : teq m1 m1').
  { split; [congruence|]. rewrite Hs2. intros idx Hin. idx4 idx Hin.
    rewrite Hv2, Hv2'. apply sum_n_ext. intros l Hl.
    destruct Tq as [_ Tq], T1 as [_ T1].
    rewrite Tq by (rewrite Hq; cbn [inb]; tauto).
    rewrite T1 by (rewrite Hs1; cbn [inb]; tauto). reflexivity. }
  (* scale and bias *)
  set (f := fun e => (e * scale a)%R).
  tstep (tadd_bias_ex (tmap f m1) bias B h N N Hs2 Hb) as m2 Hs3 Hv3.
  tstep (tadd_bias_ex (tmap f m1') bias B h N N Hs2' Hb) as m2' Hs3' Hv3'.
  assert (T3 : teq m2 m2').
  { split; [congruence|]. rewrite Hs3. intros idx Hin.
    rewrite Hv3, Hv3' by assumption. cbn [tmap val]. destruct T2 as [_ T2].
    rewrite T2 by (now rewrite Hs2). reflexivity. }
  (* softmax and the weighted sum of values *)
  pose proof (softmax_teq m2 m2' B h N N Hs3 T3) as T4.
  tstep (matmul_ex (softmax m2) v B h N N Cv Hs3 Hv) as m3 Hs5 Hv5.
  tstep (matmul_ex (softmax m2') v' B h N N Cv Hs3' Hv') as m3' Hs5' Hv5'.
  assert (T5 : teq m3 m3').
  { split; [congruence|]. rewrite Hs5. intros idx Hin. idx4 idx Hin.
    rewrite Hv5, Hv5'. apply sum_n_ext. intros l Hl.
    destruct T4 as [_ T4], Tv as [_ Tv].
    rewrite T4 by (cbn [softmax shape]; rewrite Hs3; cbn [inb]; tauto).
    rewrite Tv by (rewrite Hv; cbn [inb]; tauto). reflexivity. }
  (* merge the heads *)
  tstep (permute_ex [0; 2; 1; 3] m3) as m4 Hs6 Hv6; [now rewrite Hs5 | reflexivity |].
  tstep (permute_ex [0; 2; 1; 3] m3') as m4' Hs6' Hv6'; [now rewrite Hs5' | reflexivity |].
  rewrite Hs5 in Hs6. rewrite Hs5' in Hs6'. cbn [map nth] in Hs6, Hs6'.
  assert (T6 : teq m4 m4').
  { split; [congruence|]. rewrite Hs6. intros idx Hin. idx4 idx Hin.
    rewrite Hv6, Hv6'. cbn. apply T5. rewrite Hs5. cbn [inb]. tauto. }
  assert (Einf : forall t, shape t = [B; N; h; Cv] ->
            exists r, view_infer [Some B; Some N; None] t = Ok r /\ shape r = [B; N; h * Cv]).
  { intros t Ht.
    destruct (view_infer_ex [Some B; Some N; None] [B; N; h * Cv] t) as (r & E & Hs & _).
    - rewrite Ht. unfold infer_shape. cbn [map fold_right numel].
      do 2 f_equal. f_equal. apply infer_div; [nia | ring].
    - rewrite Ht. cbn. ring.
    - eauto. }
  destruct (Einf m4 Hs6) as (x & Ex & Hsx).
  destruct (Einf m4' Hs6') as (x' & Ex' & Hsx').
  exists x, x'. repeat split; try assumption.
  - congruence.
  - destruct (view_infer_teq _ _ _ _ _ Ex Ex' T6) as [_ Hval]. exact Hval.
Qed.

Lemma div_mod_lt n ws : 0 < ws -> n < ws * ws -> n / ws < ws /\ n mod ws < ws.
Proof.
  intros Hws Hn. split.
  - now apply Nat.Div0.div_lt_upper_bound.
  - apply Nat.mod_upper_bound. lia.
Qed.

(** With one window per image the partition into windows changes nothing. *)
Lemma window_partition_single t B heads ws C :
  0 < B -> 0 < heads -> 0 < ws -> 0 < C ->
  shape t = [B; heads; ws * ws; C] ->
  exists r, window_partition B heads 1 1 ws C t = Ok r /\ teq r t.
Proof.
  intros HB Hh Hws HC Ht. unfold window_partition.
  tstep (view_infer_ex [Some B; Some heads; Some 1; Some ws; Some 1; Some ws; None]
           [B; heads; 1; ws; 1; ws; C] t) as t1 Hs1 Hv1.
  { rewrite Ht. unfold infer_shape. cbn [map fold_right numel].
    do 6 f_equal. f_equal. apply infer_div; [nia | ring]. }
  { rewrite Ht. cbn. ring. }
  tstep (permute_ex [0; 2; 4; 1; 3; 5; 6] t1) as t2 Hs2 Hv2;
    [now rewrite Hs1 | reflexivity |].
  rewrite Hs1 in Hs2. cbn [map nth] in Hs2.
  tstep (view_infer_ex [None; Some heads; Some (ws * ws); Some C]
           [B; heads; ws * ws; C] t2) as t3 Hs3 Hv3.
  { rewrite Hs2. unfold infer_shape. cbn [map fold_right numel].
    f_equal. apply infer_div; [nia | ring]. }
  { rewrite Hs2. cbn. ring. }
  exists t3. split; [reflexivity|]. split; [congruence|].
  rewrite Hs3. intros idx Hin. idx4 idx Hin.
  destruct Hin as (Hi & Hj & Hr & Hc & _).
  destruct (div_mod_lt r ws Hws Hr) as [Hd Hm].
  pose proof (Nat.div_mod_eq r ws) as Hdm.
  rewrite Hv3, Hs2.
  rewrite (unravel_ravel_eq [B; 1; 1; heads; ws; ws; C] _
             [i; 0; 0; j; r / ws; r mod ws; c]).
  2:{ cbn [inb]. repeat split; lia. }
  2:{ cbn [ravel numel fold_right]. rewrite Hdm at 1. ring. }
  rewrite Hv2. cbn [length seq map index_of nth Nat.eqb].
  rewrite Hv1, Ht.
  rewrite (unravel_ravel_eq [B; heads; ws * ws; C] _ [i; j; r; c]).
  2:{ cbn [inb]. repeat split; lia. }
  2:{ cbn [ravel numel fold_right]. rewrite Hdm at 3. ring. }
  reflexivity.
Qed.

(** ... and so does putting the single window back. *)
Lemma window_reverse_single x B ws D :
  0 < B -> 0 < ws ->
  shape x = [B; ws * ws; D] ->
  exists r, window_reverse x ws ws ws ws = Ok r /\ teq r x.
Proof.
  intros HB Hws Hx. unfold window_reverse, dim_size. rewrite Hx. cbn [nth_error bind].
  destruct (Nat.eqb_spec (ws * ws) 0) as [E|_]; [nia|].
  destruct (Nat.eqb_spec ws 0) as [E|_]; [lia|]. cbn [orb bind].
  replace (B * ws * ws / (ws * ws)) with B
    by (symmetry; apply infer_div; [nia | ring]).
  rewrite Nat.div_same by lia.
  tstep (view_infer_ex [Some B; Some 1; Some 1; Some ws; Some ws; None]
           [B; 1; 1; ws; ws; D] x) as t1 Hs1 Hv1.
  { rewrite Hx. unfold infer_shape. cbn [map fold_right numel].
    do 5 f_equal. f_equal. apply infer_div; [nia | ring]. }
  { rewrite Hx. cbn. ring. }
  tstep (permute_ex [0; 1; 3; 2; 4; 5] t1) as t2 Hs2 Hv2;
    [now rewrite Hs1 | reflexivity |].
  rewrite Hs1 in Hs2. cbn [map nth] in Hs2.
  tstep (view_infer_ex [Some B; Some (ws * ws); None] [B; ws * ws; D] t2) as t3 Hs3 Hv3.
  { rewrite Hs2. unfold infer_shape. cbn [map fold_right numel].
    do 2 f_equal. f_equal. apply infer_div; [nia | ring]. }
  { rewrite Hs2. cbn. ring. }
  exists t3. split; [reflexivity|]. split; [congruence|].
  rewrite Hs3. intros idx Hin.
  destruct idx as [|i [|n [|d [|? ?]]]]; cbn [inb] in Hin; try tauto.
  destruct Hin as (Hi & Hn & Hd & _).
  destruct (div_mod_lt n ws Hws Hn) as [Hdv Hm].
  pose proof (Nat.div_mod_eq n ws) as Hdm.
  rewrite Hv3, Hs2.
  rewrite (unravel_ravel_eq [B; 1; ws; 1; ws; D] _ [i; 0; n / ws; 0; n mod ws; d]).
  2:{ cbn [inb]. repeat split; lia. }
  2:{ cbn [ravel numel fold_right]. rewrite Hdm at 1. ring. }
  rewrite Hv2. cbn [length seq map index_of nth Nat.eqb].
  rewrite Hv1, Hx.
  rewrite (unravel_ravel_eq [B; ws * ws; D] _ [i; n; d]).
  2:{ cbn [inb]. repeat split; lia. }
  2:{ cbn [ravel numel fold_right]. rewrite Hdm at 3. ring. }
  reflexivity.
Qed.

(** C7. When the padded grid is one window ([H = W = window_size]), the
    windowed local pass returns, and so does scaled dot-product attention
    over all tokens at once with the relative-position bias of that window;
    the two results have the same shape and the same entries. *)
Theorem forward_local_single_window a q k v B C Cv :
  0 < B -> 0 < num_heads a -> 0 < window_size a -> 0 < C -> 0 < Cv ->
  shape q = [B; num_heads a; window_size a * window_size a; C] ->
  shape k = [B; num_heads a; window_size a * window_size a; C] ->
  shape v = [B; num_heads a; window_size a * window_size a; Cv] ->
  exists r r',
    forward_local a q k v (window_size a) (window_size a) = Ok r /\
    full_attention a q k v = Ok r' /\
    shape r = [B; window_size a * window_size a; num_heads a * Cv] /\
    teq r r'.
Proof.
  intros HB Hh Hws HC HCv Hq Hk Hv.
  set (ws := window_size a) in *. set (h := num_heads a) in *.
  destruct (getbias_ex a Hws Hh) as (bias & Eb & Hsb).
  unfold attn_area in Hsb. fold ws h in Hsb.
  destruct (window_partition_single q B h ws C HB Hh Hws HC Hq) as (q1 & Eq & Tq).
  destruct (window_partition_single k B h ws C HB Hh Hws HC Hk) as (k1 & Ek & Tk).
  destruct (window_partition_single v B h ws Cv HB Hh Hws HCv Hv) as (v1 & Ev & Tv).
  assert (Hq1 : shape q1 = [B; h; ws * ws; C]) by (destruct Tq as [-> _]; assumption).
  assert (Hk1 : shape k1 = [B; h; ws * ws; C]) by (destruct Tk as [-> _]; assumption).
  assert (Hv1 : shape v1 = [B; h; ws * ws; Cv]) by (destruct Tv as [-> _]; assumption).
  destruct (attend_teq a bias q1 k1 v1 q k v B h (ws * ws) C Cv)
    as (x & x' & Ex & Ex' & Hsx & Tx); try assumption; [nia|].
  destruct (window_reverse_single x B ws (h * Cv) HB Hws Hsx) as (r & Er & Tr).
  exists r, x'. split; [|split; [|split]].
  - unfold forward_local, shape4. rewrite Hq. cbn [bind]. fold ws.
    destruct (Nat.eqb_spec ws 0) as [E|_]; [lia|]. cbn [bind].
    rewrite Nat.div_same by lia. rewrite Eq. cbn [bind]. rewrite Ek. cbn [bind].
    unfold dim_size at 1. rewrite Hv. cbn [nth_error bind].
    rewrite Ev. cbn [bind]. rewrite Eb. cbn [bind].
    unfold dim_size. rewrite Hv1. cbn [nth_error bind].
    rewrite Ex. cbn [bind]. exact Er.
  - unfold full_attention, shape4. rewrite Hq. cbn [bind]. rewrite Eb. cbn [bind].
    exact Ex'.
  - destruct Tr as [-> _]. exact Hsx.
  - eapply teq_trans; eassumption.
Qed.

(** A 2 x 2 grid with window size 2. *)
Lemma forward_local_single_window_witness :
  exists r r',
    forward_local demo_attention (full [1; 1; 4; 1] 1%R) (full [1; 1; 4; 1] 1%R)
      (full [1; 1; 4; 1] 1%R) 2 2 = Ok r /\
    full_attention demo_attention (full [1; 1; 4; 1] 1%R) (full [1; 1; 4; 1] 1%R)
      (full [1; 1; 4; 1] 1%R) = Ok r' /\
    shape r = [1; 4; 1] /\
    teq r r'.
Proof.
  apply (forward_local_single_window demo_attention (full [1; 1; 4; 1] 1%R)
           (full [1; 1; 4; 1] 1%R) (full [1; 1; 4; 1] 1%R) 1 1 1).
  - lia.
  - cbn. lia.
  - cbn. lia.
  - lia.
  - lia.
  - reflexivity.
  - reflexivity.
  - reflexivity.
Defined.

(** ** Further properties of the sensing operators (lines 393-402) *)

(** [A(At(y, Phi), Phi) = y * sum_c Phi_c^2]: sensing a back-projected
    measurement scales each pixel by the band energy of the mask there. *)
Theorem A_of_At y Phi B N H W :
  shape y = [B; H; W] -> shape Phi = [B; N; H; W] ->
  exists Aty r,
    At y Phi = Ok Aty /\ A Aty Phi = Ok r /\ shape r = [B; H; W] /\
    forall b h w, b < B -> h < H -> w < W ->
      val r [b; h; w] =
        (val y [b; h; w] * sum_n N (fun c => val Phi [b; c; h; w] ^ 2))%R.
Proof.
  intros Hy HP.
  destruct (At_spec y Phi B N H W Hy HP) as (Aty & HAt & HsAt & HvAt).
  destruct (A_spec Aty Phi B N H W HsAt HP) as (r & HA & Hsr & Hvr).
  exists Aty, r. repeat split; try assumption.
  intros b h w Hb Hh Hw. rewrite Hvr by assumption.
  rewrite Rmult_comm, sum_n_scal_r. apply sum_n_ext. intros c Hc.
  rewrite HvAt by assumption. ring.
Qed.

Lemma A_of_At_witness :
  exists Aty r,
    At (full [1; 1; 2] 7%R) (full [1; 2; 1; 2] 5%R) = Ok Aty /\
    A Aty (full [1; 2; 1; 2] 5%R) = Ok r /\ shape r = [1; 1; 2] /\
    forall b h w, b < 1 -> h < 1 -> w < 2 ->
      val r [b; h; w] = (7 * sum_n 2 (fun c => 5 ^ 2))%R.
Proof.
  apply (A_of_At (full [1; 1; 2] 7%R) (full [1; 2; 1; 2] 5%R) 1 2 1 2); reflexivity.
Defined.

(** [A] is linear in the cube: [A(a*x1 + x2, Phi) = a*A(x1, Phi) + A(x2, Phi)]. *)
Theorem A_linear a x1 x2 Phi B N H W :
  shape x1 = [B; N; H; W] -> shape x2 = [B; N; H; W] -> shape Phi = [B; N; H; W] ->
  exists s r r1 r2,
    tadd (tmap (Rmult a) x1) x2 = Ok s /\
    A s Phi = Ok r /\ A x1 Phi = Ok r1 /\ A x2 Phi = Ok r2 /\
    shape r = [B; H; W] /\
    forall b h w, b < B -> h < H -> w < W ->
      val r [b; h; w] = (a * val r1 [b; h; w] + val r2 [b; h; w])%R.
Proof.
  intros H1 H2 HP.
  destruct (binop_same_shape Rplus (tmap (Rmult a) x1) x2) as (s & Hs & Hss & Hvs);
    [cbn; congruence|].
  cbn [tmap shape] in Hss, Hvs. rewrite H1 in Hss, Hvs.
  destruct (A_spec s Phi B N H W Hss HP) as (r & Hr & Hsr & Hvr).
  destruct (A_spec x1 Phi B N H W H1 HP) as (r1 & Hr1 & _ & Hvr1).
  destruct (A_spec x2 Phi B N H W H2 HP) as (r2 & Hr2 & _ & Hvr2).
  exists s, r, r1, r2. repeat split; try assumption.
  intros b h w Hb Hh Hw. rewrite Hvr, Hvr1, Hvr2 by assumption.
  rewrite (Rmult_comm a), sum_n_scal_r, <- sum_n_plus.
  apply sum_n_ext. intros c Hc.
  rewrite Hvs by (cbn; tauto). cbn [tmap val]. ring.
Qed.

Lemma A_linear_witness :
  exists s r r1 r2,
    tadd (tmap (Rmult 2) (full [1; 2; 1; 2] 3%R)) (full [1; 2; 1; 2] 4%R) = Ok s /\
    A s (full [1; 2; 1; 2] 5%R) = Ok r /\
    A (full [1; 2; 1; 2] 3%R) (full [1; 2; 1; 2] 5%R) = Ok r1 /\
    A (full [1; 2; 1; 2] 4%R) (full [1; 2; 1; 2] 5%R) = Ok r2 /\
    shape r = [1; 1; 2] /\
    forall b h w, b < 1 -> h < 1 -> w < 2 ->
      val r [b; h; w] = (2 * val r1 [b; h; w] + val r2 [b; h; w])%R.
Proof.
  apply (A_linear 2 (full [1; 2; 1; 2] 3%R) (full [1; 2; 1; 2] 4%R)
           (full [1; 2; 1; 2] 5%R) 1 2 1 2); reflexivity.
Defined.

(** ** Further properties of the dispersion shift (lines 405-417) *)

(** [shift_3d] of a tensor of float32 numbers, with a step that is not
    negative: band [c] is moved [step*c] columns to the right inside a
    buffer of width [W + (C-1)*step], and the rest of the buffer is zero. *)
Theorem shift_3d_displaces_bands x step B C H W :
  shape x = [B; C; H; W] -> float32_tensor x -> 0 < C ->
  exists t, shift_3d x (Z.of_nat step) = Ok t /\
    shape t = [B; C; H; W + (C - 1) * step] /\
    forall b c h w, b < B -> c < C -> h < H -> w < W + (C - 1) * step ->
      val t [b; c; h; w] =
        if (step * c <=? w) && (w <? step * c + W)
        then val x [b; c; h; w - step * c]
        else 0%R.
Proof.
  intros Hs Hf HC.
  destruct (shift_3d_spec x (Z.of_nat step) B C H W Hs) as (t & Ht & Hst & Hvt); [nia|].
  cbv zeta in Hst, Hvt.
  assert (EW : Z.to_nat (Z.of_nat W + (Z.of_nat C - 1) * Z.of_nat step)
               = W + (C - 1) * step) by nia.
  rewrite EW in Hst, Hvt.
  exists t. split; [exact Ht|]. split; [exact Hst|].
  intros b c h w Hb Hc Hh Hw. rewrite Hvt by assumption.
  set (W' := W + (C - 1) * step) in *.
  assert (Hsc : step * c <= (C - 1) * step) by nia.
  destruct (Nat.leb_spec (step * c) w) as [Hle|Hgt]; cbn [andb].
  - replace (Z.to_nat ((Z.of_nat w - Z.of_nat step * Z.of_nat c) mod Z.of_nat W'))
      with (w - step * c).
    + destruct (Nat.ltb_spec (w - step * c) W), (Nat.ltb_spec w (step * c + W));
        try lia; [|reflexivity].
      apply to_float32_float32, Hf. rewrite Hs. cbn. repeat split; lia.
    + rewrite Z.mod_small by nia. nia.
  - replace (Z.to_nat ((Z.of_nat w - Z.of_nat step * Z.of_nat c) mod Z.of_nat W'))
      with (w + W' - step * c).
    + destruct (Nat.ltb_spec (w + W' - step * c) W); [unfold W' in *; nia | reflexivity].
    + replace (Z.of_nat w - Z.of_nat step * Z.of_nat c)%Z
        with (Z.of_nat (w + W' - step * c) + (-1) * Z.of_nat W')%Z by nia.
      rewrite Z.mod_add by (unfold W' in *; nia).
      rewrite Z.mod_small by (unfold W' in *; nia). now rewrite Nat2Z.id.
Qed.

Lemma shift_3d_displaces_bands_witness :
  exists t, shift_3d (full [1; 2; 1; 3] 1%R) (Z.of_nat 2) = Ok t /\
    shape t = [1; 2; 1; 3 + (2 - 1) * 2] /\
    forall b c h w, b < 1 -> c < 2 -> h < 1 -> w < 3 + (2 - 1) * 2 ->
      val t [b; c; h; w] =
        if (2 * c <=? w) && (w <? 2 * c + 3) then 1%R else 0%R.
Proof.
  apply (shift_3d_displaces_bands (full [1; 2; 1; 3] 1%R) 2 1 2 1 3);
    [reflexivity | intros idx _; apply (float32_IZR 1); reflexivity | lia].
Defined.

(** [shift_back_3d] is a circular rotation of each band, so it loses
    nothing: for every 4-D tensor and every step, shifting back by [step]
    and then by [-step] returns the tensor. *)
Theorem shift_back_3d_opposite_steps t step B C H W :
  shape t = [B; C; H; W] ->
  exists t1 t2,
    shift_back_3d t step = Ok t1 /\
    shift_back_3d t1 (- step) = Ok t2 /\
    teq t2 t.
Proof.
  intros Hs.
  destruct (shift_back_3d_spec t step B C H W Hs) as (t1 & H1 & Hs1 & Hv1).
  destruct (shift_back_3d_spec t1 (- step) B C H W Hs1) as (t2 & H2 & Hs2 & Hv2).
  exists t1, t2. split; [exact H1|]. split; [exact H2|]. split; [congruence|].
  rewrite Hs2. intros idx Hin.
  destruct idx as [|b [|c [|h [|w [|? ?]]]]]; cbn in Hin; try tauto.
  destruct Hin as (Hb & Hc & Hh & Hw & _).
  rewrite Hv2 by assumption.
  set (j := Z.to_nat ((Z.of_nat w + - step * Z.of_nat c) mod Z.of_nat W)).
  assert (Hj : (0 <= (Z.of_nat w + - step * Z.of_nat c) mod Z.of_nat W < Z.of_nat W)%Z)
    by (apply Z.mod_pos_bound; lia).
  rewrite Hv1 by (unfold j; lia).
  replace (Z.to_nat ((Z.of_nat j + step * Z.of_nat c) mod Z.of_nat W)) with w;
    [reflexivity|].
  unfold j. rewrite Z2Nat.id by lia. rewrite Zplus_mod_idemp_l.
  replace (Z.of_nat w + - step * Z.of_nat c + step * Z.of_nat c)%Z
    with (Z.of_nat w) by ring.
  rewrite Z.mod_small by lia. now rewrite Nat2Z.id.
Qed.

Lemma shift_back_3d_opposite_steps_witness :
  exists t1 t2,
    shift_back_3d (full [1; 2; 1; 3] 1%R) 2 = Ok t1 /\
    shift_back_3d t1 (- (2)) = Ok t2 /\
    teq t2 (full [1; 2; 1; 3] 1%R).
Proof.
  apply (shift_back_3d_opposite_steps (full [1; 2; 1; 3] 1%R) 2 1 2 1 3). reflexivity.
Defined.

(** After [shift_3d] and [shift_back_3d] with a step that is not negative,
    the columns beyond the original width hold zeros: the crop to the first
    [W] columns discards nothing of the cube. *)
Theorem shift_round_trip_padding_zero x step B C H W :
  shape x = [B; C; H; W] -> 0 < C ->
  exists t t',
    shift_3d x (Z.of_nat step) = Ok t /\
    shift_back_3d t (Z.of_nat step) = Ok t' /\
    shape t' = [B; C; H; W + (C - 1) * step] /\
    forall b c h w, b < B -> c < C -> h < H ->
      W <= w < W + (C - 1) * step -> val t' [b; c; h; w] = 0%R.
Proof.
  intros Hs HC.
  destruct (shift_3d_spec x (Z.of_nat step) B C H W Hs) as (t & Ht & Hst & Hvt); [nia|].
  cbv zeta in Hst, Hvt.
  assert (EW : Z.to_nat (Z.of_nat W + (Z.of_nat C - 1) * Z.of_nat step)
               = W + (C - 1) * step) by nia.
  rewrite EW in Hst, Hvt. set (W' := W + (C - 1) * step) in *.
  destruct (shift_back_3d_spec t (Z.of_nat step) B C H W' Hst) as (t' & Ht' & Hst' & Hvt').
  exists t, t'. repeat split; try assumption.
  intros b c h w Hb Hc Hh Hw. rewrite Hvt' by lia.
  assert (Hm : (0 <= (Z.of_nat w + Z.of_nat step * Z.of_nat c) mod Z.of_nat W'
                < Z.of_nat W')%Z) by (apply Z.mod_pos_bound; lia).
  set (j1 := Z.to_nat ((Z.of_nat w + Z.of_nat step * Z.of_nat c) mod Z.of_nat W')) in *.
  rewrite Hvt by (unfold j1; lia).
  replace (Z.to_nat ((Z.of_nat j1 - Z.of_nat step * Z.of_nat c) mod Z.of_nat W')) with w.
  - destruct (Nat.ltb_spec w W); [lia | reflexivity].
  - unfold j1. rewrite Z2Nat.id by lia. rewrite Zminus_mod_idemp_l.
    replace (Z.of_nat w + Z.of_nat step * Z.of_nat c - Z.of_nat step * Z.of_nat c)%Z
      with (Z.of_nat w) by ring.
    rewrite Z.mod_small by lia. now rewrite Nat2Z.id.
Qed.

Lemma shift_round_trip_padding_zero_witness :
  exists t t',
    shift_3d (full [1; 2; 1; 3] 1%R) (Z.of_nat 2) = Ok t /\
    shift_back_3d t (Z.of_nat 2) = Ok t' /\
    shape t' = [1; 2; 1; 3 + (2 - 1) * 2] /\
    forall b c h w, b < 1 -> c < 2 -> h < 1 ->
      3 <= w < 3 + (2 - 1) * 2 -> val t' [b; c; h; w] = 0%R.
Proof.
  apply (shift_round_trip_padding_zero (full [1; 2; 1; 3] 1%R) 2 1 2 1 3);
    [reflexivity | lia].
Defined.

(** ** The relative-position index and bias (lines 503-513, 612-624) *)

Lemma token_row_col win_h win_w i :
  0 < win_w -> i < win_h * win_w -> i / win_w < win_h /\ i mod win_w < win_w.
Proof.
  intros Hw Hi. split.
  - apply Nat.Div0.div_lt_upper_bound. lia.
  - apply Nat.mod_upper_bound. lia.
Qed.

(** Every index of the table is a row of the bias table, which has
    [(2*win_h - 1) * (2*win_w - 1)] rows. *)
Theorem relative_position_index_in_table win_h win_w i j :
  0 < win_w -> i < win_h * win_w -> j < win_h * win_w ->
  (0 <= get_relative_position_index win_h win_w i j
     < (2 * Z.of_nat win_h - 1) * (2 * Z.of_nat win_w - 1))%Z.
Proof.
  intros Hw Hi Hj.
  destruct (token_row_col win_h win_w i Hw Hi) as [Hri Hci].
  destruct (token_row_col win_h win_w j Hw Hj) as [Hrj Hcj].
  unfold get_relative_position_index.
  set (ri := Z.of_nat (i / win_w)) in *. set (rj := Z.of_nat (j / win_w)) in *.
  set (ci := Z.of_nat (i mod win_w)) in *. set (cj := Z.of_nat (j mod win_w)) in *.
  assert (0 <= ri < Z.of_nat win_h)%Z by (unfold ri; lia).
  assert (0 <= rj < Z.of_nat win_h)%Z by (unfold rj; lia).
  assert (0 <= ci < Z.of_nat win_w)%Z by (unfold ci; lia).
  assert (0 <= cj < Z.of_nat win_w)%Z by (unfold cj; lia).
  nia.
Qed.

Lemma relative_position_index_in_table_witness :
  (0 <= get_relative_position_index 2 2 3 0 < (2 * Z.of_nat 2 - 1) * (2 * Z.of_nat 2 - 1))%Z.
Proof.
  apply (relative_position_index_in_table 2 2 3 0); lia.
Defined.

(** Two pairs of tokens of a window share an index exactly when they have
    the same row offset and the same column offset. *)
Theorem relative_position_index_offsets win_h win_w i j i' j' :
  0 < win_w ->
  i < win_h * win_w -> j < win_h * win_w -> i' < win_h * win_w -> j' < win_h * win_w ->
  get_relative_position_index win_h win_w i j
    = get_relative_position_index win_h win_w i' j' <->
  (Z.of_nat (i / win_w) - Z.of_nat (j / win_w)
     = Z.of_nat (i' / win_w) - Z.of_nat (j' / win_w) /\
   Z.of_nat (i mod win_w) - Z.of_nat (j mod win_w)
     = Z.of_nat (i' mod win_w) - Z.of_nat (j' mod win_w))%Z.
Proof.
  intros Hw Hi Hj Hi' Hj'.
  destruct (token_row_col win_h win_w i Hw Hi) as [_ Hci].
  destruct (token_row_col win_h win_w j Hw Hj) as [_ Hcj].
  destruct (token_row_col win_h win_w i' Hw Hi') as [_ Hci'].
  destruct (token_row_col win_h win_w j' Hw Hj') as [_ Hcj'].
  unfold get_relative_position_index.
  set (dr := (Z.of_nat (i / win_w) - Z.of_nat (j / win_w))%Z).
  set (dr' := (Z.of_nat (i' / win_w) - Z.of_nat (j' / win_w))%Z).
  set (dc := (Z.of_nat (i mod win_w) - Z.of_nat (j mod win_w))%Z).
  set (dc' := (Z.of_nat (i' mod win_w) - Z.of_nat (j' mod win_w))%Z).
  assert (- Z.of_nat win_w < dc < Z.of_nat win_w)%Z by (unfold dc; lia).
  assert (- Z.of_nat win_w < dc' < Z.of_nat win_w)%Z by (unfold dc'; lia).
  split.
  - intros E. assert (dr = dr') by nia. split; [assumption | nia].
  - intros [-> ->]. reflexivity.
Qed.

Lemma relative_position_index_offsets_witness :
  get_relative_position_index 2 2 3 1 = get_relative_position_index 2 2 2 0 <->
  (Z.of_nat (3 / 2) - Z.of_nat (1 / 2) = Z.of_nat (2 / 2) - Z.of_nat (0 / 2) /\
   Z.of_nat (3 mod 2) - Z.of_nat (1 mod 2) = Z.of_nat (2 mod 2) - Z.of_nat (0 mod 2))%Z.
Proof.
  apply (relative_position_index_offsets 2 2 3 1 2 0); lia.
Defined.

Lemma get_relative_positional_bias_ex a :
  0 < window_size a -> 0 < num_heads a ->
  exists b,
    get_relative_positional_bias a = Ok b /\
    shape b = [1; num_heads a; attn_area a; attn_area a] /\
    forall h i j, h < num_heads a -> i < attn_area a -> j < attn_area a ->
      val b [0; h; i; j] =
        relative_position_bias_table a
          (Z.to_nat (get_relative_position_index (window_size a) (window_size a) i j)) h.
Proof.
  intros Hws Hh. unfold get_relative_positional_bias.
  set (T := attn_area a). assert (HT : 0 < T) by (unfold T, attn_area; nia).
  set (g := mkT _ _).
  tstep (view_infer_ex [Some T; Some T; None] [T; T; num_heads a] g) as b1 Hs1 Hv1.
  { unfold infer_shape. cbn [map fold_right numel shape g].
    do 2 f_equal. f_equal. apply infer_div; [nia | ring]. }
  { cbn. ring. }
  tstep (permute_ex [2; 0; 1] b1) as b2 Hs2 Hv2; [now rewrite Hs1 | reflexivity |].
  rewrite Hs1 in Hs2. cbn [map nth] in Hs2.
  unfold unsqueeze. rewrite Hs2. cbn [length Nat.leb firstn skipn app].
  eexists. split; [reflexivity|]. split; [reflexivity|].
  intros h i j Hh' Hi Hj. cbn [val firstn skipn app].
  rewrite Hv2. cbn [length seq map index_of nth Nat.eqb].
  rewrite Hv1. cbn [shape g].
  rewrite (unravel_ravel_eq [T * T; num_heads a] _ [i * T + j; h]).
  2:{ cbn [inb]. repeat split; try lia. nia. }
  2:{ cbn [ravel numel fold_right]. ring. }
  cbn [val g]. unfold relative_position_index. fold T.
  replace ((i * T + j) / T) with i
    by (rewrite Nat.div_add_l, Nat.div_small by lia; lia).
  replace ((i * T + j) mod T) with j
    by (rewrite (Nat.add_comm (i * T)), Nat.Div0.mod_add, Nat.mod_small by lia; lia).
  reflexivity.
Qed.

(** [_get_relative_positional_bias] returns a tensor [1, heads, T, T]
    ([T] the number of tokens of a window) whose entry [0, h, i, j] is the
    row of the bias table selected by the index of the pair [(i, j)], at
    head [h]. *)
Theorem relative_positional_bias_entries a :
  0 < window_size a -> 0 < num_heads a ->
  exists b,
    get_relative_positional_bias a = Ok b /\
    shape b = [1; num_heads a; attn_area a; attn_area a] /\
    forall h i j, h < num_heads a -> i < attn_area a -> j < attn_area a ->
      val b [0; h; i; j] =
        relative_position_bias_table a
          (Z.to_nat (get_relative_position_index (window_size a) (window_size a) i j)) h.
Proof. exact (get_relative_positional_bias_ex a). Qed.

Lemma relative_positional_bias_entries_witness :
  exists b,
    get_relative_positional_bias demo_attention = Ok b /\
    shape b = [1; 1; 4; 4] /\
    forall h i j, h < 1 -> i < 4 -> j < 4 ->
      val b [0; h; i; j] =
        relative_position_bias_table demo_attention
          (Z.to_nat (get_relative_position_index 2 2 i j)) h.
Proof.
  apply (relative_positional_bias_entries demo_attention); cbn; lia.
Defined.

(** ** The global passes of the attention (lines 515-526, 556-567) *)

(** The attention of [n] query tokens over [M] key tokens without a bias:
    the result at token [n], head [h], channel [d] is the softmax-weighted
    sum of the values. *)
Lemma attend_none_ex a q k v B h N M C Cv :
  0 < B -> 0 < N ->
  shape q = [B; h; N; C] -> shape k = [B; h; M; C] -> shape v = [B; h; M; Cv] ->
  exists r, attend a None q k v B N = Ok r /\ shape r = [B; N; h * Cv] /\
    forall b n hh d, b < B -> n < N -> hh < h -> d < Cv ->
      val r [b; n; hh * Cv + d] =
        let s l := (sum_n C (fun c => val q [b; hh; n; c] * val k [b; hh; l; c])
                    * scale a)%R in
        sum_n M (fun l => exp (s l) / sum_n M (fun l' => exp (s l'))
                          * val v [b; hh; l; d])%R.
Proof.
  intros HB HN Hq Hk Hv. unfold attend.
  tstep (permute_ex [0; 1; 3; 2] k) as kt Hs1 Hv1; [now rewrite Hk | reflexivity |].
  rewrite Hk in Hs1. cbn [map nth] in Hs1.
  tstep (matmul_ex q kt B h N C M Hq Hs1) as m1 Hs2 Hv2.
  set (f := fun e => (e * scale a)%R).
  tstep (matmul_ex (softmax (tmap f m1)) v B h N M Cv Hs2 Hv) as m3 Hs5 Hv5.
  tstep (permute_ex [0; 2; 1; 3] m3) as m4 Hs6 Hv6; [now rewrite Hs5 | reflexivity |].
  rewrite Hs5 in Hs6. cbn [map nth] in Hs6.
  destruct (view_infer_ex [Some B; Some N; None] [B; N; h * Cv] m4) as (r & Er & Hsr & Hvr).
  { rewrite Hs6. unfold infer_shape. cbn [map fold_right numel].
    do 2 f_equal. f_equal. apply infer_div; [nia | ring]. }
  { rewrite Hs6. cbn. ring. }
  exists r. split; [exact Er|]. split; [exact Hsr|].
  intros b n hh d Hb Hn Hhh Hd. cbv zeta.
  rewrite Hvr, Hs6.
  rewrite (unravel_ravel_eq [B; N; h; Cv] _ [b; n; hh; d]).
  2:{ cbn [inb]. repeat split; lia. }
  2:{ cbn [ravel numel fold_right]. ring. }
  rewrite Hv6. cbn [length seq map index_of nth Nat.eqb].
  rewrite Hv5. apply sum_n_ext. intros l Hl.
  cbn [softmax tmap val shape]. rewrite Hs2. cbn [last removelast app].
  unfold f. rewrite Hv2. f_equal. f_equal.
  - f_equal. f_equal. apply sum_n_ext. intros c Hc. rewrite Hv1. reflexivity.
  - apply sum_n_ext. intros l' Hl'. rewrite Hv2. f_equal. f_equal.
    apply sum_n_ext. intros c Hc. rewrite Hv1. reflexivity.
Qed.

Lemma sum_n_pos n f : 0 < n -> (forall i, i < n -> (0 < f i)%R) -> (0 < sum_n n f)%R.
Proof.
  intros Hn Hf. destruct n as [|n]; [lia|]. clear Hn.
  induction n as [|n IH].
  - cbn. specialize (Hf 0 ltac:(lia)). lra.
  - cbn [sum_n] in *. specialize (IH ltac:(intros; apply Hf; lia)).
    specialize (Hf (S n) ltac:(lia)). lra.
Qed.

Lemma sum_n_le n f g :
  (forall i, i < n -> (f i <= g i)%R) -> (sum_n n f <= sum_n n g)%R.
Proof.
  induction n as [|n IH]; intros Hf; cbn; [lra|].
  assert (sum_n n f <= sum_n n g)%R by (apply IH; intros; apply Hf; lia).
  assert (f n <= g n)%R by (apply Hf; lia). lra.
Qed.

(** With a single global token, the broadcast pass gives every image token
    the value of the global token: the softmax over one key is 1, whatever
    the queries and the key are. *)
Theorem forward_global_broadcast_single_token a q k v B h N C Cv :
  0 < B -> 0 < N ->
  shape q = [B; h; N; C] -> shape k = [B; h; 1; C] -> shape v = [B; h; 1; Cv] ->
  exists r, forward_global_broadcast a q k v = Ok r /\ shape r = [B; N; h * Cv] /\
    forall b n hh d, b < B -> n < N -> hh < h -> d < Cv ->
      val r [b; n; hh * Cv + d] = val v [b; hh; 0; d].
Proof.
  intros HB HN Hq Hk Hv. unfold forward_global_broadcast, shape4. rewrite Hq. cbn [bind].
  destruct (attend_none_ex a q k v B h N 1 C Cv HB HN Hq Hk Hv) as (r & Er & Hsr & Hvr).
  exists r. split; [exact Er|]. split; [exact Hsr|].
  intros b n hh d Hb Hn Hhh Hd. rewrite Hvr by assumption. cbv zeta. cbn [sum_n].
  match goal with |- context [exp ?e] => pose proof (exp_pos e); set (E := exp e) in * end.
  field. lra.
Qed.

Lemma forward_global_broadcast_single_token_witness :
  exists r, forward_global_broadcast demo_attention (full [1; 1; 4; 1] 1%R)
              (full [1; 1; 1; 1] 2%R) (full [1; 1; 1; 1] 3%R) = Ok r /\
    shape r = [1; 4; 1 * 1] /\
    forall b n hh d, b < 1 -> n < 4 -> hh < 1 -> d < 1 ->
      val r [b; n; hh * 1 + d] = 3%R.
Proof.
  apply (forward_global_broadcast_single_token demo_attention (full [1; 1; 4; 1] 1%R)
           (full [1; 1; 1; 1] 2%R) (full [1; 1; 1; 1] 3%R) 1 1 4 1 1);
    try lia; reflexivity.
Defined.

(** The aggregation pass averages: each entry of the result lies between
    any two bounds that the values of the image tokens (of that batch element,
    head and channel) lie between. *)
Theorem forward_global_aggregation_bounds a q k v B h N M C Cv lo hi :
  0 < B -> 0 < N -> 0 < M ->
  shape q = [B; h; N; C] -> shape k = [B; h; M; C] -> shape v = [B; h; M; Cv] ->
  exists r, forward_global_aggregation a q k v = Ok r /\ shape r = [B; N; h * Cv] /\
    forall b n hh d, b < B -> n < N -> hh < h -> d < Cv ->
      (forall l, l < M -> (lo <= val v [b; hh; l; d] <= hi)%R) ->
      (lo <= val r [b; n; (hh * Cv + d)%nat] <= hi)%R.
Proof.
  intros HB HN HM Hq Hk Hv. unfold forward_global_aggregation, shape4.
  rewrite Hq. cbn [bind].
  destruct (attend_none_ex a q k v B h N M C Cv HB HN Hq Hk Hv) as (r & Er & Hsr & Hvr).
  exists r. split; [exact Er|]. split; [exact Hsr|].
  intros b n hh d Hb Hn Hhh Hd Hbd. rewrite Hvr by assumption. cbv zeta.
  set (s := fun l => (sum_n C (fun c => val q [b; hh; n; c] * val k [b; hh; l; c])
                      * scale a)%R).
  set (S := sum_n M (fun l' => exp (s l'))).
  assert (HS : (0 < S)%R) by (apply sum_n_pos; [assumption | intros; apply exp_pos]).
  assert (Hw : forall c, sum_n M (fun l => exp (s l) / S * c)%R = c).
  { intros c. rewrite <- sum_n_scal_r.
    replace (sum_n M (fun l => exp (s l) / S))%R with (S / S)%R.
    - field. lra.
    - unfold Rdiv at 1. unfold S at 1. rewrite sum_n_scal_r. reflexivity. }
  split.
  - rewrite <- (Hw lo) at 1. apply sum_n_le. intros l Hl.
    apply Rmult_le_compat_l; [|apply Hbd; assumption].
    apply Rlt_le, Rdiv_lt_0_compat; [apply exp_pos | assumption].
  - rewrite <- (Hw hi) at 1. apply sum_n_le. intros l Hl.
    apply Rmult_le_compat_l; [|apply Hbd; assumption].
    apply Rlt_le, Rdiv_lt_0_compat; [apply exp_pos | assumption].
Qed.

Lemma forward_global_aggregation_bounds_witness :
  exists r, forward_global_aggregation demo_attention (full [1; 1; 1; 1] 1%R)
              (full [1; 1; 4; 1] 2%R) (full [1; 1; 4; 1] 3%R) = Ok r /\
    shape r = [1; 1; 1 * 1] /\
    forall b n hh d, b < 1 -> n < 1 -> hh < 1 -> d < 1 ->
      (forall l, l < 4 -> (3 <= 3 <= 3)%R) ->
      (3 <= val r [b; n; (hh * 1 + d)%nat] <= 3)%R.
Proof.
  apply (forward_global_aggregation_bounds demo_attention (full [1; 1; 1; 1] 1%R)
           (full [1; 1; 4; 1] 2%R) (full [1; 1; 4; 1] 3%R) 1 1 1 4 1 1 3%R 3%R);
    try lia; reflexivity.
Defined.

(** ** Windows (lines 539-544 and 626-639) *)

Lemma mixed_radix_lt a b x y : x < a -> y < b -> x * b + y < a * b.
Proof. intros Hx Hy. nia. Qed.

(** The partition of a grid of [hg x wg] windows: token [(i, j)] of window
    [(gi, gj)] of image [b] is the token at row [gi*ws + i] and column
    [gj*ws + j] of the grid. *)
Lemma window_partition_ex t B heads hg wg ws C :
  0 < B -> 0 < heads -> 0 < hg -> 0 < wg -> 0 < ws -> 0 < C ->
  shape t = [B; heads; (hg * ws) * (wg * ws); C] ->
  exists r, window_partition B heads hg wg ws C t = Ok r /\
    shape r = [B * hg * wg; heads; ws * ws; C] /\
    forall b gi gj h i j c,
      b < B -> gi < hg -> gj < wg -> h < heads -> i < ws -> j < ws -> c < C ->
      val r [(b * hg + gi) * wg + gj; h; i * ws + j; c] =
        val t [b; h; (gi * ws + i) * (wg * ws) + (gj * ws + j); c].
Proof.
  intros HB Hh Hhg Hwg Hws HC Ht. unfold window_partition.
  tstep (view_infer_ex [Some B; Some heads; Some hg; Some ws; Some wg; Some ws; None]
           [B; heads; hg; ws; wg; ws; C] t) as t1 Hs1 Hv1.
  { rewrite Ht. unfold infer_shape. cbn [map fold_right numel].
    do 6 f_equal. f_equal. apply infer_div; [nia | ring]. }
  { rewrite Ht. cbn. ring. }
  tstep (permute_ex [0; 2; 4; 1; 3; 5; 6] t1) as t2 Hs2 Hv2;
    [now rewrite Hs1 | reflexivity |].
  rewrite Hs1 in Hs2. cbn [map nth] in Hs2.
  tstep (view_infer_ex [None; Some heads; Some (ws * ws); Some C]
           [B * hg * wg; heads; ws * ws; C] t2) as t3 Hs3 Hv3.
  { rewrite Hs2. unfold infer_shape. cbn [map fold_right numel].
    f_equal. apply infer_div; [nia | ring]. }
  { rewrite Hs2. cbn. ring. }
  exists t3. split; [reflexivity|]. split; [exact Hs3|].
  intros b gi gj h i j c Hb Hgi Hgj Hh' Hi Hj Hc.
  rewrite Hv3, Hs2.
  rewrite (unravel_ravel_eq [B; hg; wg; heads; ws; ws; C] _ [b; gi; gj; h; i; j; c]).
  2:{ cbn [inb]. repeat split; lia. }
  2:{ cbn [ravel numel fold_right]. ring. }
  rewrite Hv2. cbn [length seq map index_of nth Nat.eqb].
  rewrite Hv1, Ht.
  rewrite (unravel_ravel_eq [B; heads; hg * ws * (wg * ws); C] _
             [b; h; (gi * ws + i) * (wg * ws) + (gj * ws + j); c]).
  2:{ cbn [inb]. repeat split; try lia. now repeat apply mixed_radix_lt. }
  2:{ cbn [ravel numel fold_right]. ring. }
  reflexivity.
Qed.

Lemma window_reverse_ex windows B hg wg ws0 ws1 D :
  0 < B -> 0 < hg -> 0 < wg -> 0 < ws0 -> 0 < ws1 ->
  shape windows = [B * hg * wg; ws0 * ws1; D] ->
  exists r, window_reverse windows (hg * ws0) (wg * ws1) ws0 ws1 = Ok r /\
    shape r = [B; (hg * ws0) * (wg * ws1); D] /\
    forall b gi gj i j d,
      b < B -> gi < hg -> gj < wg -> i < ws0 -> j < ws1 -> d < D ->
      val r [b; (gi * ws0 + i) * (wg * ws1) + (gj * ws1 + j); d] =
        val windows [(b * hg + gi) * wg + gj; i * ws1 + j; d].
Proof.
  intros HB Hhg Hwg Hws0 Hws1 Hx.
  unfold window_reverse, dim_size. rewrite Hx. cbn [nth_error bind].
  destruct (Nat.eqb_spec (hg * ws0 * (wg * ws1)) 0) as [E|_]; [nia|].
  destruct (Nat.eqb_spec ws0 0) as [E|_]; [lia|].
  destruct (Nat.eqb_spec ws1 0) as [E|_]; [lia|]. cbn [orb bind].
  replace (B * hg * wg * ws0 * ws1 / (hg * ws0 * (wg * ws1))) with B
    by (symmetry; apply infer_div; [nia | ring]).
  rewrite !Nat.div_mul by lia.
  tstep (view_infer_ex [Some B; Some hg; Some wg; Some ws0; Some ws1; None]
           [B; hg; wg; ws0; ws1; D] windows) as t1 Hs1 Hv1.
  { rewrite Hx. unfold infer_shape. cbn [map fold_right numel].
    do 5 f_equal. f_equal. apply infer_div; [nia | ring]. }
  { rewrite Hx. cbn. ring. }
  tstep (permute_ex [0; 1; 3; 2; 4; 5] t1) as t2 Hs2 Hv2;
    [now rewrite Hs1 | reflexivity |].
  rewrite Hs1 in Hs2. cbn [map nth] in Hs2.
  tstep (view_infer_ex [Some B; Some (hg * ws0 * (wg * ws1)); None]
           [B; hg * ws0 * (wg * ws1); D] t2) as t3 Hs3 Hv3.
  { rewrite Hs2. unfold infer_shape. cbn [map fold_right numel].
    do 2 f_equal. f_equal. apply infer_div; [nia | ring]. }
  { rewrite Hs2. cbn. ring. }
  exists t3. split; [reflexivity|]. split; [exact Hs3|].
  intros b gi gj i j d Hb Hgi Hgj Hi Hj Hd.
  rewrite Hv3, Hs2.
  rewrite (unravel_ravel_eq [B; hg; ws0; wg; ws1; D] _ [b; gi; i; gj; j; d]).
  2:{ cbn [inb]. repeat split; lia. }
  2:{ cbn [ravel numel fold_right]. ring. }
  rewrite Hv2. cbn [length seq map index_of nth Nat.eqb].
  rewrite Hv1, Hx.
  rewrite (unravel_ravel_eq [B * hg * wg; ws0 * ws1; D] _
             [(b * hg + gi) * wg + gj; i * ws1 + j; d]).
  2:{ cbn [inb]. repeat split; try lia; now repeat apply mixed_radix_lt. }
  2:{ cbn [ravel numel fold_right]. ring. }
  reflexivity.
Qed.

(** [window_reverse] puts the windows back on the grid: token [(i, j)] of
    window [(gi, gj)] of image [b] goes to row [gi*ws0 + i] and column
    [gj*ws1 + j]. *)
Theorem window_reverse_entries windows B hg wg ws0 ws1 D :
  0 < B -> 0 < hg -> 0 < wg -> 0 < ws0 -> 0 < ws1 ->
  shape windows = [B * hg * wg; ws0 * ws1; D] ->
  exists r, window_reverse windows (hg * ws0) (wg * ws1) ws0 ws1 = Ok r /\
    shape r = [B; (hg * ws0) * (wg * ws1); D] /\
    forall b gi gj i j d,
      b < B -> gi < hg -> gj < wg -> i < ws0 -> j < ws1 -> d < D ->
      val r [b; (gi * ws0 + i) * (wg * ws1) + (gj * ws1 + j); d] =
        val windows [(b * hg + gi) * wg + gj; i * ws1 + j; d].
Proof. exact (window_reverse_ex windows B hg wg ws0 ws1 D). Qed.

Lemma window_reverse_entries_witness :
  exists r, window_reverse (full [1 * 1 * 1; 2 * 2; 1] 1%R) (1 * 2) (1 * 2) 2 2 = Ok r /\
    shape r = [1; (1 * 2) * (1 * 2); 1] /\
    forall b gi gj i j d,
      b < 1 -> gi < 1 -> gj < 1 -> i < 2 -> j < 2 -> d < 1 ->
      val r [b; (gi * 2 + i) * (1 * 2) + (gj * 2 + j); d] = 1%R.
Proof.
  apply (window_reverse_entries (full [1 * 1 * 1; 2 * 2; 1] 1%R) 1 1 1 2 2 1);
    try lia; reflexivity.
Defined.

(** ** The local pass, window by window (lines 528-554) *)

Lemma bidx_lead h n m w hh i l :
  hh < h -> i < n -> l < m -> bidx [1; h; n; m] [w; hh; i; l] = [0; hh; i; l].
Proof.
  intros Hh Hi Hl. unfold bidx. cbn [length Nat.sub skipn zip_with Nat.eqb].
  destruct (Nat.eqb_spec h 1), (Nat.eqb_spec n 1), (Nat.eqb_spec m 1);
    repeat f_equal; lia.
Qed.

(** Attention inside the windows: [q], [k] and [v] hold [T] tokens per
    window and [bias] is the relative-position bias. *)
Lemma attend_bias_ex a bias q k v Bw h T C Cv :
  0 < Bw -> 0 < T ->
  shape q = [Bw; h; T; C] -> shape k = [Bw; h; T; C] -> shape v = [Bw; h; T; Cv] ->
  shape bias = [1; h; T; T] ->
  exists r, attend a (Some bias) q k v Bw T = Ok r /\ shape r = [Bw; T; h * Cv] /\
    forall w n hh d, w < Bw -> n < T -> hh < h -> d < Cv ->
      val r [w; n; hh * Cv + d] =
        let s l := (sum_n C (fun c => val q [w; hh; n; c] * val k [w; hh; l; c])
                    * scale a + val bias [0%nat; hh; n; l])%R in
        sum_n T (fun l => exp (s l) / sum_n T (fun l' => exp (s l'))
                          * val v [w; hh; l; d])%R.
Proof.
  intros HB HT Hq Hk Hv Hb. unfold attend.
  tstep (permute_ex [0; 1; 3; 2] k) as kt Hs1 Hv1; [now rewrite Hk | reflexivity |].
  rewrite Hk in Hs1. cbn [map nth] in Hs1.
  tstep (matmul_ex q kt Bw h T C T Hq Hs1) as m1 Hs2 Hv2.
  set (f := fun e => (e * scale a)%R).
  tstep (tadd_bias_ex (tmap f m1) bias Bw h T T Hs2 Hb) as m2 Hs3 Hv3.
  tstep (matmul_ex (softmax m2) v Bw h T T Cv Hs3 Hv) as m3 Hs5 Hv5.
  tstep (permute_ex [0; 2; 1; 3] m3) as m4 Hs6 Hv6; [now rewrite Hs5 | reflexivity |].
  rewrite Hs5 in Hs6. cbn [map nth] in Hs6.
  destruct (view_infer_ex [Some Bw; Some T; None] [Bw; T; h * Cv] m4)
    as (r & Er & Hsr & Hvr).
  { rewrite Hs6. unfold infer_shape. cbn [map fold_right numel].
    do 2 f_equal. f_equal. apply infer_div; [nia | ring]. }
  { rewrite Hs6. cbn. ring. }
  exists r. split; [exact Er|]. split; [exact Hsr|].
  intros w n hh d Hw Hn Hhh Hd. cbv zeta.
  rewrite Hvr, Hs6.
  rewrite (unravel_ravel_eq [Bw; T; h; Cv] _ [w; n; hh; d]).
  2:{ cbn [inb]. repeat split; lia. }
  2:{ cbn [ravel numel fold_right]. ring. }
  rewrite Hv6. cbn [length seq map index_of nth Nat.eqb].
  rewrite Hv5.
  assert (Hs : forall l, l < T ->
            val m2 [w; hh; n; l] =
            (sum_n C (fun c => val q [w; hh; n; c] * val k [w; hh; l; c]) * scale a
             + val bias [0%nat; hh; n; l])%R).
  { intros l Hl. rewrite Hv3 by (cbn [inb]; tauto).
    rewrite bidx_lead by assumption. cbn [tmap val]. unfold f. rewrite Hv2.
    f_equal. f_equal. apply sum_n_ext. intros c Hc. rewrite Hv1. reflexivity. }
  apply sum_n_ext. intros l Hl.
  cbn [softmax val shape]. rewrite Hs3. cbn [last removelast app].
  rewrite Hs by assumption. f_equal. f_equal.
  apply sum_n_ext. intros l' Hl'. rewrite Hs by assumption. reflexivity.
Qed.

Lemma forward_local_ex a q k v B hg wg C Cv :
  0 < B -> 0 < hg -> 0 < wg -> 0 < window_size a -> 0 < num_heads a ->
  0 < C -> 0 < Cv ->
  let ws := window_size a in
  let N := (hg * ws) * (wg * ws) in
  shape q = [B; num_heads a; N; C] ->
  shape k = [B; num_heads a; N; C] ->
  shape v = [B; num_heads a; N; Cv] ->
  exists r, forward_local a q k v (hg * ws) (wg * ws) = Ok r /\
    shape r = [B; N; num_heads a * Cv] /\
    forall b gi gj i j hh d,
      b < B -> gi < hg -> gj < wg -> i < ws -> j < ws -> hh < num_heads a -> d < Cv ->
      let tok l := (gi * ws + l / ws) * (wg * ws) + (gj * ws + l mod ws) in
      let p := i * ws + j in
      let T := ws * ws in
      let s l :=
        (sum_n C (fun c => val q [b; hh; tok p; c] * val k [b; hh; tok l; c]) * scale a
         + relative_position_bias_table a
             (Z.to_nat (get_relative_position_index ws ws p l)) hh)%R in
      val r [b; tok p; hh * Cv + d] =
        sum_n T (fun l => exp (s l) / sum_n T (fun l' => exp (s l'))
                          * val v [b; hh; tok l; d])%R.
Proof.
  intros HB Hhg Hwg Hws Hh HC HCv ws N Hq Hk Hv.
  set (h := num_heads a) in *.
  destruct (get_relative_positional_bias_ex a Hws Hh) as (bias & Eb & Hsb & Hvb).
  unfold attn_area in Hsb, Hvb. fold ws h in Hsb, Hvb.
  destruct (window_partition_ex q B h hg wg ws C HB Hh Hhg Hwg Hws HC Hq)
    as (q1 & Eq & Hsq & Hvq).
  destruct (window_partition_ex k B h hg wg ws C HB Hh Hhg Hwg Hws HC Hk)
    as (k1 & Ek & Hsk & Hvk).
  destruct (window_partition_ex v B h hg wg ws Cv HB Hh Hhg Hwg Hws HCv Hv)
    as (v1 & Ev & Hsv & Hvv).
  destruct (attend_bias_ex a bias q1 k1 v1 (B * hg * wg) h (ws * ws) C Cv)
    as (x & Ex & Hsx & Hvx); try assumption; try nia.
  destruct (window_reverse_ex x B hg wg ws ws (h * Cv) HB Hhg Hwg Hws Hws Hsx)
    as (r & Er & Hsr & Hvr).
  exists r. split; [|split; [exact Hsr|]].
  - unfold forward_local, shape4. rewrite Hq. cbn [bind]. fold ws h.
    destruct (Nat.eqb_spec ws 0) as [E|_]; [lia|]. cbn [bind].
    rewrite !Nat.div_mul by lia. rewrite Eq. cbn [bind]. rewrite Ek. cbn [bind].
    unfold dim_size at 1. rewrite Hv. cbn [nth_error bind].
    rewrite Ev. cbn [bind]. rewrite Eb. cbn [bind].
    unfold dim_size. rewrite Hsv. cbn [nth_error bind].
    rewrite Ex. cbn [bind]. exact Er.
  - intros b gi gj i j hh d Hb Hgi Hgj Hi Hj Hhh Hd. cbv zeta.
    assert (Hdm : forall i' j', i' < ws -> j' < ws ->
              (i' * ws + j') / ws = i' /\ (i' * ws + j') mod ws = j').
    { intros i' j' Hi' Hj'. split.
      - rewrite Nat.div_add_l, Nat.div_small by lia. lia.
      - rewrite (Nat.add_comm (i' * ws)), Nat.Div0.mod_add, Nat.mod_small by lia. lia. }
    destruct (Hdm i j Hi Hj) as [-> ->].
    rewrite Hvr; try assumption; [|now apply mixed_radix_lt].
    rewrite Hvx; try assumption; [|now repeat apply mixed_radix_lt | now apply mixed_radix_lt].
    cbv zeta.
    assert (Hl : forall l, l < ws * ws -> l / ws < ws /\ l mod ws < ws
                                           /\ l = l / ws * ws + l mod ws).
    { intros l Hl. split; [|split].
      - now apply Nat.Div0.div_lt_upper_bound.
      - apply Nat.mod_upper_bound. lia.
      - pose proof (Nat.div_mod_eq l ws). lia. }
    set (w := (b * hg + gi) * wg + gj).
    set (p := i * ws + j).
    set (n := (gi * ws + i) * (wg * ws) + (gj * ws + j)).
    assert (Hs : forall l, l < ws * ws ->
      (sum_n C (fun c => val q1 [w; hh; p; c] * val k1 [w; hh; l; c]) * scale a
       + val bias [0%nat; hh; p; l])%R =
      (sum_n C (fun c => val q [b; hh; n; c]
                         * val k [b; hh; ((gi * ws + l / ws) * (wg * ws)
                                          + (gj * ws + l mod ws))%nat; c]) * scale a
       + relative_position_bias_table a
           (Z.to_nat (get_relative_position_index ws ws p l)) hh)%R).
    { intros l Hll. destruct (Hl l Hll) as (Hl1 & Hl2 & Hl3).
      rewrite Hvb; [|assumption | now apply mixed_radix_lt | assumption].
      f_equal. f_equal. apply sum_n_ext. intros c Hc.
      unfold w, p, n. rewrite Hvq by assumption.
      rewrite Hl3 at 1. rewrite Hvk by assumption. reflexivity. }
    apply sum_n_ext. intros l Hll. destruct (Hl l Hll) as (Hl1 & Hl2 & Hl3).
    rewrite Hs by assumption. f_equal.
    + f_equal. apply sum_n_ext. intros l' Hl'. now rewrite Hs.
    + unfold w. rewrite Hl3 at 1. now apply Hvv.
Qed.

(** [forward_local] on a grid of [hg x wg] windows of size [ws]: the result
    at a token is the softmax attention of that token over the [ws*ws]
    tokens of its own window, padded or not, with the relative-position
    bias; tokens of other windows take no part. *)
Theorem forward_local_entries a q k v B hg wg C Cv :
  0 < B -> 0 < hg -> 0 < wg -> 0 < window_size a -> 0 < num_heads a ->
  0 < C -> 0 < Cv ->
  let ws := window_size a in
  let N := (hg * ws) * (wg * ws) in
  shape q = [B; num_heads a; N; C] ->
  shape k = [B; num_heads a; N; C] ->
  shape v = [B; num_heads a; N; Cv] ->
  exists r, forward_local a q k v (hg * ws) (wg * ws) = Ok r /\
    shape r = [B; N; num_heads a * Cv] /\
    forall b gi gj i j hh d,
      b < B -> gi < hg -> gj < wg -> i < ws -> j < ws -> hh < num_heads a -> d < Cv ->
      let tok l := (gi * ws + l / ws) * (wg * ws) + (gj * ws + l mod ws) in
      let p := i * ws + j in
      let T := ws * ws in
      let s l :=
        (sum_n C (fun c => val q [b; hh; tok p; c] * val k [b; hh; tok l; c]) * scale a
         + relative_position_bias_table a
             (Z.to_nat (get_relative_position_index ws ws p l)) hh)%R in
      val r [b; tok p; hh * Cv + d] =
        sum_n T (fun l => exp (s l) / sum_n T (fun l' => exp (s l'))
                          * val v [b; hh; tok l; d])%R.
Proof. exact (forward_local_ex a q k v B hg wg C Cv). Qed.

(** One window of size 2 on a 2 x 2 grid. *)
Lemma forward_local_entries_witness :
  exists r, forward_local demo_attention (full [1; 1; 4; 1] 1%R) (full [1; 1; 4; 1] 1%R)
              (full [1; 1; 4; 1] 1%R) (1 * 2) (1 * 2) = Ok r /\
    shape r = [1; 4; 1] /\
    forall b gi gj i j hh d,
      b < 1 -> gi < 1 -> gj < 1 -> i < 2 -> j < 2 -> hh < 1 -> d < 1 ->
      let tok l := (gi * 2 + l / 2) * (1 * 2) + (gj * 2 + l mod 2) in
      let p := i * 2 + j in
      let s l :=
        (sum_n 1 (fun c => 1 * 1) * scale demo_attention
         + relative_position_bias_table demo_attention
             (Z.to_nat (get_relative_position_index 2 2 p l)) hh)%R in
      val r [b; tok p; hh * 1 + d] =
        sum_n 4 (fun l => exp (s l) / sum_n 4 (fun l' => exp (s l')) * 1)%R.
Proof.
  apply (forward_local_entries demo_attention (full [1; 1; 4; 1] 1%R)
           (full [1; 1; 4; 1] 1%R) (full [1; 1; 4; 1] 1%R) 1 1 1 1 1);
    try (cbn; lia); reflexivity.
Defined.

(** ** Padding and cropping in [Attention.forward] (lines 570-598) *)

(** The queries, keys and values on the padded grid: those of the global
    tokens, and those of the grid, whose token [n] is the image token at row
    [n / Wp] and column [n mod Wp] if that position is inside the image and
    the zero token otherwise. *)
Lemma padded_qkv_ex a x H W B hd :
  shape x = [B; num_tokens a + H * W; dim a] ->
  0 < B -> 0 < window_size a -> 0 < num_heads a -> 0 < hd ->
  dim a = num_heads a * hd ->
  let NC := num_tokens a in
  let Hp := padded_size (window_size a) H in
  let Wp := padded_size (window_size a) W in
  exists q_img k_img v_img q_cls,
    padded_qkv a x H W = Ok (q_img, k_img, v_img, q_cls, (B, dim a, Hp, Wp)) /\
    shape q_img = [B; num_heads a; Hp * Wp; hd] /\
    shape k_img = [B; num_heads a; Hp * Wp; hd] /\
    shape v_img = [B; num_heads a; Hp * Wp; hd] /\
    shape q_cls = [B; num_heads a; NC; hd] /\
    (forall b h n d, b < B -> h < num_heads a -> n < Hp * Wp -> d < hd ->
       let tok c := if (n / Wp <? H) && (n mod Wp <? W)
                    then val x [b; NC + (n / Wp * W + n mod Wp); c]
                    else 0%R in
       val q_img [b; h; n; d] = qkv_entry a hd tok 0 h d /\
       val k_img [b; h; n; d] = qkv_entry a hd tok 1 h d /\
       val v_img [b; h; n; d] = qkv_entry a hd tok 2 h d) /\
    (forall b h m d, b < B -> h < num_heads a -> m < NC -> d < hd ->
       val q_cls [b; h; m; d] = qkv_entry a hd (fun c => val x [b; m; c]) 0 h d).
Proof.
  intros Hx HB Hws Hh Hhd Hdim NC0 Hp0 Wp0. subst NC0 Hp0 Wp0. unfold padded_size.
  set (ws := window_size a). set (NC := num_tokens a). set (C := dim a).
  set (Hp := H + (ws - H mod ws) mod ws). set (Wp := W + (ws - W mod ws) mod ws).
  unfold padded_qkv, shape3. rewrite Hx. cbn [bind].
  fold ws NC C.
  tstep (getitem_ok [IAll; ISlice (Some (Z.of_nat NC)) None] x [B; H * W; C]) as x0 Hs0 Hv0.
  { rewrite Hx. cbn [sel_shape bind IAll]. fold NC. now rewrite slice_len_all, slice_len_from. }
  tstep (getitem_ok [IAll; upto NC] x [B; NC; C]) as xg Hsg Hvg.
  { rewrite Hx. cbn [sel_shape bind IAll upto]. fold NC. now rewrite slice_len_all, slice_len_upto_add. }
  tstep (view_ex [B; H; W; C] x0) as x1 Hs1 Hv1.
  { rewrite Hs0. cbn. ring. }
  destruct (Nat.eqb_spec ws 0) as [E0|_]; [unfold ws in E0; lia|]. cbn [bind].
  tstep (pad_right_bottom_ex ((ws - W mod ws) mod ws) ((ws - H mod ws) mod ws) x1 B H W C Hs1)
    as x2 Hs2 Hv2.
  fold Hp Wp in Hs2.
  unfold dim_size. rewrite Hs2. cbn [nth_error bind].
  assert (HC : 0 < C) by (unfold C; nia).
  tstep (view_infer_ex [Some B; None; Some C] [B; Hp * Wp; C] x2) as x3 Hs3 Hv3.
  { rewrite Hs2. unfold infer_shape. cbn [map fold_right numel].
    f_equal. f_equal. apply infer_div; [nia | ring]. }
  { rewrite Hs2. cbn. ring. }
  tstep (cat_tokens_ex xg x3 B NC (Hp * Wp) C Hsg Hs3) as x4 Hs4 Hv4.
  tstep (linear_tokens_ex C (C * 3) (qkv_weight a) (qkv_bias a) x4 B (NC + Hp * Wp) Hs4)
    as x5 Hs5 Hv5.
  unfold split_heads.
  assert (Ehd : C / num_heads a = hd) by (apply infer_div; [lia | unfold C; lia]).
  rewrite Ehd.
  tstep (view_infer_ex [Some B; None; Some 3; Some (num_heads a); Some hd]
           [B; NC + Hp * Wp; 3; num_heads a; hd] x5) as x6 Hs6 Hv6.
  { rewrite Hs5. unfold infer_shape. cbn [map fold_right numel].
    f_equal. f_equal. apply infer_div; [nia | unfold C; rewrite Hdim; ring]. }
  { rewrite Hs5. cbn [numel fold_right]. unfold C. rewrite Hdim. ring. }
  tstep (split_permute_ex x6 _ _ _ _ _ Hs6) as x7 Hs7 Hv7.
  tstep (getitem_ok [IAt 0] x7 [B; num_heads a; NC + Hp * Wp; hd]) as q Hsq Hvq.
  { rewrite Hs7. reflexivity. }
  tstep (getitem_ok [IAt 1] x7 [B; num_heads a; NC + Hp * Wp; hd]) as k Hsk Hvk.
  { rewrite Hs7. reflexivity. }
  tstep (getitem_ok [IAt 2] x7 [B; num_heads a; NC + Hp * Wp; hd]) as v Hsv Hvv.
  { rewrite Hs7. reflexivity. }
  (* every entry of the projection, in terms of the concatenated tokens *)
  assert (Hproj : forall j b h m d, j < 3 -> b < B -> h < num_heads a ->
            m < NC + Hp * Wp -> d < hd ->
            val x7 [j; b; h; m; d] = qkv_entry a hd (fun c => val x4 [b; m; c]) j h d).
  { intros j b h m d Hj Hb Hh' Hm Hd.
    rewrite Hv7, Hv6, Hs5.
    rewrite (unravel_ravel_eq [B; NC + Hp * Wp; C * 3] _
               [b; m; (j * num_heads a + h) * hd + d]).
    2:{ cbn [inb]. repeat split; try lia. unfold C. rewrite Hdim. nia. }
    2:{ cbn [ravel numel fold_right]. unfold C. rewrite Hdim. ring. }
    rewrite Hv5. reflexivity. }
  (* the concatenated tokens, in terms of the input *)
  assert (Hglob : forall b m c, m < NC -> val x4 [b; m; c] = val x [b; m; c]).
  { intros b m c Hm. rewrite Hv4.
    destruct (Nat.ltb_spec m NC) as [_|Hge]; [|lia].
    rewrite Hvg, Hx. cbn [src_index IAll upto]. now rewrite !slice_start_none. }
  assert (Himg : forall b n c, b < B -> n < Hp * Wp -> c < C ->
            val x4 [b; NC + n; c] =
            if (n / Wp <? H) && (n mod Wp <? W)
            then val x [b; NC + (n / Wp * W + n mod Wp); c] else 0%R).
  { intros b n c Hb Hn Hc. assert (HWp : 0 < Wp) by nia.
    rewrite Hv4.
    destruct (Nat.ltb_spec (NC + n) NC) as [Hlt|_]; [lia|].
    replace (NC + n - NC) with n by lia.
    rewrite Hv3, Hs2.
    rewrite (unravel_ravel_eq [B; Hp; Wp; C] _ [b; n / Wp; n mod Wp; c]).
    2:{ cbn [inb]. repeat split; try lia.
        - apply Nat.Div0.div_lt_upper_bound. lia.
        - apply Nat.mod_upper_bound. lia. }
    2:{ cbn [ravel numel fold_right].
        pose proof (Nat.div_mod_eq n Wp) as Hdm. rewrite Hdm at 1. ring. }
    rewrite Hv2.
    destruct (Nat.ltb_spec (n / Wp) H) as [Hi|]; [|reflexivity].
    destruct (Nat.ltb_spec (n mod Wp) W) as [Hj|]; [|reflexivity]. cbn [andb].
    rewrite Hv1, Hs0.
    rewrite (unravel_ravel_eq [B; H * W; C] _ [b; n / Wp * W + n mod Wp; c]).
    2:{ cbn [inb]. repeat split; try lia. now apply mixed_radix_lt. }
    2:{ cbn [ravel numel fold_right]. ring. }
    rewrite Hv0, Hx. cbn [src_index IAll].
    now rewrite slice_start_none, slice_start_from. }
  assert (Hsel : forall t, shape t = [B; num_heads a; NC + Hp * Wp; hd] ->
            exists r, getitem [IAll; IAll; ISlice (Some (Z.of_nat NC)) None] t = Ok r /\
                      shape r = [B; num_heads a; Hp * Wp; hd] /\
                      forall b h n d, val r [b; h; n; d] = val t [b; h; NC + n; d]).
  { intros t Ht.
    destruct (getitem_ok [IAll; IAll; ISlice (Some (Z.of_nat NC)) None] t
                [B; num_heads a; Hp * Wp; hd]) as (r & E & Hs & Hv).
    { rewrite Ht. cbn [sel_shape bind IAll].
      now rewrite !slice_len_all, slice_len_from. }
    exists r. split; [exact E|]. split; [exact Hs|].
    intros b h n d. rewrite Hv, Ht. cbn [src_index IAll].
    now rewrite slice_start_from. }
  tstep (Hsel q Hsq) as q_img Hsqi Hvqi.
  tstep (Hsel k Hsk) as k_img Hski Hvki.
  tstep (Hsel v Hsv) as v_img Hsvi Hvvi.
  tstep (getitem_ok [IAll; IAll; upto NC] q [B; num_heads a; NC; hd]) as q_cls Hsqc Hvqc.
  { rewrite Hsq. cbn [sel_shape bind IAll upto].
    now rewrite !slice_len_all, slice_len_upto_add. }
  exists q_img, k_img, v_img, q_cls.
  split; [reflexivity|]. do 4 (split; [assumption|]). split.
  - intros b h n d Hb Hh' Hn Hd. cbv zeta.
    rewrite Hvqi, Hvki, Hvvi, Hvq, Hvk, Hvv, Hs7. cbn [src_index].
    rewrite !Hproj by lia. unfold qkv_entry. cbv zeta.
    repeat split; f_equal; apply sum_n_ext; intros c Hc;
      (rewrite Himg by assumption); reflexivity.
  - intros b h m d Hb Hh' Hm Hd.
    rewrite Hvqc, Hsq. cbn [src_index IAll upto]. rewrite !slice_start_none.
    cbn [Nat.add]. rewrite Hvq, Hs7. cbn [src_index].
    rewrite Hproj by lia. unfold qkv_entry. cbv zeta.
    f_equal. apply sum_n_ext. intros c Hc. now rewrite Hglob.
Qed.

Lemma padded_size_ge ws n : n <= padded_size ws n.
Proof. unfold padded_size. lia. Qed.

Lemma padded_size_multiple ws n :
  0 < ws -> padded_size ws n = padded_size ws n / ws * ws.
Proof.
  intros Hws.
  assert (Hk : exists k, padded_size ws n = k * ws).
  { unfold padded_size.
    pose proof (Nat.div_mod_eq n ws) as Hn.
    pose proof (Nat.mod_upper_bound n ws ltac:(lia)) as Hm.
    destruct (Nat.eq_dec (n mod ws) 0) as [E|E].
    - exists (n / ws). rewrite E, Nat.sub_0_r, Nat.Div0.mod_same. lia.
    - exists (n / ws + 1). rewrite (Nat.mod_small (ws - n mod ws)) by lia. nia. }
  destruct Hk as [k ->]. now rewrite Nat.div_mul by lia.
Qed.

Ltac pos_prod := repeat apply Nat.mul_pos_pos; lia.

(** The crop of the padded grid back to the image (lines 595-598), with the
    heads: token [n] of the result is the token of the padded grid at row
    [n / W] and column [n mod W]. *)
Lemma crop_grid_heads_ex t B h Hp Wp H W D :
  0 < B -> 0 < h -> 0 < H -> 0 < W -> H <= Hp -> W <= Wp ->
  shape t = [B; h; Hp * Wp; D] ->
  exists r, crop_grid [B; h] Hp Wp H W t = Ok r /\ shape r = [B; h; H * W; D] /\
    forall b hh n d, b < B -> hh < h -> n < H * W -> d < D ->
      val r [b; hh; n; d] = val t [b; hh; n / W * Wp + n mod W; d].
Proof.
  intros HB Hh HH HW HHp HWp Ht. unfold crop_grid. cbn [map app].
  tstep (view_infer_ex [Some B; Some h; Some Hp; Some Wp; None] [B; h; Hp; Wp; D] t)
    as t1 Hs1 Hv1.
  { rewrite Ht. unfold infer_shape. cbn [map fold_right numel].
    do 4 f_equal. f_equal. apply infer_div; [pos_prod | ring]. }
  { rewrite Ht. cbn. ring. }
  tstep (getitem_ok [IAll; IAll; upto H; upto W] t1 [B; h; H; W; D]) as t2 Hs2 Hv2.
  { rewrite Hs1. cbn [sel_shape bind IAll upto].
    now rewrite !slice_len_all, !slice_len_upto, !Nat.min_l by assumption. }
  destruct (view_infer_ex [Some B; Some h; Some (H * W); None] [B; h; H * W; D] t2)
    as (r & Er & Hsr & Hvr).
  { rewrite Hs2. unfold infer_shape. cbn [map fold_right numel].
    do 3 f_equal. f_equal. apply infer_div; [pos_prod | ring]. }
  { rewrite Hs2. cbn. ring. }
  exists r. split; [exact Er|]. split; [exact Hsr|].
  intros b hh n d Hb Hhh Hn Hd.
  assert (Hi : n / W < H) by (apply Nat.Div0.div_lt_upper_bound; lia).
  assert (Hj : n mod W < W) by (apply Nat.mod_upper_bound; lia).
  rewrite Hvr, Hs2.
  rewrite (unravel_ravel_eq [B; h; H; W; D] _ [b; hh; n / W; n mod W; d]).
  2:{ cbn [inb]. repeat split; lia. }
  2:{ cbn [ravel numel fold_right].
      pose proof (Nat.div_mod_eq n W) as Hdm. rewrite Hdm at 1. ring. }
  rewrite Hv2, Hs1. cbn [src_index IAll upto]. rewrite !slice_start_none.
  cbn [Nat.add]. rewrite Hv1, Ht.
  rewrite (unravel_ravel_eq [B; h; Hp * Wp; D] _ [b; hh; n / W * Wp + n mod W; d]).
  2:{ cbn [inb]. repeat split; try lia. apply mixed_radix_lt; lia. }
  2:{ cbn [ravel numel fold_right]. ring. }
  reflexivity.
Qed.

(** The same crop without the heads. *)
Lemma crop_grid_tokens_ex t B Hp Wp H W D :
  0 < B -> 0 < H -> 0 < W -> H <= Hp -> W <= Wp ->
  shape t = [B; Hp * Wp; D] ->
  exists r, crop_grid [B] Hp Wp H W t = Ok r /\ shape r = [B; H * W; D] /\
    forall b n d, b < B -> n < H * W -> d < D ->
      val r [b; n; d] = val t [b; n / W * Wp + n mod W; d].
Proof.
  intros HB HH HW HHp HWp Ht. unfold crop_grid. cbn [map app].
  tstep (view_infer_ex [Some B; Some Hp; Some Wp; None] [B; Hp; Wp; D] t)
    as t1 Hs1 Hv1.
  { rewrite Ht. unfold infer_shape. cbn [map fold_right numel].
    do 3 f_equal. f_equal. apply infer_div; [pos_prod | ring]. }
  { rewrite Ht. cbn. ring. }
  tstep (getitem_ok [IAll; upto H; upto W] t1 [B; H; W; D]) as t2 Hs2 Hv2.
  { rewrite Hs1. cbn [sel_shape bind IAll upto].
    now rewrite !slice_len_all, !slice_len_upto, !Nat.min_l by assumption. }
  destruct (view_infer_ex [Some B; Some (H * W); None] [B; H * W; D] t2)
    as (r & Er & Hsr & Hvr).
  { rewrite Hs2. unfold infer_shape. cbn [map fold_right numel].
    do 2 f_equal. f_equal. apply infer_div; [pos_prod | ring]. }
  { rewrite Hs2. cbn. ring. }
  exists r. split; [exact Er|]. split; [exact Hsr|].
  intros b n d Hb Hn Hd.
  assert (Hi : n / W < H) by (apply Nat.Div0.div_lt_upper_bound; lia).
  assert (Hj : n mod W < W) by (apply Nat.mod_upper_bound; lia).
  rewrite Hvr, Hs2.
  rewrite (unravel_ravel_eq [B; H; W; D] _ [b; n / W; n mod W; d]).
  2:{ cbn [inb]. repeat split; lia. }
  2:{ cbn [ravel numel fold_right].
      pose proof (Nat.div_mod_eq n W) as Hdm. rewrite Hdm at 1. ring. }
  rewrite Hv2, Hs1. cbn [src_index IAll upto]. rewrite !slice_start_none.
  cbn [Nat.add]. rewrite Hv1, Ht.
  rewrite (unravel_ravel_eq [B; Hp * Wp; D] _ [b; n / W * Wp + n mod W; d]).
  2:{ cbn [inb]. repeat split; try lia. apply mixed_radix_lt; lia. }
  2:{ cbn [ravel numel fold_right]. ring. }
  reflexivity.
Qed.

(** Padding never reaches the global passes: after the crop (lines 596-598) the
    query, key and value of image token [n] are the projections of that
    token alone, whatever the window size and the amount of padding. *)
Theorem cropped_qkv_of_image_tokens a x H W B hd :
  shape x = [B; num_tokens a + H * W; dim a] ->
  0 < B -> 0 < H -> 0 < W -> 0 < window_size a -> 0 < num_heads a -> 0 < hd ->
  dim a = num_heads a * hd ->
  exists q_img k_img v_img q_cls Hp Wp qc kc vc,
    padded_qkv a x H W = Ok (q_img, k_img, v_img, q_cls, (B, dim a, Hp, Wp)) /\
    crop_grid [B; num_heads a] Hp Wp H W q_img = Ok qc /\
    crop_grid [B; num_heads a] Hp Wp H W k_img = Ok kc /\
    crop_grid [B; num_heads a] Hp Wp H W v_img = Ok vc /\
    shape qc = [B; num_heads a; H * W; hd] /\
    shape kc = [B; num_heads a; H * W; hd] /\
    shape vc = [B; num_heads a; H * W; hd] /\
    forall b h n d, b < B -> h < num_heads a -> n < H * W -> d < hd ->
      let tok c := val x [b; num_tokens a + n; c] in
      val qc [b; h; n; d] = qkv_entry a hd tok 0 h d /\
      val kc [b; h; n; d] = qkv_entry a hd tok 1 h d /\
      val vc [b; h; n; d] = qkv_entry a hd tok 2 h d.
Proof.
  intros Hx HB HH HW Hws Hh Hhd Hdim.
  destruct (padded_qkv_ex a x H W B hd Hx HB Hws Hh Hhd Hdim)
    as (q_img & k_img & v_img & q_cls & E & Hsq & Hsk & Hsv & _ & Hval & _).
  cbv zeta in E, Hsq, Hsk, Hsv, Hval.
  set (Hp := padded_size (window_size a) H) in *.
  set (Wp := padded_size (window_size a) W) in *.
  assert (HHp : H <= Hp) by apply padded_size_ge.
  assert (HWp : W <= Wp) by apply padded_size_ge.
  destruct (crop_grid_heads_ex q_img B (num_heads a) Hp Wp H W hd) as (qc & Eq & Hsqc & Hvq);
    try assumption.
  destruct (crop_grid_heads_ex k_img B (num_heads a) Hp Wp H W hd) as (kc & Ek & Hskc & Hvk);
    try assumption.
  destruct (crop_grid_heads_ex v_img B (num_heads a) Hp Wp H W hd) as (vc & Ev & Hsvc & Hvv);
    try assumption.
  exists q_img, k_img, v_img, q_cls, Hp, Wp, qc, kc, vc.
  repeat (split; [assumption|]).
  intros b h n d Hb Hh' Hn Hd. cbv zeta.
  assert (Hi : n / W < H) by (apply Nat.Div0.div_lt_upper_bound; lia).
  assert (Hj : n mod W < W) by (apply Nat.mod_upper_bound; lia).
  rewrite Hvq, Hvk, Hvv by assumption.
  assert (Hm : n / W * Wp + n mod W < Hp * Wp) by (apply mixed_radix_lt; lia).
  destruct (Hval b h (n / W * Wp + n mod W) d Hb Hh' Hm Hd) as (-> & -> & ->).
  assert (Ediv : (n / W * Wp + n mod W) / Wp = n / W)
    by (rewrite Nat.div_add_l by lia; rewrite (Nat.div_small (n mod W) Wp) by lia; lia).
  assert (Emod : (n / W * Wp + n mod W) mod Wp = n mod W)
    by (rewrite (Nat.add_comm (n / W * Wp)), Nat.Div0.mod_add, Nat.mod_small by lia; lia).
  rewrite Ediv, Emod.
  destruct (Nat.ltb_spec (n / W) H); [|lia].
  destruct (Nat.ltb_spec (n mod W) W); [|lia]. cbn [andb].
  replace (n / W * W + n mod W) with n
    by (pose proof (Nat.div_mod_eq n W); lia).
  repeat split; reflexivity.
Qed.

Lemma cropped_qkv_of_image_tokens_witness :
  exists q_img k_img v_img q_cls Hp Wp qc kc vc,
    padded_qkv demo_attention demo_tokens 1 1
      = Ok (q_img, k_img, v_img, q_cls, (1, 1, Hp, Wp)) /\
    crop_grid [1; 1] Hp Wp 1 1 q_img = Ok qc /\
    crop_grid [1; 1] Hp Wp 1 1 k_img = Ok kc /\
    crop_grid [1; 1] Hp Wp 1 1 v_img = Ok vc /\
    shape qc = [1; 1; 1; 1] /\
    shape kc = [1; 1; 1; 1] /\
    shape vc = [1; 1; 1; 1] /\
    forall b h n d, b < 1 -> h < 1 -> n < 1 -> d < 1 ->
      let tok c := val demo_tokens [b; 1 + n; c] in
      val qc [b; h; n; d] = qkv_entry demo_attention 1 tok 0 h d /\
      val kc [b; h; n; d] = qkv_entry demo_attention 1 tok 1 h d /\
      val vc [b; h; n; d] = qkv_entry demo_attention 1 tok 2 h d.
Proof.
  apply (cropped_qkv_of_image_tokens demo_attention demo_tokens 1 1 1 1);
    try (cbn; lia); reflexivity.
Defined.

(** ** [Attention.forward] and [SGLB.forward] return, with the input's shape *)

Lemma Attention_forward_ex a x H W B hd :
  shape x = [B; num_tokens a + H * W; dim a] ->
  0 < B -> 0 < H -> 0 < W -> 0 < num_tokens a ->
  0 < window_size a -> 0 < num_heads a -> 0 < hd ->
  dim a = num_heads a * hd ->
  exists r, Attention_forward a x H W = Ok r /\
            shape r = [B; num_tokens a + H * W; dim a].
Proof.
  intros Hx HB HH HW HNC Hws Hh Hhd Hdim.
  destruct (padded_qkv_ex a x H W B hd Hx HB Hws Hh Hhd Hdim)
    as (q_img & k_img & v_img & q_cls & E & Hsq & Hsk & Hsv & Hsc & _ & _).
  cbv zeta in E, Hsq, Hsk, Hsv, Hsc.
  set (ws := window_size a) in *. set (h := num_heads a) in *.
  set (NC := num_tokens a) in *. set (C := dim a) in *.
  assert (HHp : H <= padded_size ws H) by apply padded_size_ge.
  assert (HWp : W <= padded_size ws W) by apply padded_size_ge.
  pose proof (padded_size_multiple ws H Hws) as EH.
  pose proof (padded_size_multiple ws W Hws) as EW.
  set (Hp := padded_size ws H) in *. set (Wp := padded_size ws W) in *.
  clearbody Hp Wp.
  set (hg := Hp / ws) in *. set (wg := Wp / ws) in *. clearbody hg wg. subst Hp Wp.
  assert (Hhg : 0 < hg) by nia. assert (Hwg : 0 < wg) by nia.
  unfold Attention_forward, Attention_forward_with. rewrite E. cbn [bind].
  fold h C.
  (* local window attention, restored to the original size *)
  destruct (forward_local_ex a q_img k_img v_img B hg wg hd hd)
    as (xl & El & Hsl & _); try assumption.
  fold ws in El, Hsl. fold h in Hsl. rewrite El. cbn [bind].
  assert (Ehd : h * hd = C) by (unfold C; lia).
  tstep (crop_grid_tokens_ex xl B (hg * ws) (wg * ws) H W (h * hd)) as xi Hsi Hvi;
    try assumption.
  tstep (crop_grid_heads_ex q_img B h (hg * ws) (wg * ws) H W hd) as qc Hsqc Hvqc;
    try assumption.
  tstep (crop_grid_heads_ex k_img B h (hg * ws) (wg * ws) H W hd) as kc Hskc Hvkc;
    try assumption.
  tstep (crop_grid_heads_ex v_img B h (hg * ws) (wg * ws) H W hd) as vc Hsvc Hvvc;
    try assumption.
  (* global aggregation *)
  unfold forward_global_aggregation, shape4. rewrite Hsc. cbn [bind].
  tstep (attend_none_ex a q_cls kc vc B h NC (H * W) hd hd) as xc Hsxc Hvxc;
    try assumption.
  rewrite Ehd in Hsxc.
  tstep (linear_tokens_ex C (C * 2) (kv_global_weight a) (kv_global_bias a) xc B NC Hsxc)
    as kv Hskv Hvkv.
  unfold split_heads. fold h.
  replace (C / h) with hd by (symmetry; apply infer_div; [lia | unfold C; lia]).
  tstep (view_infer_ex [Some B; None; Some 2; Some h; Some hd] [B; NC; 2; h; hd] kv)
    as kv1 Hskv1 Hvkv1.
  { rewrite Hskv. unfold infer_shape. cbn [map fold_right numel].
    f_equal. f_equal. apply infer_div; [pos_prod | rewrite <- Ehd; ring]. }
  { rewrite Hskv. cbn [numel fold_right]. rewrite <- Ehd. ring. }
  tstep (split_permute_ex kv1 _ _ _ _ _ Hskv1) as kv2 Hskv2 Hvkv2.
  tstep (getitem_ok [IAt 0] kv2 [B; h; NC; hd]) as k_cls Hskc' Hvkc'.
  { rewrite Hskv2. reflexivity. }
  tstep (getitem_ok [IAt 1] kv2 [B; h; NC; hd]) as v_cls Hsvc' Hvvc'.
  { rewrite Hskv2. reflexivity. }
  (* global broadcast *)
  unfold forward_global_broadcast, shape4. rewrite Hsqc. cbn [bind].
  tstep (attend_none_ex a qc k_cls v_cls B h (H * W) NC hd hd) as bc Hsbc Hvbc;
    try assumption; try nia.
  destruct (binop_same_shape Rplus xi bc) as (xs & Exs & Hsxs & _); [congruence|].
  unfold tadd. rewrite Exs. cbn [bind].
  rewrite Hsi, Ehd in Hsxs.
  tstep (cat_tokens_ex xc xs B NC (H * W) C Hsxc Hsxs) as xo Hsxo Hvxo.
  destruct (linear_tokens_ex C C (proj_weight a) (Some (proj_bias a)) xo B (NC + H * W) Hsxo)
    as (r & Er & Hsr & _).
  exists r. split; assumption.
Qed.

(** [Attention.forward] accepts every image size: with at least one global
    token and a positive height and width, multiples of the window size or
    not, it returns a tensor of the shape of its input. *)
Theorem Attention_forward_shape a x H W B hd :
  shape x = [B; num_tokens a + H * W; dim a] ->
  0 < B -> 0 < H -> 0 < W -> 0 < num_tokens a ->
  0 < window_size a -> 0 < num_heads a -> 0 < hd ->
  dim a = num_heads a * hd ->
  exists r, Attention_forward a x H W = Ok r /\
            shape r = [B; num_tokens a + H * W; dim a].
Proof. exact (Attention_forward_ex a x H W B hd). Qed.

Lemma Attention_forward_shape_witness :
  exists r, Attention_forward demo_attention demo_tokens 1 1 = Ok r /\
            shape r = [1; 1 + 1 * 1; 1].
Proof.
  apply (Attention_forward_shape demo_attention demo_tokens 1 1 1 1);
    try (cbn; lia); reflexivity.
Defined.

Lemma slice_len_last k n :
  0 < n -> slice_len (Some (- Z.of_nat n)%Z) None (k + n) = n.
Proof.
  intros Hn. unfold slice_len, slice_stop, slice_start, norm_bound.
  destruct (Z.ltb_spec (- Z.of_nat n) 0); lia.
Qed.

Lemma SGLB_forward_ex a g x B H W hd :
  shape x = [B; dim a; H; W] ->
  shape g = [1; num_tokens a; dim a] ->
  0 < B -> 0 < H -> 0 < W -> 0 < num_tokens a ->
  0 < window_size a -> 0 < num_heads a -> 0 < hd ->
  dim a = num_heads a * hd ->
  exists r, SGLB_forward a g x = Ok r /\ shape r = [B; dim a; H; W].
Proof.
  intros Hx Hg HB HH HW HNC Hws Hh Hhd Hdim.
  set (C := dim a) in *. set (NC := num_tokens a) in *.
  assert (HC : 0 < C) by (unfold C; nia).
  unfold SGLB_forward, shape4. rewrite Hx. cbn [bind].
  tstep (view_ex [B; C; H * W] x) as x1 Hs1 Hv1.
  { rewrite Hx. cbn. ring. }
  tstep (permute_ex [0; 2; 1] x1) as x2 Hs2 Hv2; [now rewrite Hs1 | reflexivity |].
  rewrite Hs1 in Hs2. cbn [map nth] in Hs2.
  unfold shape3. rewrite Hg. cbn [bind Nat.eqb].
  unfold repeat_. rewrite Hg. cbn [length Nat.leb Nat.sub List.repeat app zip_with bind].
  rewrite !Nat.mul_1_l, Nat.mul_1_r.
  match goal with |- context [cat 1 ?t x2] => set (g1 := t) end.
  tstep (cat_tokens_ex g1 x2 B NC (H * W) C eq_refl Hs2) as x3 Hs3 Hv3.
  destruct (Attention_forward_ex a x3 H W B hd Hs3 HB HH HW HNC Hws Hh Hhd Hdim)
    as (x4 & E4 & Hs4).
  rewrite E4. cbn [bind]. fold NC C in Hs4.
  tstep (getitem_ok [IAll; ISlice (Some (- Z.of_nat (H * W))%Z) None] x4 [B; H * W; C])
    as x5 Hs5 Hv5.
  { rewrite Hs4. cbn [sel_shape bind IAll]. rewrite slice_len_all, slice_len_last by nia. reflexivity. }
  fold C.
  tstep (view_infer_ex [None; Some H; Some W; Some C] [B; H; W; C] x5) as x6 Hs6 Hv6.
  { rewrite Hs5. unfold infer_shape. cbn [map fold_right numel].
    f_equal. apply infer_div; [pos_prod | ring]. }
  { rewrite Hs5. cbn. ring. }
  destruct (permute_ex [0; 3; 1; 2] x6) as (r & Er & Hsr & _);
    [now rewrite Hs6 | reflexivity |].
  rewrite Hs6 in Hsr. exists r. split; assumption.
Qed.

(** [SGLB.forward] maps a feature map [B, dim, H, W] to a feature map of the
    same shape, for every positive height and width. *)
Theorem SGLB_forward_shape a g x B H W hd :
  shape x = [B; dim a; H; W] ->
  shape g = [1; num_tokens a; dim a] ->
  0 < B -> 0 < H -> 0 < W -> 0 < num_tokens a ->
  0 < window_size a -> 0 < num_heads a -> 0 < hd ->
  dim a = num_heads a * hd ->
  exists r, SGLB_forward a g x = Ok r /\ shape r = [B; dim a; H; W].
Proof. exact (SGLB_forward_ex a g x B H W hd). Qed.

Lemma SGLB_forward_shape_witness :
  exists r, SGLB_forward demo_attention (full [1; 1; 1] 0%R) (full [1; 1; 3; 5] 1%R) = Ok r /\
            shape r = [1; 1; 3; 5].
Proof.
  apply (SGLB_forward_shape demo_attention (full [1; 1; 1] 0%R) (full [1; 1; 3; 5] 1%R)
           1 3 5 1); try (cbn; lia); reflexivity.
Defined.

(** ** Layer normalisation (lines 121-187) *)

Lemma LayerNorm_forward_ex n x B C H W :
  shape x = [B; C; H; W] -> C = norm_dim n ->
  exists r, LayerNorm_forward n x = Ok r /\ shape r = [B; C; H; W] /\
    forall b c h w,
      val r [b; c; h; w] =
        match norm_type n with
        | BiasFree =>
            (val x [b; c; h; w] / sqrt (channel_var x C b h w + 1 / 100000)
             * norm_weight n c)%R
        | _ =>
            ((val x [b; c; h; w] - channel_mean x C b h w)
             / sqrt (channel_var x C b h w + 1 / 100000) * norm_weight n c
             + norm_bias n c)%R
        end.
Proof.
  intros Hx HC. unfold LayerNorm_forward, shape4. rewrite Hx. cbn [bind].
  rewrite HC, Nat.eqb_refl.
  eexists. split; [reflexivity|]. split; [reflexivity|].
  intros b c h w. cbn [val]. destruct (norm_type n); reflexivity.
Qed.

Lemma sum_n_const n c : sum_n n (fun _ => c) = (INR n * c)%R.
Proof.
  induction n as [|n IH]; [cbn; lra|].
  cbn [sum_n]. rewrite IH, S_INR. lra.
Qed.

Lemma channel_mean_shift x x' C b h w s :
  0 < C ->
  (forall c, c < C -> val x' [b; c; h; w] = (val x [b; c; h; w] + s)%R) ->
  channel_mean x' C b h w = (channel_mean x C b h w + s)%R.
Proof.
  intros HC Hs. unfold channel_mean.
  rewrite (sum_n_ext C _ (fun c => (val x [b; c; h; w] + s)%R)) by exact Hs.
  rewrite sum_n_plus, sum_n_const.
  assert (INR C <> 0)%R by (apply not_0_INR; lia). field. assumption.
Qed.

Lemma channel_var_shift x x' C b h w s :
  0 < C ->
  (forall c, c < C -> val x' [b; c; h; w] = (val x [b; c; h; w] + s)%R) ->
  channel_var x' C b h w = channel_var x C b h w.
Proof.
  intros HC Hs. unfold channel_var.
  rewrite (channel_mean_shift x x' C b h w s HC Hs).
  f_equal. apply sum_n_ext. intros c Hc. rewrite Hs by assumption. ring.
Qed.

(** The normalisation with a mean ([WithBias], and [nn.LayerNorm]) does not
    see an offset that is common to the channels of a pixel. *)
Theorem LayerNorm_offset_invariant n x x' s B C H W :
  norm_type n <> BiasFree ->
  shape x = [B; C; H; W] -> shape x' = [B; C; H; W] -> C = norm_dim n -> 0 < C ->
  (forall b c h w, b < B -> c < C -> h < H -> w < W ->
     val x' [b; c; h; w] = (val x [b; c; h; w] + s b h w)%R) ->
  exists r r',
    LayerNorm_forward n x = Ok r /\ LayerNorm_forward n x' = Ok r' /\ teq r r'.
Proof.
  intros Hty Hx Hx' HC HCpos Hs.
  destruct (LayerNorm_forward_ex n x B C H W Hx HC) as (r & Er & Hsr & Hvr).
  destruct (LayerNorm_forward_ex n x' B C H W Hx' HC) as (r' & Er' & Hsr' & Hvr').
  exists r, r'. split; [exact Er|]. split; [exact Er'|]. split; [congruence|].
  rewrite Hsr. intros idx Hin.
  destruct idx as [|b [|c [|h [|w [|? ?]]]]]; cbn [inb] in Hin; try tauto.
  destruct Hin as (Hb & Hc & Hh & Hw & _).
  rewrite Hvr, Hvr'.
  assert (Hs' : forall c', c' < C ->
            val x' [b; c'; h; w] = (val x [b; c'; h; w] + s b h w)%R)
    by (intros; now apply Hs).
  rewrite (channel_var_shift x x' C b h w (s b h w) HCpos Hs').
  rewrite (channel_mean_shift x x' C b h w (s b h w) HCpos Hs').
  rewrite Hs' by assumption.
  destruct (norm_type n); [contradiction | |]; f_equal; f_equal; f_equal; ring.
Qed.

Lemma LayerNorm_offset_invariant_witness :
  exists r r',
    LayerNorm_forward demo_norm (full [1; 1; 1; 1] 1%R) = Ok r /\
    LayerNorm_forward demo_norm (full [1; 1; 1; 1] 3%R) = Ok r' /\ teq r r'.
Proof.
  apply (LayerNorm_offset_invariant demo_norm (full [1; 1; 1; 1] 1%R)
           (full [1; 1; 1; 1] 3%R) (fun _ _ _ => 2%R) 1 1 1 1);
    try reflexivity; try lia; first [discriminate | intros; cbn; lra].
Defined.

(** A pixel whose channels are all equal has no variance: the normalisation
    with a mean returns the bias there, and the one without a mean divides
    the pixel by [sqrt(1e-5)]. *)
Theorem LayerNorm_constant_pixel n x B C H W b h w v :
  shape x = [B; C; H; W] -> C = norm_dim n -> 0 < C ->
  (forall c, c < C -> val x [b; c; h; w] = v) ->
  exists r, LayerNorm_forward n x = Ok r /\
    forall c, c < C ->
      val r [b; c; h; w] =
        match norm_type n with
        | BiasFree => (v / sqrt (1 / 100000) * norm_weight n c)%R
        | _ => norm_bias n c
        end.
Proof.
  intros Hx HC HCpos Hv.
  destruct (LayerNorm_forward_ex n x B C H W Hx HC) as (r & Er & Hsr & Hvr).
  exists r. split; [exact Er|]. intros c Hc. rewrite Hvr.
  assert (Hmu : channel_mean x C b h w = v).
  { unfold channel_mean. rewrite (sum_n_ext C _ (fun _ => v)) by exact Hv.
    rewrite sum_n_const. assert (INR C <> 0)%R by (apply not_0_INR; lia).
    field. assumption. }
  assert (Hvar : channel_var x C b h w = 0%R).
  { unfold channel_var. rewrite Hmu.
    rewrite (sum_n_ext C _ (fun _ => 0%R)) by (intros c' Hc'; rewrite Hv by assumption; ring).
    rewrite sum_n_zero. unfold Rdiv. apply Rmult_0_l. }
  rewrite Hmu, Hvar, Hv by assumption. rewrite Rplus_0_l.
  destruct (norm_type n); try reflexivity;
    unfold Rminus; rewrite Rplus_opp_r; unfold Rdiv; rewrite !Rmult_0_l; apply Rplus_0_l.
Qed.

Lemma LayerNorm_constant_pixel_witness :
  exists r, LayerNorm_forward demo_norm (full [1; 1; 1; 1] 3%R) = Ok r /\
    forall c, c < 1 -> val r [0; c; 0; 0] = 0%R.
Proof.
  apply (LayerNorm_constant_pixel demo_norm (full [1; 1; 1; 1] 3%R) 1 1 1 1 0 0 0 3%R);
    try reflexivity; lia.
Defined.

(** ** The Local-NonLocal block keeps the shape (lines 225-230) *)

Lemma attention_step_ex non_local blk x B C H W hd :
  0 < B -> 0 < H -> 0 < W -> 0 < hd ->
  block_ok B C H W hd blk -> shape x = [B; C; H; W] ->
  exists r, attention_step non_local blk x = Ok r /\ shape r = [B; C; H; W].
Proof.
  intros HB HH HW Hhd (Hn1 & _ & Hd & Hg & HNC & Hws & Hh & HC & _) Hx.
  unfold attention_step, attention_module.
  assert (Hadd : forall t, shape t = [B; C; H; W] ->
            exists r, tadd x t = Ok r /\ shape r = [B; C; H; W]).
  { intros t Ht. destruct (binop_same_shape Rplus x t) as (r & Er & Hsr & _);
      [congruence|]. exists r. split; [exact Er | congruence]. }
  destruct non_local.
  - unfold PreNorm_forward.
    destruct (LayerNorm_forward_ex (attn_norm blk) x B C H W Hx (eq_sym Hn1))
      as (x1 & E1 & Hs1 & _).
    rewrite E1. cbn [bind]. rewrite <- Hd in Hs1, Hg, HC.
    destruct (SGLB_forward_ex (attn_params blk) (global_token blk) x1 B H W hd
                Hs1 Hg HB HH HW HNC Hws Hh Hhd HC) as (x2 & E2 & Hs2).
    rewrite E2. cbn [bind]. apply Hadd. now rewrite Hs2, Hd.
  - unfold Identity. cbn [bind]. now apply Hadd.
Qed.

(** [LocalNonLocalBlock.forward] returns a feature map of the shape of its
    input, with the attention or without it, whatever the number of
    sub-blocks. *)
Theorem LocalNonLocalBlock_forward_shape non_local blocks x B C H W hd :
  0 < B -> 0 < H -> 0 < W -> 0 < hd ->
  Forall (block_ok B C H W hd) blocks -> shape x = [B; C; H; W] ->
  exists r, LocalNonLocalBlock_forward non_local blocks x = Ok r /\
            shape r = [B; C; H; W].
Proof.
  intros HB HH HW Hhd Hok. revert x.
  induction Hok as [|blk blocks Hblk _ IH]; intros x Hx.
  - exists x. split; [reflexivity | exact Hx].
  - cbn [LocalNonLocalBlock_forward].
    destruct (attention_step_ex non_local blk x B C H W hd HB HH HW Hhd Hblk Hx)
      as (x1 & E1 & Hs1).
    rewrite E1. cbn [bind].
    destruct Hblk as (_ & Hn2 & _ & _ & _ & _ & _ & _ & Hffn).
    unfold ffn_module, PreNorm_forward.
    destruct (LayerNorm_forward_ex (ffn_norm blk) x1 B C H W Hs1 (eq_sym Hn2))
      as (x2 & E2 & Hs2 & _).
    rewrite E2. cbn [bind].
    destruct (Hffn x2 Hs2) as (f & Ef & Hsf). rewrite Ef. cbn [bind].
    destruct (binop_same_shape Rplus x1 f) as (x3 & E3 & Hs3 & _); [congruence|].
    unfold tadd. rewrite E3. cbn [bind]. apply IH. congruence.
Qed.

Lemma LocalNonLocalBlock_forward_shape_witness :
  exists r, LocalNonLocalBlock_forward true [demo_block; demo_block]
              (full [1; 1; 3; 5] 1%R) = Ok r /\
            shape r = [1; 1; 3; 5].
Proof.
  apply (LocalNonLocalBlock_forward_shape true [demo_block; demo_block]
           (full [1; 1; 3; 5] 1%R) 1 1 3 5 1); try lia; try reflexivity.
  assert (Hb : block_ok 1 1 3 5 1 demo_block).
  { unfold block_ok. cbn. repeat split; try lia.
    intros t Ht. eexists. split; [reflexivity | exact Ht]. }
  apply Forall_cons; [exact Hb|]. apply Forall_cons; [exact Hb|]. apply Forall_nil.
Defined.

(** ** Runs that return *)

Lemma returns_inv {A} (P : A -> store -> Prop) o :
  returns P o -> exists a s, o = Done a s /\ P a s.
Proof. destruct o as [a s|e s]; cbn; [eauto | tauto]. Qed.

Lemma wp_returns_bind {A B} (m : M A) (k : A -> M B) s (P : A -> store -> Prop) Q :
  wp m s (returns P) ->
  (forall a s', P a s' -> wp (k a) s' Q) ->
  wp (mbind m k) s Q.
Proof.
  intros H HD. eapply wp_bind; [exact H | intros a s' Ha; now apply HD |].
  intros e s' [].
Qed.

Lemma mfor_returns {S} (Inv : nat -> S -> store -> Prop) body N :
  (forall i st s, i < N -> Inv i st s ->
                  wp (body i st) s (returns (Inv (Datatypes.S i)))) ->
  forall st s, Inv 0 st s -> wp (mfor N st body) s (returns (Inv N)).
Proof.
  induction N as [|k IH]; intros Hbody st s HI.
  - exact HI.
  - cbn [mfor]. eapply wp_returns_bind.
    + apply IH; [|exact HI]. intros i st' s' Hi. apply Hbody. lia.
    + intros st' s' HI'. apply Hbody; [lia | exact HI'].
Qed.

Lemma frame_next n m s0 s s' :
  unchanged_below n s0 s -> unchanged_below m s s' -> n <= m ->
  unchanged_below n s0 s'.
Proof.
  intros F U Hm. eapply unchanged_below_trans; [exact F|].
  eapply unchanged_below_le; eassumption.
Qed.

Lemma frame_heap_eq n s0 s s' :
  unchanged_below n s0 s -> heap s' = heap s -> unchanged_below n s0 s'.
Proof. intros [L H] E. unfold unchanged_below. now rewrite E. Qed.

(** The steps below keep, when there is one, a hypothesis
    [unchanged_below n s0 s] and a hypothesis [trace s = _] about the
    current store [s], and move the [cell] facts along. *)
Ltac frame_step s s' U :=
  lazymatch goal with
  | F : unchanged_below ?n ?s0 s |- _ =>
      let F' := fresh "F" in
      pose proof (proj1 F);
      assert (F' : unchanged_below n s0 s')
        by (apply (frame_next n _ s0 s s' F U); cell_bounds; lia);
      clear F U
  | _ => idtac
  end.

Ltac trace_step s T :=
  lazymatch goal with
  | TR : trace s = _ |- _ => rewrite TR in T
  | _ => idtac
  end.

(** A step that allocates the known result [Ok v]. *)
Tactic Notation "rfresh" ident(s') :=
  mflat;
  lazymatch goal with
  | |- wp (mbind (fresh (Ok _)) _) ?s _ =>
      apply wp_fresh; [|let e := fresh "e" in let He := fresh "He" in
                        intros e He; discriminate He];
      let v := fresh "v" in
      let E := fresh "E" in
      let C := fresh "C" in
      let L := fresh "L" in
      let T := fresh "T" in
      let U := fresh "U" in
      intros v s' E C L T U; injection E as <-;
      carry_unchanged s U; trace_step s T; frame_step s s' U
  end.

Tactic Notation "ralloc" ident(s') :=
  mflat;
  lazymatch goal with
  | |- wp (mbind (alloc _) _) ?s _ =>
      apply wp_alloc;
      let C := fresh "C" in
      let L := fresh "L" in
      let T := fresh "T" in
      let U := fresh "U" in
      intros s' C L T U;
      carry_unchanged s U; trace_step s T; frame_step s s' U
  end.

Tactic Notation "rlift" :=
  mflat;
  lazymatch goal with
  | |- wp (mbind (lift (Ok _)) _) _ _ =>
      apply wp_lift; [|let e := fresh "e" in let He := fresh "He" in
                       intros e He; discriminate He];
      let a := fresh "a" in
      let E := fresh "E" in
      intros a E; injection E as <-
  end.

(** An in-place step whose result [E : f v = Ok v'] is known. *)
Tactic Notation "rinplace" constr(E) ident(s') :=
  mflat;
  lazymatch goal with
  | |- wp (mbind (inplace ?l _) _) ?s _ =>
      match goal with
      | H : cell s l _ |- _ =>
          apply (wp_inplace _ _ _ _ _ _ H);
          [|let e := fresh "e" in let He := fresh "He" in
            intros e He; cbv beta in He;
            first [discriminate He | rewrite E in He; discriminate He]];
          let v' := fresh "v" in
          let E' := fresh "E" in
          let C := fresh "C" in
          let O := fresh "O" in
          let T := fresh "T" in
          let U := fresh "U" in
          intros v' s' E' C O T U; cbv beta in E';
          first [injection E' as <- | rewrite E in E'; injection E' as <-];
          pose proof (proj1 O);
          carry_only_changed s O; trace_step s T; frame_step s s' U
      end
  end.

Tactic Notation "remit" ident(s') :=
  mflat;
  lazymatch goal with
  | |- wp (mbind (emit _) _) ?s _ =>
      apply wp_emit;
      let HE := fresh "HE" in
      let T := fresh "T" in
      intros s' HE T;
      pose proof (f_equal (@length tensor) HE); carry_heap_eq s HE;
      trace_step s T;
      lazymatch goal with
      | F : unchanged_below ?n ?s0 s |- _ =>
          apply (fun F0 => frame_heap_eq n s0 s s' F0 HE) in F
      | _ => idtac
      end
  end.

Section Returns.

Variable cfg : config.
Variables (fusion_weight : nat -> nat -> R) (fusion_bias : nat -> R).
Variables DL head LNLT_net : nat -> tensor -> list nat -> R.

Lemma conv_stack_ex cin cout f t b h w :
  shape t = [b; cin; h; w] -> 0 < h -> 0 < w ->
  conv_stack cin cout f t = Ok (mkT [b; cout; h; w] (f t)).
Proof.
  intros Ht Hh Hw. unfold conv_stack. rewrite Ht, Nat.eqb_refl.
  destruct (Nat.leb_spec 1 h); [|lia]. destruct (Nat.leb_spec 1 w); [|lia]. reflexivity.
Qed.

Lemma cat_bands_ex x y B n1 n2 H W :
  shape x = [B; n1; H; W] -> shape y = [B; n2; H; W] ->
  exists r, cat 1 x y = Ok r /\ shape r = [B; n1 + n2; H; W] /\
            forall b c h w, val r [b; c; h; w] =
              if c <? n1 then val x [b; c; h; w] else val y [b; c - n1; h; w].
Proof.
  intros Ex Ey. unfold cat. rewrite Ex, Ey.
  cbn [firstn skipn length nth app].
  destruct (list_eq_dec Nat.eq_dec [B] [B]); [|congruence].
  destruct (list_eq_dec Nat.eq_dec [H; W] [H; W]); [|congruence].
  cbn [Nat.ltb Nat.leb Nat.eqb andb].
  eexists. split; [reflexivity|]. split; reflexivity.
Qed.

(** [DADN.forward] on an estimate and a mask [bs, nC, row, col]. *)
Lemma DADN_forward_returns k y phi s yv pv bs row col :
  cell s y yv -> cell s phi pv ->
  shape yv = [bs; WAVE_LENS cfg; row; col] ->
  shape pv = [bs; WAVE_LENS cfg; row; col] ->
  0 < row -> 0 < col ->
  wp (DADN_forward cfg DL head k y phi) s
     (returns (fun '(Phi, mu, nl) s' =>
        unchanged_below (length (heap s)) s s' /\ trace s' = trace s /\
        (exists Pv, cell s' Phi Pv /\ dadn_refine cfg DL k yv pv = Ok Pv /\
                    shape Pv = [bs; WAVE_LENS cfg; row; col]) /\
        (exists mv, cell s' mu mv /\ shape mv = [bs; 1; 1] /\
                    forall idx, (eps < val mv idx)%R) /\
        (exists nv, cell s' nl nv /\ shape nv = [bs; 1; 1; 1] /\
                    forall idx, (eps < val nv idx)%R))).
Proof.
  intros Hy Hp Hsy Hsp Hrow Hcol. set (nC := WAVE_LENS cfg) in *.
  unfold DADN_forward. fold nC.
  destruct (cat_bands_ex pv yv bs nC nC row col Hsp Hsy) as (inp & Einp & Hsinp & _).
  replace (nC + nC) with (nC * 2) in Hsinp by lia.
  pose proof (conv_stack_ex (nC * 2) nC (DL k) inp bs row col Hsinp Hrow Hcol) as Econv.
  set (phi_r := mkT [bs; nC; row; col] (DL k inp)) in *.
  mread. mread. rewrite Einp. cbn [bind]. rewrite Econv. rfresh s1.
  destruct (binop_same_shape Rplus pv phi_r) as (Pv & EP & HsP & _); [exact Hsp|].
  mread. mread. unfold tadd. rewrite EP. rfresh s2.
  rinplace (eq_refl (Ok (tmap relu phi_r))) s3.
  mread.
  assert (Ehead : DADN_head cfg head k (tmap relu phi_r)
                  = Ok (mkT [bs; 2; 1; 1] (head k (tmap relu phi_r)))).
  { unfold DADN_head. cbn [tmap shape phi_r]. fold nC. rewrite Nat.eqb_refl.
    destruct (Nat.leb_spec 1 row); [|lia]. destruct (Nat.leb_spec 1 col); [|lia].
    reflexivity. }
  rewrite Ehead. cbn [bind]. rfresh s4.
  mread. cbn [getitem tmap shape sel_shape IAll bind Nat.ltb Nat.leb].
  rewrite !slice_len_all. rfresh s5.
  mread. cbn [getitem tmap shape sel_shape IAll bind Nat.ltb Nat.leb].
  rewrite !slice_len_all. cbn [unsqueeze shape length Nat.leb firstn skipn app].
  apply wp_last. rfresh s6.
  apply wp_ret. cbn [returns].
  split; [exact F|]. split; [assumption|].
  split; [|split].
  - exists Pv. split; [assumption|]. split.
    + unfold dadn_refine. fold nC. rewrite Einp. cbn [bind]. rewrite Econv.
      cbn [bind]. exact EP.
    + rewrite HsP. exact Hsp.
  - eexists. split; [eassumption|]. split; [reflexivity|].
    intros idx. cbn [val tmap].
    match goal with |- (eps < softplus ?a + eps)%R => pose proof (softplus_pos a) end.
    lra.
  - eexists. split; [eassumption|]. split; [reflexivity|].
    intros idx. cbn [val tmap].
    match goal with |- (eps < softplus ?a + eps)%R => pose proof (softplus_pos a) end.
    lra.
Qed.

End Returns.

Lemma sum_n_split n m f :
  sum_n (n + m) f = (sum_n n f + sum_n m (fun k => f (n + k)%nat))%R.
Proof.
  induction m as [|m IH].
  - rewrite Nat.add_0_r. cbn. lra.
  - rewrite Nat.add_succ_r. cbn [sum_n]. rewrite IH. lra.
Qed.

(** The statement
    [y_shift[:, i, :, lo:hi] = y[:, :, lo:hi]] of [initial], for
    [lo <= hi <= col]. *)
Lemma band_assign_ex yv ys bs nC row col i lo hi :
  shape yv = [bs; row; col] -> shape ys = [bs; nC; row; col] ->
  i < nC -> lo <= hi -> hi <= col ->
  exists r,
    (v <- getitem [IAll; IAll; ISlice (Some (Z.of_nat lo)) (Some (Z.of_nat hi))] yv ;;
     setitem [IAll; IAt i; IAll; ISlice (Some (Z.of_nat lo)) (Some (Z.of_nat hi))] ys v)
      = Ok r /\
    shape r = [bs; nC; row; col] /\
    forall b k h w, b < bs -> k < nC -> h < row -> w < col ->
      val r [b; k; h; w] =
        if (k =? i) && (lo <=? w) && (w <? hi)
        then val yv [b; h; w] else val ys [b; k; h; w].
Proof.
  intros Hy Hs Hi Hlo Hhi.
  assert (Estart : slice_start (Some (Z.of_nat lo)) col = lo)
    by (rewrite slice_start_nat; lia).
  assert (Estop : slice_stop (Some (Z.of_nat hi)) col = hi)
    by (rewrite slice_stop_nat; lia).
  assert (Elen : slice_len (Some (Z.of_nat lo)) (Some (Z.of_nat hi)) col = hi - lo)
    by (unfold slice_len; now rewrite Estart, Estop).
  unfold getitem, setitem. rewrite Hy, Hs. cbn [sel_shape IAll bind shape].
  apply Nat.ltb_lt in Hi as Hi'. rewrite Hi'. cbn [bind].
  rewrite !slice_len_all, Elen, expandable_refl.
  eexists. split; [reflexivity|]. split; [reflexivity|].
  intros b k h w Hb Hk Hh Hw. cbn [val region_index IAll].
  rewrite !slice_start_none, !slice_stop_none, Estart, Estop. cbn [Nat.leb andb].
  apply Nat.ltb_lt in Hb as Hb'. rewrite Hb'.
  destruct (Nat.eqb_spec k i) as [->|Hne]; cbn [andb]; [|reflexivity].
  apply Nat.ltb_lt in Hh as Hh'. rewrite Hh'.
  destruct (Nat.leb_spec lo w) as [Hl|Hl]; cbn [andb option_map]; [|reflexivity].
  destruct (Nat.ltb_spec w hi) as [Hu|Hu]; cbn [andb option_map]; [|reflexivity].
  rewrite !Nat.sub_0_r.
  rewrite bidx_inb by (cbn [inb]; repeat split; lia).
  cbn [src_index IAll]. rewrite !slice_start_none, Estart. cbn [Nat.add].
  f_equal. f_equal. f_equal. f_equal. lia.
Qed.

Section ReturnsInitial.

Variable cfg : config.
Variables (fusion_weight : nat -> nat -> R) (fusion_bias : nat -> R).

(** [CAUN.initial]: the measurement is copied into band [k] of [y_shift] on
    the columns [step*k .. step*k + col - (nC-1)*step), and the 1x1
    convolution [fusion] is applied to [y_shift] and the mask stacked. *)
Lemma initial_returns y Phi s yv pv bs nC row col step :
  cell s y yv -> cell s Phi pv ->
  shape yv = [bs; row; col] -> shape pv = [bs; nC; row; col] ->
  nC = WAVE_LENS cfg -> STEP cfg = Z.of_nat step -> (nC - 1) * step <= col ->
  0 < row -> 0 < col ->
  wp (initial cfg fusion_weight fusion_bias y Phi) s
     (returns (fun z0 s' =>
        unchanged_below (length (heap s)) s s' /\ trace s' = trace s /\
        length (heap s) <= z0 /\
        exists zv, cell s' z0 zv /\ shape zv = [bs; nC; row; col] /\
          forall b o h w, b < bs -> o < nC -> h < row -> w < col ->
            let lit k := (step * k <=? w) && (w <? step * k + (col - (nC - 1) * step)) in
            val zv [b; o; h; w] =
              (sum_n nC (fun k =>
                 fusion_weight o k * (if lit k then val yv [b; h; w] else 0))
               + sum_n nC (fun k => fusion_weight o (nC + k)%nat * val pv [b; k; h; w])
               + fusion_bias o)%R)).
Proof.
  intros Hy Hp Hsy Hsp HnC Hstep Hfit Hrow Hcol.
  unfold initial. mread.
  unfold shape4 at 1. rewrite Hsp. rlift.
  unfold zeros. cbn [forallb].
  replace (0 <=? Z.of_nat bs)%Z with true by (symmetry; apply Z.leb_le; lia).
  replace (0 <=? Z.of_nat nC)%Z with true by (symmetry; apply Z.leb_le; lia).
  replace (0 <=? Z.of_nat row)%Z with true by (symmetry; apply Z.leb_le; lia).
  replace (0 <=? Z.of_nat col)%Z with true by (symmetry; apply Z.leb_le; lia).
  cbn [andb map]. rewrite !Nat2Z.id. rfresh s1.
  set (w0 := col - (nC - 1) * step).
  set (n0 := length (heap s)) in *.
  eapply wp_returns_bind.
  - apply (mfor_returns
             (fun i l s' =>
                l = n0 /\ cell s' y yv /\ cell s' Phi pv /\
                unchanged_below n0 s s' /\ trace s' = trace s /\
                length (heap s') = S n0 /\
                exists ysv, cell s' n0 ysv /\ shape ysv = [bs; nC; row; col] /\
                  forall b k h w, b < bs -> k < nC -> h < row -> w < col ->
                    val ysv [b; k; h; w] =
                      if (k <? i) && (step * k <=? w) && (w <? step * k + w0)
                      then val yv [b; h; w] else 0%R)).
    + intros i l s' Hi (-> & Cy & Cp & F & TR & Ls & ysv & Cys & Hsys & Hvys). cbv zeta.
      rewrite Hstep.
      replace (Z.of_nat step * Z.of_nat i)%Z with (Z.of_nat (step * i)) by lia.
      replace (Z.of_nat (step * i) + Z.of_nat col - (Z.of_nat nC - 1) * Z.of_nat step)%Z
        with (Z.of_nat (step * i + w0)) by (unfold w0; nia).
      destruct (band_assign_ex yv ysv bs nC row col i (step * i) (step * i + w0)
                  Hsy Hsys Hi) as (r & Er & Hsr & Hvr); [lia | unfold w0; nia |].
      mread. apply wp_last. rinplace Er s2.
      apply wp_ret. cbn [returns].
      split; [reflexivity|]. split; [assumption|]. split; [assumption|].
      split; [assumption|]. split; [assumption|]. split; [lia|].
      exists r. split; [assumption|]. split; [assumption|].
      intros b k h w Hb Hk Hh Hw. rewrite Hvr, Hvys by assumption.
      destruct (Nat.eqb_spec k i) as [->|Hne]; cbn [andb].
      * rewrite Nat.ltb_irrefl. cbn [andb].
        replace (i <? S i) with true by (symmetry; apply Nat.ltb_lt; lia).
        cbn [andb].
        destruct (step * i <=? w), (w <? step * i + w0); reflexivity.
      * destruct (Nat.ltb_spec k i), (Nat.ltb_spec k (S i)); try lia; reflexivity.
    + cbn beta. split; [reflexivity|]. repeat (split; [assumption|]).
      eexists. split; [eassumption|]. split; [reflexivity|].
      intros b k h w _ _ _ _. cbn [andb Nat.ltb Nat.leb val full]. reflexivity.
  - intros l s2 (-> & Cy & Cp & F & TR & Ls & ysv & Cys & Hsys & Hvys).
    mread. mread.
    destruct (cat_bands_ex ysv pv bs nC nC row col Hsys Hsp) as (c & Ec & Hsc & Hvc).
    rewrite Ec. cbn [bind]. rewrite <- HnC.
    replace (nC + nC) with (nC * 2) in Hsc by lia.
    unfold conv1x1. rewrite (conv_stack_ex _ _ _ c bs row col Hsc Hrow Hcol).
    apply wp_last. rfresh s3.
    apply wp_ret. cbn [returns].
    split; [assumption|]. split; [assumption|]. split; [lia|].
    eexists. split; [eassumption|]. split; [reflexivity|].
    intros b o h w Hb Ho Hh Hw. cbv zeta. cbn [val].
    replace (nC * 2) with (nC + nC) by lia. rewrite sum_n_split.
    f_equal. f_equal.
    + apply sum_n_ext. intros k Hk. rewrite Hvc.
      destruct (Nat.ltb_spec k nC); [|lia]. rewrite Hvys by assumption.
      destruct (Nat.ltb_spec k nC); [|lia]. reflexivity.
    + apply sum_n_ext. intros k Hk. rewrite Hvc.
      destruct (Nat.ltb_spec (nC + k) nC); [lia|].
      replace (nC + k - nC) with k by lia. reflexivity.
Qed.

End ReturnsInitial.

Lemma broadcast_shapes_scalar s : s <> [] -> broadcast_shapes [1] s = Some s.
Proof.
  intros Hs. unfold broadcast_shapes. cbn [rev app].
  destruct (rev s) as [|c r] eqn:E.
  - apply (f_equal (@rev nat)) in E. rewrite rev_involutive in E. now subst.
  - cbn [bshape_rev]. destruct r as [|? ?]; cbn [bshape_rev];
      (destruct (Nat.eqb_spec 1 c) as [<-|_]; cbn [option_map Nat.eqb];
       rewrite <- E, rev_involutive; reflexivity).
Qed.

Lemma binop_scalar_ex f a b :
  shape a = [1] -> shape b <> [] ->
  exists r, binop f a b = Ok r /\ shape r = shape b.
Proof.
  intros Ha Hb. unfold binop. rewrite Ha, broadcast_shapes_scalar by assumption.
  eexists. split; reflexivity.
Qed.

Lemma binop_shape_ex f a b :
  shape a = shape b -> exists r, binop f a b = Ok r /\ shape r = shape b.
Proof.
  intros E. destruct (binop_same_shape f a b E) as (r & Er & Hs & _).
  exists r. split; [exact Er | congruence].
Qed.

(** The denominator [mu + Phi_s]: [mu] is [bs, 1, 1] from DADN or the
    constant [FloatTensor([1e-6])]. *)
Lemma gradient_ex yv Pzv mv Psv Pv zv bs nC row col :
  shape yv = [bs; row; col] -> shape Pzv = [bs; row; col] ->
  shape mv = [bs; 1; 1] \/ shape mv = [1] ->
  shape Psv = [bs; row; col] ->
  shape Pv = [bs; nC; row; col] -> shape zv = [bs; nC; row; col] ->
  exists xv,
    (num <- tsub yv Pzv ;; den <- tadd mv Psv ;; q <- tdiv num den ;;
     a <- At q Pv ;; tadd zv a) = Ok xv /\
    shape xv = [bs; nC; row; col].
Proof.
  intros Hy Hz Hm Hs HP Hzv.
  destruct (binop_shape_ex Rminus yv Pzv) as (num & En & Hsn); [congruence|].
  assert (Hden : exists den, tadd mv Psv = Ok den /\ shape den = [bs; row; col]).
  { destruct Hm as [Hm|Hm].
    - destruct (tadd_column mv Psv bs row col Hm Hs) as (den & Ed & Hsd & _). eauto.
    - destruct (binop_scalar_ex Rplus mv Psv Hm) as (den & Ed & Hsd);
        [rewrite Hs; discriminate|]. exists den. split; [exact Ed | congruence]. }
  destruct Hden as (den & Ed & Hsd).
  destruct (binop_shape_ex Rdiv num den) as (q & Eq & Hsq); [congruence|].
  rewrite Hsd in Hsq.
  destruct (At_spec q Pv bs nC row col Hsq HP) as (a & Ea & Hsa & _).
  destruct (binop_shape_ex Rplus zv a) as (xv & Ex & Hsx); [congruence|].
  exists xv. unfold tsub, tdiv. rewrite En. cbn [bind]. rewrite Ed. cbn [bind].
  rewrite Eq. cbn [bind]. rewrite Ea. cbn [bind]. split; [exact Ex | congruence].
Qed.

Lemma momentum_ex a b zv bi bs nC row col :
  shape a = [bs; nC; row; col] -> shape b = [bs; nC; row; col] ->
  shape zv = [bs; nC; row; col] -> shape bi = [1] ->
  exists r, (d <- tsub a b ;; m <- tmul bi d ;; tadd zv m) = Ok r /\
            shape r = [bs; nC; row; col].
Proof.
  intros Ha Hb Hz Hbi.
  destruct (binop_shape_ex Rminus a b) as (d & Ed & Hsd); [congruence|].
  destruct (binop_scalar_ex Rmult bi d Hbi) as (m & Em & Hsm); [rewrite Hsd, Hb; discriminate|].
  destruct (binop_shape_ex Rplus zv m) as (r & Er & Hsr); [congruence|].
  exists r. unfold tsub, tmul. rewrite Ed. cbn [bind]. rewrite Em. cbn [bind].
  split; [exact Er | congruence].
Qed.

Section ReturnsStage.

Variable cfg : config.
Variables DL head LNLT_net : nat -> tensor -> list nat -> R.

Lemma LNLT_forward_ex k t bs nC row w :
  OUT_DIM cfg = nC ->
  shape t = [bs; IN_DIM cfg; row; w] ->
  IN_DIM cfg = (if WITH_NOISE_LEVEL cfg then S nC else nC) ->
  reflect_pad_ok row -> reflect_pad_ok w ->
  LNLT_forward cfg LNLT_net k t = Ok (mkT [bs; nC; row; w] (LNLT_net k t)).
Proof.
  intros Hout Ht Hin Hr Hw. unfold LNLT_forward. rewrite Ht.
  unfold reflect_pad_ok in Hr, Hw.
  apply Nat.ltb_lt in Hr, Hw. rewrite Hr, Hw, Nat.eqb_refl. cbn [andb].
  rewrite Hout.
  replace (if WITH_NOISE_LEVEL cfg then IN_DIM cfg - 1 else IN_DIM cfg) with nC
    by (rewrite Hin; destruct (WITH_NOISE_LEVEL cfg); lia).
  rewrite broadcast_shapes_refl. reflexivity.
Qed.

Ltac trace_len s :=
  match goal with
  | T : trace s = _ |- _ => rewrite T, ?length_app; cbn [length]; lia
  end.

(** Lines 762-765. *)
Lemma stage_gradient_returns y Phi mu i st s n0 s0 yv Pv mv zv zh bs nC row col :
  unchanged_below n0 s0 s -> n0 <= length (heap s) ->
  cell s y yv -> cell s Phi Pv -> cell s mu mv ->
  cell s (z st) zv -> cell s (z_hat st) zh ->
  shape yv = [bs; row; col] -> shape Pv = [bs; nC; row; col] ->
  shape mv = [bs; 1; 1] \/ shape mv = [1] ->
  shape zv = [bs; nC; row; col] -> shape zh = [bs; nC; row; col] ->
  wp (stage_gradient y Phi mu i st) s
     (returns (fun x s' =>
        unchanged_below n0 s0 s' /\ length (heap s) <= length (heap s') /\
        length (trace s') = length (trace s) + 1 /\
        n0 <= x /\
        exists xv, cell s' x xv /\ shape xv = [bs; nC; row; col])).
Proof.
  intros F0 Hn0 Cy CP Cm Cz Czh Hsy HsP Hsm Hsz Hszh.
  unfold stage_gradient.
  (* Phi_s = torch.sum(Phi**2, 1) *)
  mread. unfold sum_dim. cbn [tmap shape]. rewrite HsP.
  cbn [length Nat.ltb Nat.leb firstn skipn app nth]. rfresh s1.
  (* Phi_s[Phi_s==0] = 1 *)
  match goal with C : cell s1 (length (heap s)) ?v |- _ => set (Ps0 := v) in * end.
  rinplace (eq_refl (Ok (tmap (fun e => if Req_dec_T e 0 then 1%R else e) Ps0))) s2.
  (* Phi_z = A(z_hat, Phi) *)
  destruct (A_spec zh Pv bs nC row col Hszh HsP) as (Pzv & EA & HsA & _).
  mread. mread. rewrite EA. rfresh s3.
  (* x = z + At(torch.div(y-Phi_z, mu+Phi_s), Phi) *)
  match goal with C : cell s3 (length (heap s)) ?v |- _ => set (Psv := v) in * end.
  destruct (gradient_ex yv Pzv mv Psv Pv zv bs nC row col) as (xv & Ex & Hsx);
    try assumption; try reflexivity.
  mread. mread. mread. mread. mread. mread. rewrite Ex. rlift.
  mread. remit s4. apply wp_last. ralloc s5.
  apply wp_ret. cbn [returns].
  split; [assumption|]. split; [lia|]. split.
  { trace_len s5. }
  split; [lia|]. exists xv. split; assumption.
Qed.

(** Lines 766-772: the unshift overwrites [x], which the stage allocated. *)
Lemma stage_prior_returns x nl W_ i s n0 s0 xv nv bs nC row col :
  unchanged_below n0 s0 s -> n0 <= length (heap s) -> n0 <= x ->
  cell s x xv -> cell s nl nv -> x <> nl ->
  shape xv = [bs; nC; row; col] -> shape nv = [bs; 1; 1; 1] ->
  cfg_fits cfg nC -> 0 < nC -> col = W_ + (nC - 1) * 2 ->
  reflect_pad_ok row -> reflect_pad_ok W_ ->
  wp (stage_prior cfg LNLT_net x nl W_ i) s
     (returns (fun z2 s' =>
        unchanged_below n0 s0 s' /\ length (heap s) <= length (heap s') /\
        trace s' = trace s /\ n0 <= z2 /\
        exists zv2, cell s' z2 zv2 /\ shape zv2 = [bs; nC; row; col])).
Proof.
  intros F0 Hn0 Hx Cx Cn Hne Hsx Hsn (HWL & Hout & Hin) HnC Hcol Hpr Hpw.
  unfold stage_prior, shift_back_3d_ref, shift_3d_ref.
  (* x = shift_back_3d(x)[:, :, :, :W_] *)
  destruct (shift_back_3d_spec xv 2 bs nC row col Hsx) as (xb & Eb & Hsb & _).
  rinplace Eb s1.
  mread.
  assert (Ecrop : getitem [IAll; IAll; IAll; upto W_] xb
                  = Ok (mkT [bs; nC; row; W_]
                          (fun ridx => val xb (src_index [IAll; IAll; IAll; upto W_]
                                                 (shape xb) ridx)))).
  { unfold getitem. rewrite Hsb. cbn [sel_shape bind IAll upto].
    rewrite !slice_len_all, slice_len_upto, Nat.min_l by lia. reflexivity. }
  rewrite Ecrop. set (xc := mkT [bs; nC; row; W_] _) in *. rlift.
  (* noise_level_repeat = noise_level.repeat(1,1,x.shape[2], x.shape[3]) *)
  mread. unfold dim_size. cbn [shape xc nth_error]. rlift. rlift.
  unfold repeat_. rewrite Hsn.
  cbn [length Nat.leb Nat.sub List.repeat app zip_with].
  rewrite !Nat.mul_1_l, !Nat.mul_1_r.
  match goal with |- context [lift (Ok ?t)] => set (nlr := t) end. rlift.
  (* z = self.PP[i](...) *)
  assert (Ez1 : exists z1,
            (if negb (WITH_NOISE_LEVEL cfg)
             then fresh (LNLT_forward cfg LNLT_net (instance cfg i) xc)
             else fresh (c <- cat 1 nlr xc ;; LNLT_forward cfg LNLT_net (instance cfg i) c))
            = fresh (Ok z1) /\ shape z1 = [bs; nC; row; W_]).
  { destruct (WITH_NOISE_LEVEL cfg) eqn:Enl; cbn [negb].
    - destruct (cat_bands_ex nlr xc bs 1 nC row W_ eq_refl eq_refl) as (c & Ec & Hsc & _).
      rewrite Ec. cbn [bind].
      rewrite (LNLT_forward_ex _ c bs nC row W_ Hout);
        try assumption; try (rewrite ?Hsc, ?Hin, ?Enl; reflexivity).
      eexists. split; reflexivity.
    - rewrite (LNLT_forward_ex _ xc bs nC row W_ Hout);
        try assumption; try (rewrite ?Hin, ?Enl; reflexivity).
      eexists. split; reflexivity. }
  destruct Ez1 as (z1 & Ez1 & Hsz1). rewrite Ez1. rfresh s2.
  (* z = shift_3d(z) *)
  destruct (shift_3d_spec z1 2 bs nC row W_ Hsz1) as (z2 & Ez2 & Hsz2 & _); [lia|].
  cbv zeta in Hsz2.
  replace (Z.to_nat (Z.of_nat W_ + (Z.of_nat nC - 1) * 2)) with col in Hsz2 by lia.
  mread. rewrite Ez2. apply wp_last. rfresh s3.
  apply wp_ret. cbn [returns].
  split; [assumption|]. split; [lia|]. split; [assumption|]. split; [lia|].
  exists z2. split; assumption.
Qed.

Lemma frame_between n s0 s s' :
  unchanged_below n s0 s -> unchanged_below n s0 s' ->
  length (heap s) <= length (heap s') -> unchanged_below n s s'.
Proof.
  intros [_ H] [_ H'] L. split; [exact L|].
  intros l Hl. now rewrite H, H' by assumption.
Qed.

(** Lines 773-774. *)
Lemma stage_momentum_returns beta z2 i st s n0 s0 zv2 zold bs nC row col :
  unchanged_below n0 s0 s -> n0 <= length (heap s) ->
  cell s z2 zv2 -> cell s beta (full [col; 1] (1 / 2)%R) -> cell s (z st) zold ->
  neg_index (z_list st) 1 = Ok (z st) -> i < col ->
  shape zv2 = [bs; nC; row; col] -> shape zold = [bs; nC; row; col] ->
  wp (stage_momentum beta z2 i st) s
     (returns (fun st' s' =>
        unchanged_below n0 s0 s' /\ length (heap s) <= length (heap s') /\
        length (trace s') = length (trace s) + 1 /\
        z st' = z2 /\
        (exists zh, cell s' (z_hat st') zh /\ shape zh = [bs; nC; row; col]) /\
        neg_index (z_list st') 1 = Ok (z st'))).
Proof.
  intros F0 Hn0 Cz2 Cb Cz Hlast Hi Hs2 Hsold.
  unfold stage_momentum. cbv zeta.
  mread. mread.
  assert (Eb : getitem [IAt i] (full [col; 1] (1 / 2)%R)
               = Ok (mkT [1] (fun ridx => val (full [col; 1] (1 / 2)%R)
                                            (src_index [IAt i] [col; 1] ridx)))).
  { unfold getitem. cbn [shape full sel_shape].
    apply Nat.ltb_lt in Hi. rewrite Hi. reflexivity. }
  rewrite Eb. set (bi := mkT [1] _). rlift.
  rewrite neg_index_last. rlift. mread.
  rewrite neg_index_before_last, Hlast. rlift. mread.
  destruct (momentum_ex zv2 zold zv2 bi bs nC row col Hs2 Hsold Hs2 eq_refl)
    as (r & Er & Hsr).
  rewrite Er. rlift. remit s1. ralloc s2.
  apply wp_ret. cbn [returns z z_hat z_list].
  split; [assumption|]. split; [lia|]. split; [trace_len s2|]. split; [reflexivity|].
  split; [exists r; split; assumption|]. apply neg_index_last.
Qed.

Lemma stage_returns y phi beta W_ i st s yv pv bs nC row col :
  cfg_fits cfg nC -> 0 < nC -> 0 < row -> 0 < W_ -> col = W_ + (nC - 1) * 2 ->
  i < col -> reflect_pad_ok row -> reflect_pad_ok W_ ->
  shape yv = [bs; row; col] -> shape pv = [bs; nC; row; col] ->
  cell s y yv -> cell s phi pv -> cell s beta (full [col; 1] (1 / 2)%R) ->
  (exists zv, cell s (z st) zv /\ shape zv = [bs; nC; row; col]) ->
  (exists zh, cell s (z_hat st) zh /\ shape zh = [bs; nC; row; col]) ->
  neg_index (z_list st) 1 = Ok (z st) ->
  wp (stage cfg DL head LNLT_net y phi beta W_ i st) s
     (returns (fun st' s' =>
        unchanged_below (length (heap s)) s s' /\
        length (trace s') = length (trace s) + 3 /\
        length (heap s) <= z st' /\
        (exists zv, cell s' (z st') zv /\ shape zv = [bs; nC; row; col]) /\
        (exists zh, cell s' (z_hat st') zh /\ shape zh = [bs; nC; row; col]) /\
        neg_index (z_list st') 1 = Ok (z st'))).
Proof.
  intros Hfit HnC Hrow HW_ Hcol Hi Hpr Hpw Hsy Hsp Cy Cp Cb
         (zv & Cz & Hsz) (zh & Czh & Hszh) Hlast.
  pose proof Hfit as (HWL & Hout & Hin).
  assert (Hcolpos : 0 < col) by lia.
  set (n0 := length (heap s)).
  unfold stage, stage_params.
  (* Phi, mu, noise_level = self.DP[i](z, phi) *)
  mread. mread. remit s1.
  mflat. eapply wp_returns_bind.
  { apply (DADN_forward_returns cfg DL head (instance cfg i) (z st) phi s1 zv pv bs row col);
      try assumption; rewrite HWL; assumption. }
  intros [[Phi mu] nl] s2 (F2 & T2 & (Pv & CP & _ & HsP) & (mv & Cm & Hsm & _)
                           & (nv & Cn & Hsn & _)).
  rewrite HWL in HsP.
  carry_unchanged s1 F2.
  assert (F : unchanged_below n0 s s2).
  { apply (frame_next n0 (length (heap s1)) s s1 s2); [|exact F2|unfold n0; lia].
    apply (frame_heap_eq n0 s s s1); [apply unchanged_below_refl | assumption]. }
  assert (Len2 : n0 <= length (heap s2)) by (destruct F; assumption).
  assert (Tr2 : length (trace s2) = length (trace s) + 1)
    by (rewrite T2; trace_len s1).
  clear F2.
  (* the mask and the step size the stage works with *)
  assert (HPhi : exists Pv', cell s2 (if WITH_DL cfg then Phi else phi) Pv' /\
                             shape Pv' = [bs; nC; row; col]).
  { destruct (WITH_DL cfg); eauto. }
  destruct HPhi as (Pv' & CP' & HsP'). set (Phi' := if WITH_DL cfg then Phi else phi) in *.
  mflat. eapply wp_returns_bind with
    (P := fun mu' s3 =>
            unchanged_below (length (heap s2)) s2 s3 /\ trace s3 = trace s2 /\
            exists mv', cell s3 mu' mv' /\ (shape mv' = [bs; 1; 1] \/ shape mv' = [1])).
  { destruct (WITH_MU cfg).
    - apply wp_ret. cbn [returns]. split; [apply unchanged_below_refl|].
      split; [reflexivity|]. exists mv. auto.
    - apply wp_last. apply wp_alloc. intros s3 C3 L3 T3 U3. apply wp_ret. cbn [returns].
      split; [assumption|]. split; [assumption|].
      eexists. split; [eassumption|]. right. reflexivity. }
  intros mu' s3 (F3 & T3 & mv' & Cm' & Hsm').
  carry_unchanged s2 F3.
  apply wp_ret_bind. cbv beta iota.
  (* x = z + At(...) *)
  eapply wp_returns_bind.
  { apply (stage_gradient_returns y Phi' mu' i st s3 (length (heap s3)) s3
             yv Pv' mv' zv zh bs nC row col);
      try assumption; [apply unchanged_below_refl | lia]. }
  intros x s4 (F4 & Len4 & T4 & Hx & xv & Cx & Hsx).
  carry_unchanged s3 F4.
  (* z = shift_3d(self.PP[i](shift_back_3d(x)[..., :W_])) *)
  eapply wp_returns_bind.
  { apply (stage_prior_returns x nl W_ i s4 (length (heap s3)) s3 xv nv bs nC row col);
      try assumption; lia. }
  intros z2 s5 (F5 & Len5 & T5 & Hz2 & zv2 & Cz2 & Hsz2).
  assert (U45 : unchanged_below (length (heap s3)) s4 s5)
    by (apply (frame_between _ s3); assumption).
  carry_unchanged s4 U45.
  (* z_hat = z + beta[i]*(z_list[-1]-z_list[-2]) *)
  apply wp_last. eapply wp_returns_bind.
  { apply (stage_momentum_returns beta z2 i st s5 (length (heap s5)) s5 zv2 zv
             bs nC row col); try assumption; [apply unchanged_below_refl | lia]. }
  intros st' s6 (F6 & Len6 & T6 & Ez & (zh' & Czh' & Hszh') & Hlast').
  carry_unchanged s5 F6.
  apply wp_ret. cbn [returns].
  split; [|split; [|split; [|split; [|split]]]].
  - apply (frame_next n0 (length (heap s5)) s s5 s6); [|exact F6|].
    + apply (frame_next n0 (length (heap s3)) s s3 s5); [|exact F5|].
      * apply (frame_next n0 (length (heap s2)) s s2 s3); [exact F | exact F3 | exact Len2].
      * destruct F3. lia.
    + destruct F3, F5. lia.
  - rewrite T6, T5, T4, T3. lia.
  - rewrite Ez. destruct F3. unfold n0 in *. lia.
  - exists zv2. rewrite Ez. split; assumption.
  - exists zh'. split; assumption.
  - exact Hlast'.
Qed.

Variables (fusion_weight : nat -> nat -> R) (fusion_bias : nat -> R).

Lemma forward_test_returns d s yv pv hv bs nC row col W_ step b' c' h' :
  cell s (data_Y d) yv -> cell s (data_mask d) pv -> cell s (data_H d) hv ->
  shape yv = [bs; row; col] -> shape pv = [bs; nC; row; col] ->
  shape hv = [b'; c'; h'; W_] ->
  cfg_fits cfg nC -> 0 < nC -> 0 < row -> 0 < W_ -> col = W_ + (nC - 1) * 2 ->
  STEP cfg = Z.of_nat step -> (nC - 1) * step <= col ->
  STAGE cfg <= col -> reflect_pad_ok row -> reflect_pad_ok W_ ->
  wp (forward_test cfg fusion_weight fusion_bias DL head LNLT_net d) s
     (returns (fun out s' =>
        shape out = [bs; nC; row; W_] /\
        unchanged_below (length (heap s)) s s' /\
        length (trace s') = length (trace s) + 3 * STAGE cfg)).
Proof.
  intros Cy Cp Ch Hsy Hsp Hsh Hfit HnC Hrow HW_ Hcol Hstep Hstepfit Hstage Hpr Hpw.
  pose proof Hfit as (HWL & _).
  assert (Hcolpos : 0 < col) by lia.
  set (n0 := length (heap s)).
  assert (Hy0 : nth_error (heap s) (data_Y d) = Some yv) by exact Cy.
  assert (Hp0 : nth_error (heap s) (data_mask d) = Some pv) by exact Cp.
  assert (Hyl : data_Y d < n0) by (eapply cell_lt; exact Cy).
  assert (Hpl : data_mask d < n0) by (eapply cell_lt; exact Cp).
  unfold forward_test. cbv zeta.
  eapply wp_returns_bind.
  { apply (initial_returns cfg fusion_weight fusion_bias (data_Y d) (data_mask d) s
             yv pv bs nC row col step); try assumption. now symmetry. }
  intros z0 s1 (F1 & T1 & Hz0 & zv0 & Cz0 & Hsz0 & _).
  carry_unchanged s F1.
  mread. unfold shape4 at 1. rewrite Hsp. rlift.
  mread. unfold shape4 at 1. rewrite Hsh. rlift.
  ralloc s2.
  eapply wp_returns_bind.
  - apply (mfor_returns
             (fun i st s' =>
                unchanged_below n0 s s' /\
                length (trace s') = length (trace s) + 3 * i /\
                cell s' (length (heap s1)) (full [col; 1] (1 / 2)%R) /\
                n0 <= z st /\
                (exists zv, cell s' (z st) zv /\ shape zv = [bs; nC; row; col]) /\
                (exists zh, cell s' (z_hat st) zh /\ shape zh = [bs; nC; row; col]) /\
                neg_index (z_list st) 1 = Ok (z st))).
    + intros i st s' Hi (F' & T' & Cb' & Hz' & Hzv' & Hzh' & Hl').
      assert (Cy' : cell s' (data_Y d) yv)
        by (eapply unchanged_below_cell; [exact F' | exact Hyl | exact Hy0]).
      assert (Cp' : cell s' (data_mask d) pv)
        by (eapply unchanged_below_cell; [exact F' | exact Hpl | exact Hp0]).
      apply wp_last. eapply wp_returns_bind.
      { apply (stage_returns (data_Y d) (data_mask d) (length (heap s1)) W_ i st s'
                 yv pv bs nC row col); try assumption. lia. }
      intros st' s'' (F'' & T'' & Hz'' & Hzv'' & Hzh'' & Hl'').
      apply wp_ret. cbn [returns].
      split; [|split; [|split; [|split; [|auto]]]].
      * apply (frame_next n0 (length (heap s')) s s' s''); [exact F' | exact F'' |].
        destruct F'. unfold n0. lia.
      * rewrite T'', T'. lia.
      * eapply unchanged_below_cell; [exact F'' | eapply cell_lt; exact Cb' | exact Cb'].
      * destruct F'. unfold n0 in *. lia.
    + cbn [z z_hat z_list]. split; [assumption|]. split; [trace_len s2|].
      split; [assumption|]. split; [unfold n0; lia|].
      split; [eauto|]. split; [eauto|]. reflexivity.
  - intros st s3 (F3 & T3 & _ & Hz3 & (zv & Cz & Hsz) & _).
    unfold shift_back_3d_ref.
    destruct (shift_back_3d_spec zv 2 bs nC row col Hsz) as (zb & Eb & Hsb & _).
    rinplace Eb s4. mread.
    assert (Ecrop : getitem [IAll; IAll; IAll; upto W_] zb
                    = Ok (mkT [bs; nC; row; W_]
                            (fun ridx => val zb (src_index [IAll; IAll; IAll; upto W_]
                                                   (shape zb) ridx)))).
    { unfold getitem. rewrite Hsb. cbn [sel_shape bind IAll upto].
      rewrite !slice_len_all, slice_len_upto, Nat.min_l by lia. reflexivity. }
    rewrite Ecrop. rlift.
    unfold lift, getitem. cbn [shape sel_shape bind IAll upto].
    rewrite !slice_len_all, slice_len_upto, Nat.min_l by lia.
    unfold wp. cbn [returns shape].
    split; [reflexivity|]. split; [assumption|]. congruence.
Qed.

End ReturnsStage.

(** ** What the controller returns on well-shaped inputs *)

(** [DADN.forward] on an estimate and a mask of shape
    [bs, WAVE_LENS, row, col] returns; it changes none of the existing
    objects (its arguments included), and it returns the refined mask
    [phi + DL(cat(phi, y))] with [mu] of shape [bs, 1, 1] and [noise_level] of
    shape [bs, 1, 1, 1], whose entries all exceed [1e-6]. *)
Theorem DADN_forward_result cfg DL head k y phi s yv pv bs row col :
  cell s y yv -> cell s phi pv ->
  shape yv = [bs; WAVE_LENS cfg; row; col] ->
  shape pv = [bs; WAVE_LENS cfg; row; col] ->
  0 < row -> 0 < col ->
  exists Phi mu nl s' Pv mv nv,
    DADN_forward cfg DL head k y phi s = Done (Phi, mu, nl) s' /\
    (forall l, l < length (heap s) -> nth_error (heap s') l = nth_error (heap s) l) /\
    trace s' = trace s /\
    cell s' Phi Pv /\ dadn_refine cfg DL k yv pv = Ok Pv /\
    shape Pv = [bs; WAVE_LENS cfg; row; col] /\
    cell s' mu mv /\ shape mv = [bs; 1; 1] /\ (forall idx, (eps < val mv idx)%R) /\
    cell s' nl nv /\ shape nv = [bs; 1; 1; 1] /\ (forall idx, (eps < val nv idx)%R).
Proof.
  intros Cy Cp Hsy Hsp Hrow Hcol.
  pose proof (DADN_forward_returns cfg DL head k y phi s yv pv bs row col
                Cy Cp Hsy Hsp Hrow Hcol) as H.
  apply returns_inv in H as ([[Phi mu] nl] & s' & E & (_ & HU) & HT
                             & (Pv & CP & EP & HsP) & (mv & Cm & Hsm & Hm)
                             & (nv & Cn & Hsn & Hn)).
  exists Phi, mu, nl, s', Pv, mv, nv. repeat (split; [assumption|]). assumption.
Qed.

(** A mask and an estimate of two bands on one pixel. *)
Lemma DADN_forward_result_witness :
  exists Phi mu nl s' Pv mv nv,
    DADN_forward (demo_cfg 1) zero_layers zero_layers 0 0 1
      (mkStore [full [1; 2; 1; 1] 1%R; full [1; 2; 1; 1] 2%R] []) = Done (Phi, mu, nl) s' /\
    (forall l, l < 2 -> nth_error (heap s') l
                        = nth_error [full [1; 2; 1; 1] 1%R; full [1; 2; 1; 1] 2%R] l) /\
    trace s' = [] /\
    cell s' Phi Pv /\
    dadn_refine (demo_cfg 1) zero_layers 0 (full [1; 2; 1; 1] 1%R) (full [1; 2; 1; 1] 2%R)
      = Ok Pv /\
    shape Pv = [1; 2; 1; 1] /\
    cell s' mu mv /\ shape mv = [1; 1; 1] /\ (forall idx, (eps < val mv idx)%R) /\
    cell s' nl nv /\ shape nv = [1; 1; 1; 1] /\ (forall idx, (eps < val nv idx)%R).
Proof.
  apply (DADN_forward_result (demo_cfg 1) zero_layers zero_layers 0 0 1
           (mkStore [full [1; 2; 1; 1] 1%R; full [1; 2; 1; 1] 2%R] [])
           (full [1; 2; 1; 1] 1%R) (full [1; 2; 1; 1] 2%R) 1 1 1);
    try reflexivity; lia.
Defined.

(** [CAUN.initial] on a measurement [bs, row, col] and a mask
    [bs, nC, row, col] with [nC = WAVE_LENS], a step that is not negative
    and [(nC-1)*step <= col]: it returns a new tensor of the shape of the
    mask and changes no existing object.  Band [k] of [y_shift] holds the
    measurement on the columns [step*k <= w < step*k + col - (nC-1)*step] and
    zero elsewhere, and the result is the 1x1 convolution [fusion] of
    [y_shift] and the mask stacked. *)
Theorem initial_result cfg fw fb y Phi s yv pv bs nC row col step :
  cell s y yv -> cell s Phi pv ->
  shape yv = [bs; row; col] -> shape pv = [bs; nC; row; col] ->
  nC = WAVE_LENS cfg -> STEP cfg = Z.of_nat step -> (nC - 1) * step <= col ->
  0 < row -> 0 < col ->
  exists z0 s' zv,
    initial cfg fw fb y Phi s = Done z0 s' /\
    (forall l, l < length (heap s) -> nth_error (heap s') l = nth_error (heap s) l) /\
    trace s' = trace s /\ length (heap s) <= z0 /\
    cell s' z0 zv /\ shape zv = [bs; nC; row; col] /\
    forall b o h w, b < bs -> o < nC -> h < row -> w < col ->
      let lit k := (step * k <=? w) && (w <? step * k + (col - (nC - 1) * step)) in
      val zv [b; o; h; w] =
        (sum_n nC (fun k => fw o k * (if lit k then val yv [b; h; w] else 0))
         + sum_n nC (fun k => fw o (nC + k)%nat * val pv [b; k; h; w])
         + fb o)%R.
Proof.
  intros Cy Cp Hsy Hsp HnC Hstep Hfit Hrow Hcol.
  pose proof (initial_returns cfg fw fb y Phi s yv pv bs nC row col step
                Cy Cp Hsy Hsp HnC Hstep Hfit Hrow Hcol) as H.
  apply returns_inv in H as (z0 & s' & E & (_ & HU) & HT & Hz0 & zv & Cz & Hsz & Hvz).
  exists z0, s', zv. repeat (split; [assumption|]). assumption.
Qed.

Lemma initial_result_witness :
  exists z0 s' zv,
    initial (demo_cfg 1) zero_weight zero_bias 0 1
      (mkStore [full [1; 1; 4] 1%R; full [1; 2; 1; 4] 1%R] []) = Done z0 s' /\
    (forall l, l < 2 -> nth_error (heap s') l
                        = nth_error [full [1; 1; 4] 1%R; full [1; 2; 1; 4] 1%R] l) /\
    trace s' = [] /\ 2 <= z0 /\
    cell s' z0 zv /\ shape zv = [1; 2; 1; 4] /\
    forall b o h w, b < 1 -> o < 2 -> h < 1 -> w < 4 ->
      let lit k := (2 * k <=? w) && (w <? 2 * k + (4 - (2 - 1) * 2)) in
      val zv [b; o; h; w] =
        (sum_n 2 (fun k => zero_weight o k * (if lit k then 1 else 0))
         + sum_n 2 (fun k => zero_weight o (2 + k)%nat * 1)
         + zero_bias o)%R.
Proof.
  apply (initial_result (demo_cfg 1) zero_weight zero_bias 0 1
           (mkStore [full [1; 1; 4] 1%R; full [1; 2; 1; 4] 1%R] [])
           (full [1; 1; 4] 1%R) (full [1; 2; 1; 4] 1%R) 1 2 1 4 2);
    try reflexivity; cbn; lia.
Defined.

(** [forward_test] returns on every well-shaped input: a batch that is not
    empty, a measurement [bs, row, col], a mask [bs, nC, row, col] and a cube
    of width [W_] with [col = W_ + (nC-1)*2] (the stages shift by the default
    step 2), a configuration for [nC] bands, no more stages than mask
    columns, and a height and a width that reflect padding to a multiple of
    16 accepts.  The result has shape [bs, nC, row, W_], no input object is
    changed, and each stage records its three events.  (On an empty batch
    the attention of LNLT refuses [view(B, -1, C)], line 581.) *)
Theorem forward_test_result cfg fw fb DL head net h d yv pv hv
    bs nC row col W_ step b' c' h' :
  nth_error h (data_Y d) = Some yv ->
  nth_error h (data_mask d) = Some pv ->
  nth_error h (data_H d) = Some hv ->
  shape yv = [bs; row; col] -> shape pv = [bs; nC; row; col] ->
  shape hv = [b'; c'; h'; W_] ->
  cfg_fits cfg nC -> 0 < bs -> 0 < nC -> 0 < row -> 0 < W_ ->
  col = W_ + (nC - 1) * 2 ->
  STEP cfg = Z.of_nat step -> (nC - 1) * step <= col ->
  STAGE cfg <= col -> reflect_pad_ok row -> reflect_pad_ok W_ ->
  exists out s',
    run_forward_test cfg fw fb DL head net h d = Done out s' /\
    shape out = [bs; nC; row; W_] /\
    (forall l, l < length h -> nth_error (heap s') l = nth_error h l) /\
    length (trace s') = 3 * STAGE cfg.
Proof.
  intros Cy Cp Ch Hsy Hsp Hsh Hfit _ HnC Hrow HW_ Hcol Hstep Hstepfit Hstage Hpr Hpw.
  pose proof (forward_test_returns cfg DL head net fw fb d (mkStore h []) yv pv hv
                bs nC row col W_ step b' c' h' Cy Cp Ch Hsy Hsp Hsh Hfit HnC Hrow HW_
                Hcol Hstep Hstepfit Hstage Hpr Hpw) as H.
  apply returns_inv in H as (out & s' & E & Hso & (_ & HU) & HT).
  exists out, s'. split; [exact E|]. split; [exact Hso|]. split; [exact HU|].
  exact HT.
Qed.

(** Two bands, a 16 x 16 scene, two stages. *)
Lemma forward_test_result_witness :
  exists out s',
    demo_run 2 1%R = Done out s' /\
    shape out = [1; 2; 16; 16] /\
    (forall l, l < 3 -> nth_error (heap s') l = nth_error (demo_heap 1%R) l) /\
    length (trace s') = 3 * 2.
Proof.
  apply (forward_test_result (demo_cfg 2) zero_weight zero_bias zero_layers zero_layers
           LNLT_residual (demo_heap 1%R) demo_data
           (full [1; 16; 18] 1%R) (full [1; 2; 16; 18] 1%R) (full [1; 2; 16; 16] 0%R)
           1 2 16 18 16 2 1 2 16);
    try reflexivity; try (cbn; lia); try (repeat split).
  - unfold reflect_pad_ok. cbn. lia.
  - unfold reflect_pad_ok. cbn. lia.
Defined.

(** ** Padding to a multiple (lines 350-353 and 576-580) *)

(** The grid [Attention.forward] hands to the local pass is padded to the
    next multiple of the window size: the padded height and width are
    multiples of the window size, not smaller than the image, and less than
    one window larger. *)
Theorem padded_grid_next_multiple a x H W B hd :
  shape x = [B; num_tokens a + H * W; dim a] ->
  0 < B -> 0 < window_size a -> 0 < num_heads a -> 0 < hd ->
  dim a = num_heads a * hd ->
  exists q_img k_img v_img q_cls Hp Wp,
    padded_qkv a x H W = Ok (q_img, k_img, v_img, q_cls, (B, dim a, Hp, Wp)) /\
    Hp mod window_size a = 0 /\ H <= Hp < H + window_size a /\
    Wp mod window_size a = 0 /\ W <= Wp < W + window_size a.
Proof.
  intros Hx HB Hws Hh Hhd Hdim.
  destruct (padded_qkv_ex a x H W B hd Hx HB Hws Hh Hhd Hdim)
    as (q_img & k_img & v_img & q_cls & E & _).
  cbv zeta in E.
  exists q_img, k_img, v_img, q_cls,
    (padded_size (window_size a) H), (padded_size (window_size a) W).
  split; [exact E|].
  assert (Hpad : forall n, padded_size (window_size a) n mod window_size a = 0 /\
                           n <= padded_size (window_size a) n < n + window_size a).
  { intros n. split.
    - rewrite (padded_size_multiple (window_size a) n Hws).
      apply Nat.Div0.mod_mul.
    - unfold padded_size.
      pose proof (Nat.mod_upper_bound (window_size a - n mod window_size a)
                    (window_size a) ltac:(lia)). lia. }
  destruct (Hpad H) as [? ?], (Hpad W) as [? ?]. repeat split; lia.
Qed.

Lemma padded_grid_next_multiple_witness :
  exists q_img k_img v_img q_cls Hp Wp,
    padded_qkv demo_attention demo_tokens 1 1
      = Ok (q_img, k_img, v_img, q_cls, (1, 1, Hp, Wp)) /\
    Hp mod 2 = 0 /\ 1 <= Hp < 1 + 2 /\
    Wp mod 2 = 0 /\ 1 <= Wp < 1 + 2.
Proof.
  apply (padded_grid_next_multiple demo_attention demo_tokens 1 1 1 1);
    try (cbn; lia); reflexivity.
Defined.

Lemma reflect_pad_ok_iff n : reflect_pad_ok n <-> 9 <= n.
Proof.
  unfold reflect_pad_ok.
  pose proof (Nat.mod_upper_bound n 16 ltac:(lia)) as Hm.
  pose proof (Nat.mod_upper_bound (16 - n mod 16) 16 ltac:(lia)) as Hp.
  destruct (Nat.lt_ge_cases n 16) as [Hn|Hn].
  - rewrite (Nat.mod_small n 16) by lia.
    destruct (Nat.eq_dec n 0) as [->|Hn0].
    + cbn. lia.
    + rewrite (Nat.mod_small (16 - n)) by lia. lia.
  - lia.
Qed.

(** [LNLT.forward] pads by reflection to a multiple of 16, which wants the
    pad to be smaller than the axis: a feature map with a height or a width
    below 9 is refused, whatever the configuration and the weights. *)
Theorem LNLT_forward_refuses_small_maps cfg net k t b c h w :
  shape t = [b; c; h; w] -> h < 9 \/ w < 9 ->
  LNLT_forward cfg net k t = Raise RuntimeError.
Proof.
  intros Ht Hsmall. unfold LNLT_forward. rewrite Ht.
  assert (E : ((16 - h mod 16) mod 16 <? h) && ((16 - w mod 16) mod 16 <? w) = false).
  { apply andb_false_iff.
    destruct Hsmall as [Hs|Hs]; [left|right]; apply Nat.ltb_ge;
      apply Nat.nlt_ge; intros Hlt; apply (reflect_pad_ok_iff _) in Hlt; lia. }
  rewrite E. reflexivity.
Qed.

Lemma LNLT_forward_refuses_small_maps_witness :
  LNLT_forward (demo_cfg 1) LNLT_residual 0 (full [1; 2; 8; 16] 1%R) = Raise RuntimeError.
Proof.
  apply (LNLT_forward_refuses_small_maps (demo_cfg 1) LNLT_residual 0
           (full [1; 2; 8; 16] 1%R) 1 2 8 16); [reflexivity | lia].
Defined.

(** ** C2: the data-consistency step (lines 762-765) *)

Lemma band_energy_ex Pv B C H W :
  shape Pv = [B; C; H; W] ->
  exists Psv, band_energy Pv = Ok Psv /\ shape Psv = [B; H; W] /\
    forall b h w, val Psv [b; h; w] = band_energy_entry Pv C b h w.
Proof.
  intros HP.
  assert (E : exists Psv, band_energy Pv = Ok Psv).
  { unfold band_energy, sum_dim. cbn [tmap shape]. rewrite HP. cbn. eauto. }
  destruct E as (Psv & E). exists Psv. split; [exact E|].
  now apply band_energy_entries.
Qed.

(** [mu + Phi_s] for [mu] of shape [B, 1, 1] or [1]. *)
Lemma tadd_step_size mv Psv B H W :
  shape mv = [B; 1; 1] \/ shape mv = [1] -> shape Psv = [B; H; W] ->
  exists den, tadd mv Psv = Ok den /\ shape den = [B; H; W] /\
    forall b h w, b < B -> h < H -> w < W ->
      val den [b; h; w] = (step_size mv b + val Psv [b; h; w])%R.
Proof.
  intros [Hm|Hm] HP.
  - destruct (tadd_column mv Psv B H W Hm HP) as (den & E & Hs & Hv).
    exists den. split; [exact E|]. split; [exact Hs|].
    intros b h w Hb Hh Hw. rewrite Hv by assumption. unfold step_size. now rewrite Hm.
  - unfold tadd, binop. rewrite Hm, HP, broadcast_shapes_scalar by discriminate.
    eexists. split; [reflexivity|]. split; [reflexivity|].
    intros b h w Hb Hh Hw. cbn [val]. unfold step_size. rewrite Hm.
    rewrite (bidx_inb [B; H; W]) by (cbn; tauto). reflexivity.
Qed.

Lemma data_consistency_ex zv zh Pv mv Psv yv B C H W :
  shape zv = [B; C; H; W] -> shape zh = [B; C; H; W] ->
  shape Pv = [B; C; H; W] -> shape yv = [B; H; W] ->
  shape mv = [B; 1; 1] \/ shape mv = [1] -> shape Psv = [B; H; W] ->
  exists xv, data_consistency zv zh Pv mv Psv yv = Ok xv /\
    shape xv = [B; C; H; W] /\
    forall b c h w, b < B -> c < C -> h < H -> w < W ->
      val xv [b; c; h; w] =
        (val zv [b; c; h; w]
         + (val yv [b; h; w]
            - sum_n C (fun k => val zh [b; k; h; w] * val Pv [b; k; h; w]))
           / (step_size mv b + val Psv [b; h; w])
           * val Pv [b; c; h; w])%R.
Proof.
  intros Hz Hzh HP Hy Hm HPs. unfold data_consistency.
  destruct (A_spec zh Pv B C H W Hzh HP) as (Pz & EA & HsA & HvA).
  rewrite EA. cbn [bind].
  destruct (binop_same_shape Rminus yv Pz) as (num & En & Hsn & Hvn); [congruence|].
  fold tsub in En. rewrite En. cbn [bind].
  destruct (tadd_step_size mv Psv B H W Hm HPs) as (den & Ed & Hsd & Hvd).
  rewrite Ed. cbn [bind].
  destruct (binop_same_shape Rdiv num den) as (q & Eq & Hsq & Hvq); [congruence|].
  fold tdiv in Eq. rewrite Eq. cbn [bind].
  destruct (At_spec q Pv B C H W) as (a & Ea & Hsa & Hva); [congruence | assumption |].
  rewrite Ea. cbn [bind].
  destruct (binop_same_shape Rplus zv a) as (x & Ex & Hsx & Hvx); [congruence|].
  fold tadd in Ex. exists x. split; [exact Ex|]. split; [congruence|].
  intros b c h w Hb Hc Hh Hw.
  rewrite Hvx by (rewrite Hz; cbn; tauto).
  rewrite Hva by assumption.
  rewrite Hvq by (rewrite Hsn, Hy; cbn; tauto).
  rewrite Hvn by (rewrite Hy; cbn; tauto).
  rewrite Hvd by assumption.
  rewrite HvA by assumption.
  reflexivity.
Qed.

(** What the step does in the store, given that its tensor operations
    succeed: [Phi_s] is the first object it allocates, the result the last,
    nothing that existed is overwritten, and the event it records holds its
    operands and its result. *)
Lemma stage_gradient_ex y Phi mu i st s zv zh Pv mv yv Psv xv :
  cell s (z st) zv -> cell s (z_hat st) zh -> cell s y yv ->
  cell s Phi Pv -> cell s mu mv ->
  band_energy Pv = Ok Psv ->
  data_consistency zv zh Pv mv Psv yv = Ok xv ->
  exists x s',
    stage_gradient y Phi mu i st s = Done x s' /\
    length (heap s) <= x /\ cell s' x xv /\
    cell s' (length (heap s)) Psv /\
    unchanged_below (length (heap s)) s s' /\
    trace s' = trace s ++ [EvGrad i zv zh Pv mv Psv yv xv].
Proof.
  intros Cz Czh Cy CP Cm Eb Ed.
  unfold band_energy in Eb. apply bind_ok in Eb as (e & Ee & Eb). injection Eb as <-.
  unfold data_consistency in Ed. apply bind_ok in Ed as (Pz & EA & Ed).
  assert (F0 : unchanged_below (length (heap s)) s s) by apply unchanged_below_refl.
  remember (trace s) as tr eqn:T0. symmetry in T0.
  enough (H : wp (stage_gradient y Phi mu i st) s
                (returns (fun x s' =>
                   length (heap s) <= x /\ cell s' x xv /\
                   cell s' (length (heap s))
                     (tmap (fun e => if Req_dec_T e 0 then 1%R else e) e) /\
                   unchanged_below (length (heap s)) s s' /\
                   trace s' = tr ++ [EvGrad i zv zh Pv mv
                     (tmap (fun e => if Req_dec_T e 0 then 1%R else e) e) yv xv]))).
  { apply returns_inv in H as (x & s' & E & H). exists x, s'. tauto. }
  unfold stage_gradient.
  mread. rewrite Ee. rfresh s1.
  rinplace (eq_refl (Ok (tmap (fun e => if Req_dec_T e 0 then 1%R else e) e))) s2.
  mread. mread. rewrite EA. rfresh s3.
  mread. mread. mread. mread. mread. mread. rewrite Ed. rlift.
  mread. remit s4. apply wp_last. ralloc s5.
  apply wp_ret. cbn [returns].
  split; [lia|]. split; [assumption|]. split; [assumption|]. split; assumption.
Qed.

Lemma event_ok_gradient_operands cfg DL phi0 y0 ev :
  event_ok cfg DL phi0 y0 ev -> gradient_operands_ok cfg DL phi0 y0 ev.
Proof.
  destruct ev as [| i zv zh Pv mv Psv yv xv |]; cbn; auto. tauto.
Qed.

(** C2. The data-consistency step of a stage, run in any store in which
    [z], [z_hat], [y], [Phi'] and [mu] hold tensors of the shapes
    [B,C,H,W], [B,C,H,W], [B,H,W], [B,C,H,W] and [B,1,1] (or [1], the
    constant used when WITH_MU is off): it returns a new object [x],
    overwrites nothing, and
    [x = z + At((y - A(z_hat, Phi')) / (mu + Phi_s), Phi')], entry by entry,
    with [Phi_s] the band sum of [Phi'] squared in which exact zeros are
    replaced by 1; the event it records holds these operands and this
    result.  And in every run of [forward_test] the operands of each step
    are the input measurement [y], the mask [Phi'] of the stage and a
    positive [mu], with [z_hat = z] in stage 0. *)
Theorem forward_test_data_consistency :
  (forall y Phi mu i st s zv zh Pv mv yv B C H W,
     cell s (z st) zv -> cell s (z_hat st) zh -> cell s y yv ->
     cell s Phi Pv -> cell s mu mv ->
     shape zv = [B; C; H; W] -> shape zh = [B; C; H; W] ->
     shape Pv = [B; C; H; W] -> shape yv = [B; H; W] ->
     shape mv = [B; 1; 1] \/ shape mv = [1] ->
     exists x s' xv Psv,
       stage_gradient y Phi mu i st s = Done x s' /\
       length (heap s) <= x /\ cell s' x xv /\
       unchanged_below (length (heap s)) s s' /\
       trace s' = trace s ++ [EvGrad i zv zh Pv mv Psv yv xv] /\
       band_energy Pv = Ok Psv /\
       data_consistency zv zh Pv mv Psv yv = Ok xv /\
       shape xv = [B; C; H; W] /\
       forall b c h w, b < B -> c < C -> h < H -> w < W ->
         val Psv [b; h; w] = band_energy_entry Pv C b h w /\
         val xv [b; c; h; w] =
           data_consistency_entry zv zh Pv yv (step_size mv b) C b c h w) /\
  (forall cfg fw fb DL head net h d phi0 y0,
     nth_error h (data_Y d) = Some y0 ->
     nth_error h (data_mask d) = Some phi0 ->
     Forall (gradient_operands_ok cfg DL phi0 y0)
       (trace (final_store (run_forward_test cfg fw fb DL head net h d)))).
Proof.
  split.
  - intros y Phi mu i st s zv zh Pv mv yv B C H W Cz Czh Cy CP Cm Hz Hzh HP Hy Hm.
    destruct (band_energy_ex Pv B C H W HP) as (Psv & Eb & HsP & HvP).
    destruct (data_consistency_ex zv zh Pv mv Psv yv B C H W Hz Hzh HP Hy Hm HsP)
      as (xv & Ed & Hsx & Hvx).
    destruct (stage_gradient_ex y Phi mu i st s zv zh Pv mv yv Psv xv
                Cz Czh Cy CP Cm Eb Ed) as (x & s' & E & Hx & Cx & _ & HU & HT).
    exists x, s', xv, Psv. repeat (split; [assumption|]).
    intros b c h w Hb Hc Hh Hw. split; [apply HvP|].
    rewrite Hvx by assumption. unfold data_consistency_entry. now rewrite HvP.
  - intros cfg fw fb DL head net h d phi0 y0 Hy Hp.
    destruct (run_forward_test_spec cfg fw fb DL head net h d phi0 y0 Hy Hp) as [_ H].
    eapply Forall_impl; [|exact H]. intros ev. apply event_ok_gradient_operands.
Qed.

(** The step on two bands of one row with the constant step size
    [FloatTensor([1e-6])], and a two-stage run on a 16x16 scene with two
    bands: six events, two of them data-consistency steps. *)
Lemma forward_test_data_consistency_witness :
  (exists x s' xv Psv,
     stage_gradient 1 2 3 0 (mkLoop 0 0 [0]) demo_stage_store = Done x s' /\
     cell s' x xv /\
     forall b c h w, b < 1 -> c < 2 -> h < 1 -> w < 3 ->
       val Psv [b; h; w] = band_energy_entry (full [1; 2; 1; 3] 1%R) 2 b h w /\
       val xv [b; c; h; w] =
         data_consistency_entry (full [1; 2; 1; 3] 1%R) (full [1; 2; 1; 3] 1%R)
           (full [1; 2; 1; 3] 1%R) (full [1; 1; 3] 1%R) eps 2 b c h w) /\
  map event_tag (trace (final_store (demo_run 2 1%R))) =
    [(TDADN, 0); (TGrad, 0); (TMomentum, 0); (TDADN, 1); (TGrad, 1); (TMomentum, 1)] /\
  Forall (gradient_operands_ok (demo_cfg 2) zero_layers
            (full [1; 2; 16; 18] 1%R) (full [1; 16; 18] 1%R))
         (trace (final_store (demo_run 2 1%R))).
Proof.
  split; [|split; [vm_compute; reflexivity|]].
  - destruct (proj1 forward_test_data_consistency 1 2 3 0 (mkLoop 0 0 [0])
                demo_stage_store (full [1; 2; 1; 3] 1%R) (full [1; 2; 1; 3] 1%R)
                (full [1; 2; 1; 3] 1%R) (full [1] eps) (full [1; 1; 3] 1%R) 1 2 1 3)
      as (x & s' & xv & Psv & E & _ & Cx & _ & _ & _ & _ & _ & Hv);
      try reflexivity; [right; reflexivity|].
    exists x, s', xv, Psv. split; [exact E|]. split; [exact Cx|]. exact Hv.
  - apply (proj2 forward_test_data_consistency (demo_cfg 2) zero_weight zero_bias
             zero_layers zero_layers LNLT_residual (demo_heap 1%R) demo_data
             (full [1; 2; 16; 18] 1%R) (full [1; 16; 18] 1%R)); reflexivity.
Defined.

(** ** The denominators of the data-consistency step (lines 762-765) *)

Lemma step_size_pos mv b :
  (forall idx, (0 < val mv idx)%R) -> (0 < step_size mv b)%R.
Proof. intros Hm. unfold step_size. destruct (shape mv) as [|? [|? ?]]; apply Hm. Qed.

Lemma band_energy_entry_pos Pv C b h w : (0 < band_energy_entry Pv C b h w)%R.
Proof.
  unfold band_energy_entry. cbv zeta.
  assert (0 <= sum_n C (fun c => val Pv [b; c; h; w] ^ 2))%R.
  { apply sum_n_nonneg. intros c _. apply pow2_ge_0. }
  destruct (Req_dec_T _ 0); lra.
Qed.

Lemma band_energy_entry_zero Pv C b h w :
  (forall c, c < C -> val Pv [b; c; h; w] = 0%R) -> band_energy_entry Pv C b h w = 1%R.
Proof.
  intros Hz. unfold band_energy_entry. cbv zeta.
  assert (E : sum_n C (fun c => (val Pv [b; c; h; w] ^ 2)%R) = 0%R).
  { rewrite <- (sum_n_zero C). apply sum_n_ext. intros c Hc. rewrite Hz by assumption. lra. }
  rewrite E. destruct (Req_dec_T 0 0); [reflexivity | contradiction].
Qed.

(** With a positive step size [mu] (what DADN returns, and the constant
    1e-6), the data-consistency step divides by positive numbers only:
    every entry of the object [Phi_s], the first the step allocates, is
    positive once its zeros are replaced, and so is every [mu + Phi_s].
    On a mask that is zero throughout, [Phi_s] is 1 everywhere and the step
    returns the estimate [z] as it is. *)
Theorem stage_gradient_degenerate_mask y Phi mu i st s zv zh Pv mv yv B C H W :
  cell s (z st) zv -> cell s (z_hat st) zh -> cell s y yv ->
  cell s Phi Pv -> cell s mu mv ->
  shape zv = [B; C; H; W] -> shape zh = [B; C; H; W] ->
  shape Pv = [B; C; H; W] -> shape yv = [B; H; W] ->
  shape mv = [B; 1; 1] \/ shape mv = [1] ->
  (forall idx, (0 < val mv idx)%R) ->
  exists x s' xv Psv,
    stage_gradient y Phi mu i st s = Done x s' /\
    cell s' x xv /\ cell s' (length (heap s)) Psv /\
    (forall b h w, b < B -> h < H -> w < W ->
       (0 < val Psv [b; h; w])%R /\ (0 < step_size mv b + val Psv [b; h; w])%R) /\
    ((forall b c h w, b < B -> c < C -> h < H -> w < W -> val Pv [b; c; h; w] = 0%R) ->
     forall b c h w, b < B -> c < C -> h < H -> w < W ->
       val Psv [b; h; w] = 1%R /\ val xv [b; c; h; w] = val zv [b; c; h; w]).
Proof.
  intros Cz Czh Cy CP Cm Hz Hzh HP Hy Hm Hpos.
  destruct (band_energy_ex Pv B C H W HP) as (Psv & Eb & HsP & HvP).
  destruct (data_consistency_ex zv zh Pv mv Psv yv B C H W Hz Hzh HP Hy Hm HsP)
    as (xv & Ed & Hsx & Hvx).
  destruct (stage_gradient_ex y Phi mu i st s zv zh Pv mv yv Psv xv
              Cz Czh Cy CP Cm Eb Ed) as (x & s' & E & Hx & Cx & CPs & HU & HT).
  exists x, s', xv, Psv. split; [exact E|]. split; [exact Cx|]. split; [exact CPs|].
  split.
  - intros b h w Hb Hh Hw. rewrite HvP.
    pose proof (band_energy_entry_pos Pv C b h w).
    pose proof (step_size_pos mv b Hpos). split; lra.
  - intros Hzero b c h w Hb Hc Hh Hw.
    assert (E1 : val Psv [b; h; w] = 1%R).
    { rewrite HvP. apply band_energy_entry_zero. intros k Hk. now apply Hzero. }
    split; [exact E1|].
    rewrite Hvx by assumption. rewrite (Hzero b c h w) by assumption. lra.
Qed.

(** Two bands of one row, an all-zero mask, step size 1. *)
Lemma stage_gradient_degenerate_mask_witness :
  exists x s' xv Psv,
    stage_gradient 1 2 3 0 (mkLoop 0 0 [0]) demo_zero_mask_store = Done x s' /\
    cell s' x xv /\ cell s' 4 Psv /\
    forall b c h w, b < 1 -> c < 2 -> h < 1 -> w < 3 ->
      val Psv [b; h; w] = 1%R /\ val xv [b; c; h; w] = 1%R.
Proof.
  destruct (stage_gradient_degenerate_mask 1 2 3 0 (mkLoop 0 0 [0]) demo_zero_mask_store
              (full [1; 2; 1; 3] 1%R) (full [1; 2; 1; 3] 1%R) (full [1; 2; 1; 3] 0%R)
              (full [1; 1; 1] 1%R) (full [1; 1; 3] 1%R) 1 2 1 3)
    as (x & s' & xv & Psv & E & Cx & CPs & _ & Hz);
    try reflexivity; [left; reflexivity | intros idx; cbn; lra |].
  exists x, s', xv, Psv. split; [exact E|]. split; [exact Cx|]. split; [exact CPs|].
  apply Hz. reflexivity.
Defined.

(** ** The momentum update of a stage (lines 773-774) *)

(** [z + beta[i] * (z_list[-1] - z_list[-2])] on tensors of one shape. *)
Lemma momentum_entries a b zv bi B C H W :
  shape a = [B; C; H; W] -> shape b = [B; C; H; W] ->
  shape zv = [B; C; H; W] -> shape bi = [1] ->
  exists r, (d <- tsub a b ;; m <- tmul bi d ;; tadd zv m) = Ok r /\
    shape r = [B; C; H; W] /\
    forall n c h w, n < B -> c < C -> h < H -> w < W ->
      val r [n; c; h; w] =
        (val zv [n; c; h; w]
         + val bi [0%nat] * (val a [n; c; h; w] - val b [n; c; h; w]))%R.
Proof.
  intros Ha Hb Hz Hbi.
  destruct (binop_same_shape Rminus a b) as (d & Ed & Hsd & Hvd); [congruence|].
  fold tsub in Ed. rewrite Ed. cbn [bind].
  assert (Em : exists m, tmul bi d = Ok m /\ shape m = [B; C; H; W] /\
                 forall idx, val m idx = (val bi (bidx (shape bi) idx) * val d (bidx (shape d) idx))%R).
  { unfold tmul, binop. rewrite Hbi, broadcast_shapes_scalar by (rewrite Hsd, Ha; discriminate).
    eexists. split; [reflexivity|]. split; [cbn [shape]; congruence|].
    reflexivity. }
  destruct Em as (m & Em & Hsm & Hvm). rewrite Em. cbn [bind].
  destruct (binop_same_shape Rplus zv m) as (r & Er & Hsr & Hvr); [congruence|].
  fold tadd in Er. exists r. split; [exact Er|]. split; [congruence|].
  intros n c h w Hn Hc Hh Hw.
  rewrite Hvr by (rewrite Hz; cbn; tauto).
  rewrite Hvm, Hbi, Hsd, Ha. rewrite (bidx_inb [B; C; H; W]) by (cbn; tauto).
  rewrite Hvd by (rewrite Ha; cbn; tauto). reflexivity.
Qed.

(** The momentum update of stage [i], run in any store in which the new
    estimate [z2] and the last element of [z_list] hold tensors of one
    shape [B,C,H,W] and [beta] holds a tensor [Wb, 1] with [i < Wb]: it
    returns the loop variables of the next stage, with [z = z2], [z2]
    appended to [z_list], and [z_hat] a new object holding
    [z_new + beta[i] * (z_new - z_old)], entry by entry; no existing object
    is overwritten.  With [Wb <= i] the update raises [IndexError] at
    [beta[i]]. *)
Theorem stage_momentum_result beta z2 i st s zprev znew zold bv B C H W Wb :
  cell s z2 znew -> cell s beta bv ->
  neg_index (z_list st) 1 = Ok zprev -> cell s zprev zold ->
  shape znew = [B; C; H; W] -> shape zold = [B; C; H; W] -> shape bv = [Wb; 1] ->
  (i < Wb ->
   exists st' s' zh,
     stage_momentum beta z2 i st s = Done st' s' /\
     z st' = z2 /\ z_list st' = z_list st ++ [z2] /\
     length (heap s) <= z_hat st' /\ cell s' (z_hat st') zh /\
     unchanged_below (length (heap s)) s s' /\
     shape zh = [B; C; H; W] /\
     forall n c h w, n < B -> c < C -> h < H -> w < W ->
       val zh [n; c; h; w] =
         (val znew [n; c; h; w]
          + val bv [i; 0%nat] * (val znew [n; c; h; w] - val zold [n; c; h; w]))%R) /\
  (Wb <= i -> exists s', stage_momentum beta z2 i st s = Fail IndexError s').
Proof.
  intros Cz2 Cb Hlast Cprev Hs2 Hsold Hsb.
  split.
  - intros Hi.
    assert (Eb : getitem [IAt i] bv
                 = Ok (mkT [1] (fun ridx => val bv (src_index [IAt i] [Wb; 1] ridx)))).
    { unfold getitem. rewrite Hsb. cbn [sel_shape].
      apply Nat.ltb_lt in Hi. rewrite Hi. reflexivity. }
    set (bi := mkT [1] (fun ridx => val bv (src_index [IAt i] [Wb; 1] ridx))) in *.
    destruct (momentum_entries znew zold znew bi B C H W Hs2 Hsold Hs2 eq_refl)
      as (r & Er & Hsr & Hvr).
    assert (F0 : unchanged_below (length (heap s)) s s) by apply unchanged_below_refl.
    enough (HW : wp (stage_momentum beta z2 i st) s
                  (returns (fun st' s' =>
                     z st' = z2 /\ z_list st' = z_list st ++ [z2] /\
                     length (heap s) <= z_hat st' /\ cell s' (z_hat st') r /\
                     unchanged_below (length (heap s)) s s'))).
    { apply returns_inv in HW as (st' & s' & E & Hz & Hl & Hzh & Czh & HU).
      exists st', s', r. repeat (split; [assumption|]). exact Hvr. }
    unfold stage_momentum. cbv zeta.
    mread. mread. rewrite Eb. rlift.
    rewrite neg_index_last. rlift. mread.
    rewrite neg_index_before_last, Hlast. rlift. mread.
    rewrite Er. rlift. remit s1. ralloc s2.
    apply wp_ret. cbn [returns z z_hat z_list].
    split; [reflexivity|]. split; [reflexivity|]. split; [lia|]. split; assumption.
  - intros Hi. exists s. unfold stage_momentum. cbv zeta.
    unfold mbind at 1. rewrite (read_cell _ _ _ Cz2).
    unfold mbind at 1. rewrite (read_cell _ _ _ Cb).
    unfold getitem. rewrite Hsb. cbn [sel_shape].
    apply Nat.ltb_ge in Hi. rewrite Hi. reflexivity.
Qed.

(** Stage 0 extrapolates from 1 and 3 to 4; stage 3 finds no [beta[3]]. *)
Lemma stage_momentum_result_witness :
  (exists st' s' zh,
     stage_momentum 2 0 0 (mkLoop 1 1 [1]) demo_momentum_store = Done st' s' /\
     z st' = 0 /\ z_list st' = [1; 0] /\ cell s' (z_hat st') zh /\
     forall n c h w, n < 1 -> c < 2 -> h < 1 -> w < 3 ->
       val zh [n; c; h; w] = (3 + 1 / 2 * (3 - 1))%R) /\
  (exists s', stage_momentum 2 0 3 (mkLoop 1 1 [1]) demo_momentum_store
              = Fail IndexError s').
Proof.
  split.
  - destruct (proj1 (stage_momentum_result 2 0 0 (mkLoop 1 1 [1]) demo_momentum_store 1
                       (full [1; 2; 1; 3] 3%R) (full [1; 2; 1; 3] 1%R)
                       (full [3; 1] (1 / 2)%R) 1 2 1 3 3
                       eq_refl eq_refl eq_refl eq_refl eq_refl eq_refl eq_refl))
      as (st' & s' & zh & E & Hz & Hl & _ & Czh & _ & _ & Hv); [lia|].
    exists st', s', zh. repeat (split; [assumption|]). exact Hv.
  - apply (proj2 (stage_momentum_result 2 0 3 (mkLoop 1 1 [1]) demo_momentum_store 1
                    (full [1; 2; 1; 3] 3%R) (full [1; 2; 1; 3] 1%R)
                    (full [3; 1] (1 / 2)%R) 1 2 1 3 3
                    eq_refl eq_refl eq_refl eq_refl eq_refl eq_refl eq_refl)). lia.
Defined.
